(** * dep-graph: the graph engine of [src/core/dep-graph.ts]

    A shallow embedding of the class [DepGraphImpl] (the read-only query
    surface over a dependency graph) and the properties its specification
    states about it. *)

From Stdlib Require Import ZArith Lia SpecFloat.
From stdpp Require Import base list strings pretty gmap sets sorting.

Open Scope string_scope.

(** ** Outcomes of a call

    Every [throw new Error(...)] of the source is a constructor, with the
    text it interpolates.  [TypeError] is what the JavaScript runtime raises
    by itself: iterating [undefined] ([Array.from(undefined)]) or reading a
    property of [undefined].  The last two are the errors of
    [createFromJSON], which [equals] calls on an [other] of another
    class. *)

Inductive Error : Type :=
  | NoSuchPkg (pkgId : string)          (* `no such pkg: ${pkgId}` *)
  | NoSuchNode (nodeId : string)        (* `no such node: ${nodeId}` *)
  | CyclicUnsupported (method : string) (* `${method} does not support cyclic graphs yet` *)
  | TypeError
  | IncompatibleSchema (schemaVersion : string)
  | MalformedDocument.

(** [OutOfFuel] is not a value of the program: it marks a recursion of the
    model that was cut before the source's recursion would have ended. *)
Inductive outcome (A : Type) : Type :=
  | Ok (a : A)
  | Throw (e : Error)
  | OutOfFuel.
Arguments Ok {A} a.
Arguments Throw {A} e.
Arguments OutOfFuel {A}.

Definition obind {A B} (m : outcome A) (k : A → outcome B) : outcome B :=
  match m with
  | Ok a => k a
  | Throw e => Throw e
  | OutOfFuel => OutOfFuel
  end.

Notation "'let*' x ':=' m 'in' k" := (obind m (fun x => k))
  (at level 10, x name, m at level 100, k at level 200).

(** A [for ... of] loop (or [Array.prototype.map]) whose body may throw:
    the first exception leaves the loop. *)
Fixpoint forM {A B} (f : A → outcome B) (l : list A) : outcome (list B) :=
  match l with
  | [] => Ok []
  | a :: l' => let* b := f a in let* bs := forM f l' in Ok (b :: bs)
  end.

(** A computation over a mutable object of type [S] (a cache, a set):
    the state survives an exception. *)
Definition ST (S A : Type) : Type := S → outcome A * S.

Definition sbind {S A B} (m : ST S A) (k : A → ST S B) : ST S B := λ s,
  match m s with
  | (Ok a, s') => k a s'
  | (Throw e, s') => (Throw e, s')
  | (OutOfFuel, s') => (OutOfFuel, s')
  end.
Definition sret {S A} (a : A) : ST S A := λ s, (Ok a, s).
Definition lift {S A} (m : outcome A) : ST S A := λ s, (m, s).

Notation "'let+' x ':=' m 'in' k" := (sbind m (fun x => k))
  (at level 10, x name, m at level 100, k at level 200).

(** [Array.prototype.reduce] with a callback that reads and writes the
    state. *)
Fixpoint reduceM {S A B} (f : B → A → ST S B) (l : list A) (acc : B) : ST S B :=
  match l with
  | [] => sret acc
  | a :: l' => let+ acc' := f acc a in reduceM f l' acc'
  end.

(** ** [Array.prototype.sort]

    A stable sort (ECMAScript 2019), given here by insertion; [cmp a b] is
    the comparator's number, of which only the sign is used. *)
Section Sort.
Context {A : Type} (cmp : A → A → Z).

Fixpoint sort_insert (x : A) (l : list A) : list A :=
  match l with
  | [] => [x]
  | y :: l' => if (cmp x y <=? 0)%Z then x :: y :: l' else y :: sort_insert x l'
  end.

Fixpoint js_sort (l : list A) : list A :=
  match l with
  | [] => []
  | x :: l' => sort_insert x (js_sort l')
  end.
End Sort.

(** ** JavaScript numbers

    The counts of paths are JavaScript numbers, that is IEEE 754 doubles.
    Sums of [0] and [1], they are neither negative nor fractional nor
    [NaN]: a count is a non-negative integer that a double holds exactly,
    or [Infinity]. *)
Inductive number : Type :=
  | Finite (n : N)
  | Infinity.

(** The double nearest to a non-negative integer, ties to the even
    significand: the 53 leading bits are kept, the bits dropped decide the
    rounding.  The exponent is not bounded here. *)
Definition roundDouble (n : N) : N :=
  if (N.size n <=? 53)%N then n
  else
    let drop := (N.size n - 53)%N in
    let q := N.shiftr n drop in
    let r := N.land n (N.ones drop) in
    let half := N.shiftl 1 (drop - 1) in
    let q := if (half <? r)%N || ((r =? half)%N && N.odd q) then (q + 1)%N else q in
    N.shiftl q drop.

(** [a + b] on two counts.  A sum that rounds to [2 ^ 1024] or more is
    [Infinity]. *)
Definition addNumbers (a b : number) : number :=
  match a, b with
  | Finite x, Finite y =>
      let s := roundDouble (x + y) in
      if (2 ^ 1024 <=? s)%N then Infinity else Finite s
  | _, _ => Infinity
  end.
Arguments addNumbers : simpl never.

(** The count as a double of the standard library's specification of
    IEEE 754 ([binary64]: 53 bits of precision, exponents up to 1024). *)
Definition toDouble (c : number) : spec_float :=
  match c with
  | Finite n => binary_normalize 53 1024 (Z.of_N n) 0 false
  | Infinity => S754_infinity false
  end.

(** A list's [length], as a number. *)
Definition lengthOf {A} (l : list A) : number := Finite (N.of_nat (length l)).

(** ** Data model *)

(** Modelled from the spec: [types.Pkg], declared in [./types], is
    [{name: string, version: optional string}]; the source reads
    [pkg.name] and [pkg.version]. *)
Record Pkg : Type := { name : string; version : option string }.

(** Modelled from the spec: [types.PkgInfo], declared in [./types], is the
    registry value, "at minimum the Package itself".  It is an object of
    the heap: [pkgRef] is its address, which is all that [===] and [!==]
    look at. *)
Record PkgInfo : Type := { pkgRef : nat; pkgOf :> Pkg }.

#[global] Instance Pkg_eq_dec : EqDecision Pkg.
Proof. solve_decision. Defined.
#[global] Instance PkgInfo_eq_dec : EqDecision PkgInfo.
Proof. solve_decision. Defined.

(** [DepGraphImpl.getPkgId]: [`${pkg.name}@${pkg.version || ''}`]. *)
Definition getPkgId (pkg : Pkg) : string :=
  name pkg ++ "@" ++ default "" (version pkg).

(** Package identity: equal name and equal version. *)
Definition samePkg (p q : Pkg) : bool :=
  bool_decide (name p = name q ∧ version p = version q).

(** Lodash's deep [_.isEqual] on two values that are a [PkgInfo] or
    [undefined]: addresses play no part. *)
Definition isEqualPkg (p q : option PkgInfo) : bool :=
  match p, q with
  | Some a, Some b => samePkg a b
  | None, None => true
  | _, _ => false
  end.

(** [a !== b] for [a] an object and [b] an object or [undefined]. *)
Definition strictNe (a : PkgInfo) (b : option PkgInfo) : bool :=
  match b with
  | Some r => negb (Nat.eqb (pkgRef a) (pkgRef r))
  | None => true
  end.

(** A JavaScript object used as a dictionary whose enumeration order is
    observed ([_.values], [_.keys]): the entries in insertion order. *)
Fixpoint assoc {V} (k : string) (l : list (string * V)) : option V :=
  match l with
  | [] => None
  | (k', v) :: l' => if decide (k' = k) then Some v else assoc k l'
  end.

(** A path to the root: the packages met on the way up. *)
Abbreviation Path := (list (option PkgInfo)).

(** ** What [./types] and the runtime provide

    [types.NodeInfo] and [types.PkgManager] are declared outside the file
    at hand; the engine only stores them, compares two [NodeInfo] with
    [_.isEqual] and builds the empty object [{}].  [localeCompare] is
    [String.prototype.localeCompare] of the runtime, whose order depends on
    the locale. *)
Class Externals : Type :=
  { NodeInfo : Type;
    emptyInfo : NodeInfo;
    isEqualInfo : NodeInfo → NodeInfo → bool;
    PkgManager : Type;
    localeCompare : string → string → Z }.

Section Engine.
Context `{Externals}.

(** The label of a node in the graph ([interface GraphNode]). *)
Record GraphNode : Type := { pkgId : string; info : option NodeInfo }.

(** ** [graphlib.Graph]

    A directed graph of the graphlib package, as the engine reads it:
    the labelled nodes and the edges, each in insertion order, which is
    the order in which graphlib enumerates them (node ids that read as
    array indices, which a JavaScript object enumerates first, are not
    told apart).  Every node carries a [GraphNode] label. *)
Record Graph : Type :=
  { _nodes : list (string * GraphNode); _edges : list (string * string) }.

(** [g.nodes()] *)
Definition nodes (g : Graph) : list string := (_nodes g).*1.
(** [g.node(v)]: the label, or [undefined]. *)
Definition node (g : Graph) (v : string) : option GraphNode := assoc v (_nodes g).

Definition sucs (g : Graph) (v : string) : list string :=
  (filter (λ e, e.1 = v) (_edges g)).*2.
Definition preds (g : Graph) (v : string) : list string :=
  (filter (λ e, e.2 = v) (_edges g)).*1.

(** [g.successors(v)] and [g.predecessors(v)]: [undefined] when [v] is
    not a node of the graph. *)
Definition successors (g : Graph) (v : string) : option (list string) :=
  match node g v with Some _ => Some (sucs g v) | None => None end.
Definition predecessors (g : Graph) (v : string) : option (list string) :=
  match node g v with Some _ => Some (preds g v) | None => None end.

(** [graphlib.alg.isAcyclic]: whether the graph has no directed cycle.
    Sources (nodes without a remaining predecessor) are removed round
    after round; the graph is acyclic when nothing remains after as many
    rounds as there are nodes. *)
Definition peel (g : Graph) (R : list string) : list string :=
  filter (λ v, Exists (λ p, p ∈ R) (preds g v)) R.
Definition remaining (g : Graph) (k : nat) : list string :=
  Nat.iter k (peel g) (nodes g).
Definition isAcyclic (g : Graph) : bool :=
  bool_decide (remaining g (length (nodes g)) = []).

(** ** The engine *)

(** The fields the constructor sets and nothing later changes. *)
Record DepGraphImpl : Type :=
  { _pkgs : list (string * PkgInfo);
    _pkgNodes : gmap string (list string);
    _pkgList : list PkgInfo;
    _depPkgsList : list PkgInfo;
    _graph : Graph;
    _pkgManager : PkgManager;
    _rootNodeId : string;
    _rootPkgId : string }.

(** The two fields that queries write: the path-count table and the
    memoized cycle flag. *)
Record Caches : Type :=
  { _countNodePathsToRootCache : gmap string number;
    _hasCycles : option bool }.

Definition noCaches : Caches :=
  {| _countNodePathsToRootCache := ∅; _hasCycles := None |}.

(** [types.Node], the view of a node that queries return; a field that
    could be [undefined] in the source is an [option] here. *)
Record Node : Type :=
  { n_id : string; n_info : option NodeInfo; n_pkg : option PkgInfo }.

(** [get rootPkg] *)
Definition rootPkg (g : DepGraphImpl) : option PkgInfo :=
  assoc (_rootPkgId g) (_pkgs g).

(** The constructor.  [graph.node(rootNodeId).pkgId] is a property read
    on [undefined] when the root is not a node. *)
Definition construct (graph : Graph) (rootNodeId : string)
    (pkgs : list (string * PkgInfo)) (pkgNodes : gmap string (list string))
    (pkgManager : PkgManager) : outcome DepGraphImpl :=
  match node graph rootNodeId with
  | None => Throw TypeError
  | Some root =>
      let pkgList := pkgs.*2 in
      let rootPkg := assoc (pkgId root) pkgs in
      Ok {| _pkgs := pkgs; _pkgNodes := pkgNodes;
            _pkgList := pkgList;
            _depPkgsList := List.filter (λ pkg, strictNe pkg rootPkg) pkgList;
            _graph := graph; _pkgManager := pkgManager;
            _rootNodeId := rootNodeId; _rootPkgId := pkgId root |}
  end.

Definition getPkgs (g : DepGraphImpl) : list PkgInfo := _pkgList g.
Definition getDepPkgs (g : DepGraphImpl) : list PkgInfo := _depPkgsList g.

Definition getGraphNode (g : DepGraphImpl) (nodeId : string) : outcome GraphNode :=
  match node (_graph g) nodeId with
  | Some n => Ok n
  | None => Throw (NoSuchNode nodeId)
  end.

Definition getNodePkg (g : DepGraphImpl) (nodeId : string) : outcome (option PkgInfo) :=
  let* n := getGraphNode g nodeId in Ok (assoc (pkgId n) (_pkgs g)).

(** [graphNode.info || {}] *)
Definition infoOrEmpty (i : option NodeInfo) : option NodeInfo :=
  match i with Some x => Some x | None => Some emptyInfo end.

Definition getPkgNodes (g : DepGraphImpl) (pkg : Pkg) : outcome (list Node) :=
  let pkgId := getPkgId pkg in
  let pkgInfo := assoc pkgId (_pkgs g) in
  match _pkgNodes g !! pkgId with
  | None => Throw TypeError
  | Some ids =>
      forM (λ nodeId,
              let* graphNode := getGraphNode g nodeId in
              Ok {| n_id := nodeId; n_info := infoOrEmpty (info graphNode);
                    n_pkg := pkgInfo |}) ids
  end.

Definition getNodeDepsNodeIds (g : DepGraphImpl) (nodeId : string) : outcome (list string) :=
  match successors (_graph g) nodeId with
  | None => Throw (NoSuchNode nodeId)
  | Some deps => Ok deps
  end.

Definition getNodeParentsNodeIds (g : DepGraphImpl) (nodeId : string) : outcome (list string) :=
  match predecessors (_graph g) nodeId with
  | None => Throw (NoSuchNode nodeId)
  | Some parents => Ok parents
  end.

Definition getNodeDeps (g : DepGraphImpl) (nodeId : string) : outcome (list Node) :=
  let* depsNodeIds := getNodeDepsNodeIds g nodeId in
  forM (λ depNodeId,
          let* graphNode := getGraphNode g depNodeId in
          let* pkg := getNodePkg g depNodeId in
          Ok {| n_id := depNodeId; n_info := infoOrEmpty (info graphNode);
                n_pkg := pkg |}) depsNodeIds.

Definition getNode (g : DepGraphImpl) (nodeId : string) : outcome Node :=
  let* graphNode := getGraphNode g nodeId in
  let* pkg := getNodePkg g nodeId in
  Ok {| n_id := nodeId; n_info := infoOrEmpty (info graphNode); n_pkg := pkg |}.

Definition getPkgNodeIds (g : DepGraphImpl) (pkg : Pkg) : outcome (list string) :=
  let pkgId := getPkgId pkg in
  match assoc pkgId (_pkgs g) with
  | None => Throw (NoSuchPkg pkgId)
  | Some _ =>
      match _pkgNodes g !! pkgId with
      | None => Throw TypeError
      | Some ids => Ok ids
      end
  end.

(** [hasCycles]: computed once, then read from [_hasCycles]. *)
Definition hasCycles (g : DepGraphImpl) (st : Caches) : bool * Caches :=
  match _hasCycles st with
  | Some b => (b, st)
  | None =>
      let b := negb (isAcyclic (_graph g)) in
      (b, {| _countNodePathsToRootCache := _countNodePathsToRootCache st;
             _hasCycles := Some b |})
  end.


Fixpoint pathsFromNodeToRoot (fuel : nat) (g : DepGraphImpl) (nodeId : string)
    : outcome (list Path) :=
  match fuel with
  | 0 => OutOfFuel
  | S fuel =>
      let* parentNodesIds := getNodeParentsNodeIds g nodeId in
      match parentNodesIds with
      | [] => let* pkg := getNodePkg g nodeId in Ok [[pkg]]
      | _ =>
          let* outs :=
            forM (λ id,
                    let* paths := pathsFromNodeToRoot fuel g id in
                    forM (λ path, let* pkg := getNodePkg g nodeId in Ok (pkg :: path))
                         paths)
                 parentNodesIds in
          Ok (concat outs)
      end
  end.

Definition byLength (a b : Path) : Z := Z.of_nat (length a) - Z.of_nat (length b).

Definition pkgPathsToRoot (fuel : nat) (g : DepGraphImpl) (pkg : Pkg)
    : ST Caches (list Path) := λ st,
  let '(cyclic, st) := hasCycles g st in
  if cyclic then (Throw (CyclicUnsupported "pkgPathsToRoot"), st)
  else
    (let* ids := getPkgNodeIds g pkg in
     let* pathss := forM (pathsFromNodeToRoot fuel g) ids in
     Ok (js_sort byLength (concat pathss)), st).

(** [this._countNodePathsToRootCache.get(nodeId) || 0] on a key that the
    table has: of the counts, [0] alone is falsy. *)
Definition orZero (c : number) : number :=
  match c with
  | Finite 0 => Finite 0
  | _ => c
  end.

Fixpoint countNodePathsToRoot (fuel : nat) (g : DepGraphImpl) (nodeId : string)
    : ST (gmap string number) number := λ cache,
  match fuel with
  | 0 => (OutOfFuel, cache)
  | S fuel =>
      match cache !! nodeId with
      | Some c => (Ok (orZero c), cache)
      | None =>
          (let+ parentNodesIds := lift (getNodeParentsNodeIds g nodeId) in
           match parentNodesIds with
           | [] => λ cache, (Ok (Finite 1), <[nodeId := Finite 1]> cache)
           | _ =>
               let+ count :=
                 reduceM (λ acc parentNodeId,
                            let+ c := countNodePathsToRoot fuel g parentNodeId in
                            sret (addNumbers acc c))
                         parentNodesIds (Finite 0) in
               λ cache, (Ok count, <[nodeId := count]> cache)
           end) cache
      end
  end.

Definition countPathsToRoot (fuel : nat) (g : DepGraphImpl) (pkg : Pkg)
    : ST Caches number := λ st,
  let '(cyclic, st) := hasCycles g st in
  if cyclic then (Throw (CyclicUnsupported "countPathsToRoot"), st)
  else
    match getPkgNodeIds g pkg with
    | Ok ids =>
        let '(r, cache) :=
          reduceM (λ count nodeId,
                     let+ c := countNodePathsToRoot fuel g nodeId in
                     sret (addNumbers count c))
                  ids (Finite 0) (_countNodePathsToRootCache st) in
        (r, {| _countNodePathsToRootCache := cache; _hasCycles := _hasCycles st |})
    | Throw e => (Throw e, st)
    | OutOfFuel => (OutOfFuel, st)
    end.

(** *** Structural equality *)

(** [_.isEqual(nodeA.info, nodeB.info)] *)
Definition isEqualNodeInfo (i j : option NodeInfo) : bool :=
  match i, j with
  | Some x, Some y => isEqualInfo x y
  | None, None => true
  | _, _ => false
  end.

(** The two [_.isEqual] tests on a pair of nodes. *)
Definition compareNodes (gA : DepGraphImpl) (nodeIdA : string)
    (gB : DepGraphImpl) (nodeIdB : string) : outcome bool :=
  let* nodeA := getNode gA nodeIdA in
  let* nodeB := getNode gB nodeIdB in
  if negb (isEqualPkg (n_pkg nodeA) (n_pkg nodeB)) then Ok false
  else if negb (isEqualNodeInfo (n_info nodeA) (n_info nodeB)) then Ok false
  else Ok true.

(** One side of [sortFn]: [getPkgId(graph.getNode(id).pkg)], a property
    read on [undefined] when the node's package is not in the registry. *)
Definition depPkgId (g : DepGraphImpl) (id : string) : outcome string :=
  let* n := getNode g id in
  match n_pkg n with
  | Some pkg => Ok (getPkgId pkg)
  | None => Throw TypeError
  end.

Definition depKey (g : DepGraphImpl) (id : string) : string :=
  match depPkgId g id with Ok k => k | _ => "" end.

Definition sortFn (g : DepGraphImpl) (idA idB : string) : Z :=
  localeCompare (depKey g idA) (depKey g idB).

(** [deps.sort(sortFn(graph))].  The comparator is not called on a list
    of fewer than two elements, and is called on every element of a
    longer one, so it throws exactly when one of them makes it throw. *)
Definition sortDeps (g : DepGraphImpl) (deps : list string) : outcome (list string) :=
  match deps with
  | [] | [_] => Ok deps
  | _ => let* _ := forM (depPkgId g) deps in Ok (js_sort (sortFn g) deps)
  end.

(** [`${depsA[i]}_${depsB[i]}`] *)
Definition pairKey (a b : string) : string := a ++ "_" ++ b.

(** The statements of [nodeEquals] before its loop: [None] stands for
    [return false], [Some pairs] for the pairs that the loop will walk. *)
Definition pairDeps (gA : DepGraphImpl) (nodeIdA : string)
    (gB : DepGraphImpl) (nodeIdB : string) : outcome (option (list (string * string))) :=
  let* depsA := getNodeDeps gA nodeIdA in
  let* depsB := getNodeDeps gB nodeIdB in
  let depsA := n_id <$> depsA in
  let depsB := n_id <$> depsB in
  if negb (Nat.eqb (length depsA) (length depsB)) then Ok None
  else
    let* depsA := sortDeps gA depsA in
    let* depsB := sortDeps gB depsB in
    Ok (Some (zip depsA depsB)).

(** The loop of [nodeEquals] over [depsA[i]], [depsB[i]]; [rec] is the
    recursive call. *)
Fixpoint eachPair (rec : string → string → ST (gset string) bool)
    (pairs : list (string * string)) : ST (gset string) bool := λ traversedPairs,
  match pairs with
  | [] => (Ok true, traversedPairs)
  | (a, b) :: rest =>
      if decide (pairKey a b ∈ traversedPairs) then eachPair rec rest traversedPairs
      else
        match rec a b ({[pairKey a b]} ∪ traversedPairs) with
        | (Ok true, traversedPairs) => eachPair rec rest traversedPairs
        | r => r
        end
  end.

(** Whether [nodeEquals] compares the two nodes before their
    dependencies. *)
Definition comparesNodes (gA : DepGraphImpl) (nodeIdA : string)
    (gB : DepGraphImpl) (nodeIdB : string) (compareRoot : bool) : bool :=
  compareRoot ||
    (negb (String.eqb nodeIdA (_rootNodeId gA)) && negb (String.eqb nodeIdB (_rootNodeId gB))).

Fixpoint nodeEquals (fuel : nat) (gA : DepGraphImpl) (nodeIdA : string)
    (gB : DepGraphImpl) (nodeIdB : string) (compareRoot : bool)
    : ST (gset string) bool := λ traversedPairs,
  match fuel with
  | 0 => (OutOfFuel, traversedPairs)
  | S fuel =>
      (let+ same :=
         lift (if comparesNodes gA nodeIdA gB nodeIdB compareRoot
               then compareNodes gA nodeIdA gB nodeIdB else Ok true) in
       if negb same then sret false
       else
         let+ pairs := lift (pairDeps gA nodeIdA gB nodeIdB) in
         match pairs with
         | None => sret false
         | Some pairs =>
             eachPair (λ a b, nodeEquals fuel gA a gB b compareRoot) pairs
         end) traversedPairs
  end.

(** *** The canonical document *)

(** [types.GraphNode], as [toJSON] builds it: [{nodeId, pkgId, deps}] with
    [deps] the list of [{nodeId}], and [info] when it is set. *)
Record GraphNodeData : Type :=
  { d_nodeId : string; d_pkgId : string; d_deps : list string;
    d_info : option NodeInfo }.

(** [types.DepGraphData], as [toJSON] builds it; [d_pkgs] is the list of
    [{id, info}]. *)
Record DepGraphData : Type :=
  { d_schemaVersion : string;
    d_pkgManager : PkgManager;
    d_pkgs : list (string * option PkgInfo);
    d_rootNodeId : string;
    d_nodes : list GraphNodeData }.

Definition SCHEMA_VERSION : string := "1.2.0".

(** A document without dangling references: the root is one of its nodes,
    node ids and package ids are unique, every dependency is one of its
    nodes and every node's package is one of its packages, each with its
    [info]. *)
Record consistent (d : DepGraphData) : Prop :=
  { consistent_root : d_rootNodeId d ∈ d_nodeId <$> d_nodes d;
    consistent_node_ids : NoDup (d_nodeId <$> d_nodes d);
    consistent_pkg_ids : NoDup (d_pkgs d).*1;
    consistent_pkgs : Forall (λ p, is_Some p.2) (d_pkgs d);
    consistent_deps :
      Forall (λ n, Forall (λ w, w ∈ d_nodeId <$> d_nodes d) (d_deps n)) (d_nodes d);
    consistent_node_pkgs :
      Forall (λ n, d_pkgId n ∈ (d_pkgs d).*1) (d_nodes d) }.

#[global] Instance consistent_dec d : Decision (consistent d).
Proof.
  destruct (decide
    (d_rootNodeId d ∈ d_nodeId <$> d_nodes d ∧
     NoDup (d_nodeId <$> d_nodes d) ∧
     NoDup (d_pkgs d).*1 ∧
     Forall (λ p, is_Some p.2) (d_pkgs d) ∧
     Forall (λ n, Forall (λ w, w ∈ d_nodeId <$> d_nodes d) (d_deps n)) (d_nodes d) ∧
     Forall (λ n, d_pkgId n ∈ (d_pkgs d).*1) (d_nodes d))) as [Hd|Hd].
  - left. destruct Hd as (? & ? & ? & ? & ? & ?). by split.
  - right. intros []. by apply Hd.
Defined.

(** The major component of a version: what comes before its first dot. *)
Fixpoint major (v : string) : string :=
  match v with
  | EmptyString => EmptyString
  | String c v' => if String.eqb (String c EmptyString) "." then EmptyString else String c (major v')
  end.

(** The elements of a list, each at its first place: the keys of an
    object in which every element was set in turn. *)
Fixpoint firsts {A} `{EqDecision A} (l : list A) : list A :=
  match l with
  | [] => []
  | x :: l' => x :: filter (λ y, y ≠ x) (firsts l')
  end.

(** Modelled from the spec: [createFromJSON], imported from
    [./create-from-json], is the deserializer: it "accepts a document in
    the [canonical] format and a schema-version compatibility rule (same
    major version required); produces a Graph Engine instance satisfying
    all invariants, or fails with an IncompatibleSchema /
    MalformedDocument error".  A document that is not [consistent] (a
    "missing root", a "dangling edge reference", an id given twice) is
    taken to be malformed.  The instance has the nodes and the packages of
    the document in their order, an edge for each of the [deps], and the
    occurrence index that the nodes give. *)
Definition createFromJSON (d : DepGraphData) : outcome DepGraphImpl :=
  if negb (String.eqb (major (d_schemaVersion d)) (major SCHEMA_VERSION))
  then Throw (IncompatibleSchema (d_schemaVersion d))
  else if negb (bool_decide (consistent d)) then Throw MalformedDocument
  else
    let graph :=
      {| _nodes := (λ n, (d_nodeId n, {| pkgId := d_pkgId n; info := d_info n |}))
                     <$> d_nodes d;
         _edges := firsts (n ← d_nodes d; (λ w, (d_nodeId n, w)) <$> d_deps n) |} in
    let pkgs := omap (λ p, (λ i, (p.1, i)) <$> p.2) (d_pkgs d) in
    let pkgNodes :=
      foldl (λ m n, <[d_pkgId n := (default [] (m !! d_pkgId n) ++ [d_nodeId n])%list]> m)
            ∅ (d_nodes d) in
    construct graph (d_rootNodeId d) pkgs pkgNodes (d_pkgManager d).

(** [types.DepGraph], the type of [other] in [equals]: an instance of this
    class, or an object of another class with the same interface, of which
    [equals] calls [toJSON()] only; such an object is given by the document
    that this call returns. *)
Inductive DepGraph : Type :=
  | Native (g : DepGraphImpl)
  | Foreign (document : DepGraphData).
Coercion Native : DepGraphImpl >-> DepGraph.

(** [equals]: an [other] that is not an instance of this class is first
    rebuilt from its document. *)
Definition equals (fuel : nat) (g : DepGraphImpl) (other : DepGraph)
    (compareRoot : bool) : outcome bool :=
  let* otherDepGraph :=
    match other with
    | Native other => Ok other
    | Foreign document => createFromJSON document
    end in
  (nodeEquals fuel g (_rootNodeId g) otherDepGraph (_rootNodeId otherDepGraph)
     compareRoot ∅).1.

(** ** Valid instances

    What an instance built by the builder or the deserializer satisfies:
    the shape of a graphlib graph (unique node ids, unique edges, edges
    between nodes), of a JavaScript object (unique keys, one object per
    address), and the invariants of the data model. *)
Record valid (g : DepGraphImpl) : Prop :=
  { valid_node_ids : NoDup (nodes (_graph g));
    valid_edge_ids : NoDup (_edges (_graph g));
    valid_edges :
      Forall (λ e, e.1 ∈ nodes (_graph g) ∧ e.2 ∈ nodes (_graph g)) (_edges (_graph g));
    valid_pkg_keys : NoDup (_pkgs g).*1;
    valid_pkg_refs :
      Forall (λ kp, Forall (λ kq, pkgRef kp.2 = pkgRef kq.2 → kp.2 = kq.2) (_pkgs g))
             (_pkgs g);
    (* the registry is keyed by the PackageId of its entries *)
    valid_pkg_ids : Forall (λ kp : string * PkgInfo, getPkgId kp.2 = kp.1) (_pkgs g);
    (* 1. the root is a node *)
    valid_root : _rootNodeId g ∈ nodes (_graph g);
    (* 2. every node's package is registered *)
    valid_node_pkgs :
      Forall (λ vn, is_Some (assoc (pkgId vn.2) (_pkgs g))) (_nodes (_graph g));
    (* 3. the occurrence index lists the nodes of each package, and has
          an entry for every registered package *)
    valid_index_sound :
      map_Forall (λ k ids, NoDup ids ∧ Forall (λ v, pkgId <$> node (_graph g) v = Some k) ids)
                 (_pkgNodes g);
    valid_index_complete :
      Forall (λ vn, vn.1 ∈ default [] (_pkgNodes g !! pkgId vn.2)) (_nodes (_graph g));
    valid_index_keys : Forall (λ kp, is_Some (_pkgNodes g !! kp.1)) (_pkgs g);
    (* 4. the root package is the package of the root node *)
    valid_root_pkg : pkgId <$> node (_graph g) (_rootNodeId g) = Some (_rootPkgId g) }.

(** The memoized flag, when set, is the flag of this graph. *)
Definition memo_ok (g : DepGraphImpl) (st : Caches) : Prop :=
  ∀ b, _hasCycles st = Some b → b = negb (isAcyclic (_graph g)).

(** ** The specification's words *)

(** An edge [u → v]: [u] directly depends on [v]. *)
Definition edge (g : Graph) (u v : string) : Prop := (u, v) ∈ _edges g.

(** A directed cycle: a node that reaches itself along one edge or more. *)
Definition cyclic (g : Graph) : Prop := ∃ v, tc (edge g) v v.

(** The package of a node of a valid instance. *)
Definition pkgOfNode (g : DepGraphImpl) (v : string) : option PkgInfo :=
  n ← node (_graph g) v; assoc (pkgId n) (_pkgs g).

(** The upward paths of a node: a node with no parents contributes the
    single path made of its package; a node with parents contributes, for
    each parent and each path of that parent, its package followed by
    that path. *)
#[warnings="-register-all"] Inductive UpPaths (g : DepGraphImpl) : string → list Path → Prop :=
  | UpPaths_top v :
      is_Some (node (_graph g) v) →
      preds (_graph g) v = [] →
      UpPaths g v [[pkgOfNode g v]]
  | UpPaths_via v pss :
      is_Some (node (_graph g) v) →
      preds (_graph g) v ≠ [] →
      Forall2 (UpPaths g) (preds (_graph g) v) pss →
      UpPaths g v (concat ((λ ps : list Path, cons (pkgOfNode g v) <$> ps) <$> pss)).

(** The count of a node: [1] for a node with no parents, else the counts
    of its parents added up from [0] in the order of the parents, as
    JavaScript adds numbers. *)
#[warnings="-register-all"] Inductive Counted (g : DepGraphImpl) : string → number → Prop :=
  | Counted_top v :
      is_Some (node (_graph g) v) →
      preds (_graph g) v = [] →
      Counted g v (Finite 1)
  | Counted_via v cs :
      is_Some (node (_graph g) v) →
      preds (_graph g) v ≠ [] →
      Forall2 (Counted g) (preds (_graph g) v) cs →
      Counted g v (foldl addNumbers (Finite 0) cs).

(** The path-count table holds, for each node it has, the count of that
    node. *)
Definition cache_ok (g : DepGraphImpl) (cache : gmap string number) : Prop :=
  ∀ v c, cache !! v = Some c → Counted g v c.

(** The largest count up to which every integer is a double. *)
Definition exactUpTo : N := (2 ^ 53)%N.

Definition caches_ok (g : DepGraphImpl) (st : Caches) : Prop :=
  memo_ok g st ∧ cache_ok g (_countNodePathsToRootCache st).

(** Ascending by length. *)
Definition shorter (a b : Path) : Prop := (length a ≤ length b)%nat.

(** A node's PackageId, as the comparator of [nodeEquals] reads it. *)
Definition byPkgId (g : DepGraphImpl) (a b : string) : Prop :=
  (localeCompare (depKey g a) (depKey g b) <= 0)%Z.
(** The view of a node of the graph. *)
Definition viewOf (g : DepGraphImpl) (v : string) : Node :=
  {| n_id := v;
     n_info := infoOrEmpty (node (_graph g) v ≫= info);
     n_pkg := pkgOfNode g v |}.

(** What [graphNode.info || {}] leaves in a view: never [undefined], and
    the empty object when the stored node has no [info]. *)
Definition info_filled (g : DepGraphImpl) (view : Node) : Prop :=
  ∃ n, node (_graph g) (n_id view) = Some n ∧
       n_info view ≠ None ∧
       (info n = None → n_info view = Some emptyInfo) ∧
       (∀ i, info n = Some i → n_info view = Some i).

(** A walk against the edges, from its head upwards. *)
Inductive upwalk (G : Graph) : list string → Prop :=
  | upwalk_one v : upwalk G [v]
  | upwalk_cons v p l : edge G p v → upwalk G (p :: l) → upwalk G (v :: p :: l).

(** What a call of the count on a node leaves in the table and returns. *)
Definition counts (g : DepGraphImpl) (rec : string → ST (gmap string number) number)
    : Prop :=
  ∀ v cache r cache',
    rec v cache = (r, cache') → cache_ok g cache →
    cache_ok g cache' ∧ ∀ c, r = Ok c → Counted g v c.


(** The keys that the co-traversal of two graphs can put in
    [traversedPairs], and how many of them a set does not have yet. *)
Definition allKeys (gA gB : DepGraphImpl) : list string :=
  (λ ab, pairKey ab.1 ab.2) <$> list_prod (nodes (_graph gA)) (nodes (_graph gB)).

Definition unvisited (gA gB : DepGraphImpl) (traversedPairs : gset string) : nat :=
  length (filter (λ k, k ∉ traversedPairs) (allKeys gA gB)).

(** The two nodes have equal packages and equal [info]. *)
Definition sameNode (gA : DepGraphImpl) (a : string) (gB : DepGraphImpl) (b : string)
    : bool :=
  isEqualPkg (pkgOfNode gA a) (pkgOfNode gB b) &&
  isEqualNodeInfo (n_info (viewOf gA a)) (n_info (viewOf gB b)).

(** A pair that [nodeEquals] lets through without looking at its
    dependencies, when [compareRoot] is false. *)
Definition passes (gA gB : DepGraphImpl) (a b : string) : Prop :=
  a = _rootNodeId gA ∨ b = _rootNodeId gB ∨ sameNode gA a gB b = true.

(** Two graphs with the same nodes and edges, whose nodes other than the
    root have the same package and [info], and whose root is no node's
    dependency. *)
Record same_below_root (gA gB : DepGraphImpl) : Prop :=
  { sbr_root : _rootNodeId gA = _rootNodeId gB;
    sbr_nodes : nodes (_graph gA) = nodes (_graph gB);
    sbr_edges : _edges (_graph gA) = _edges (_graph gB);
    sbr_top : preds (_graph gA) (_rootNodeId gA) = [];
    sbr_same :
      Forall (λ v, v ≠ _rootNodeId gA → sameNode gA v gB v = true) (nodes (_graph gA)) }.

(** [sorted] is [deps] put in the order of the PackageIds, dependencies of
    one PackageId keeping their order; the PackageId that the comparator
    reads is the stored [pkgId] of the node. *)
Definition sortedByPkgId (g : DepGraphImpl) (deps sorted : list string) : Prop :=
  sorted ≡ₚ deps ∧
  Sorted (byPkgId g) sorted ∧
  (∀ k, filter (λ v, depKey g v = k) sorted = filter (λ v, depKey g v = k) deps) ∧
  Forall (λ v, pkgId <$> node (_graph g) v = Some (depKey g v)) deps.

(** The loop over the pairs of dependencies, in the specification's
    words: the pairs are taken in their order; a pair whose key is among
    the traversed ones is passed over; for any other pair the key is
    recorded and [nodeEquals] is called on the pair ([rec]), and a call
    that does not return true ends the loop with what it returned; a loop
    that comes to the end of the pairs returns true. *)
Inductive Pairwise (rec : string → string → ST (gset string) bool)
    : list (string * string) → gset string → outcome bool * gset string → Prop :=
  | Pairwise_end T : Pairwise rec [] T (Ok true, T)
  | Pairwise_traversed a b rest T r :
      pairKey a b ∈ T →
      Pairwise rec rest T r →
      Pairwise rec ((a, b) :: rest) T r
  | Pairwise_equal a b rest T T1 r :
      pairKey a b ∉ T →
      rec a b ({[pairKey a b]} ∪ T) = (Ok true, T1) →
      Pairwise rec rest T1 r →
      Pairwise rec ((a, b) :: rest) T r
  | Pairwise_differ a b rest T r :
      pairKey a b ∉ T →
      rec a b ({[pairKey a b]} ∪ T) = r →
      r.1 ≠ Ok true →
      Pairwise rec ((a, b) :: rest) T r.

(** A structural mismatch at a pair of nodes: the packages or the [info]
    differ where [nodeEquals] compares them, or the two nodes do not have
    as many dependencies. *)
Definition mismatch (gA gB : DepGraphImpl) (compareRoot : bool) (x y : string) : Prop :=
  (comparesNodes gA x gB y compareRoot = true ∧ sameNode gA x gB y = false) ∨
  length (sucs (_graph gA) x) ≠ length (sucs (_graph gB) y).

(** The calls of [nodeEquals] made, directly or not, by a call of
    [nodeEquals]: the call itself, and the calls made by the call on a pair
    of dependencies that the loop reaches with every earlier pair found
    equal, and whose key is not in [traversedPairs] yet. *)
Inductive Called (gA gB : DepGraphImpl) (compareRoot : bool)
    : nat → string → string → gset string → string → string → Prop :=
  | Called_self fuel a b T : Called gA gB compareRoot (S fuel) a b T a b
  | Called_below fuel a b T pre x y post T1 x' y' :
      (if comparesNodes gA a gB b compareRoot
       then compareNodes gA a gB b else Ok true) = Ok true →
      pairDeps gA a gB b = Ok (Some ((pre ++ (x, y) :: post)%list)) →
      eachPair (λ a b, nodeEquals fuel gA a gB b compareRoot) pre T = (Ok true, T1) →
      pairKey x y ∉ T1 →
      Called gA gB compareRoot fuel x y ({[pairKey x y]} ∪ T1) x' y' →
      Called gA gB compareRoot (S fuel) a b T x' y'.
End Engine.

(** * The rest of the engine *)

(** The one exception that graphlib throws by itself in the calls of the
    engine: [new Error('Graph does not have node: ' + v)], from
    [graphlib.alg.postorder] on a start node that the graph does not
    have. *)
Inductive GraphlibError : Type :=
  | GraphDoesNotHaveNode (v : string).

Section Traversal.
Context `{Externals}.

(** ** [graphlib.alg.postorder]

    The depth-first search of graphlib ([dfs] and [doDfs] of its
    [lib/alg/dfs.js]) in post-order: [visited] is the object that marks
    the nodes met, [acc] the array of the nodes in the order in which they
    are left.  The state is the pair of the two. *)
Fixpoint doDfs (fuel : nat) (G : Graph) (v : string)
    : ST (gset string * list string) unit := λ st,
  match fuel with
  | 0 => (OutOfFuel, st)
  | S fuel =>
      if decide (v ∈ st.1) then (Ok (), st)
      else
        (let+ _ :=
           reduceM (λ _ w, doDfs fuel G w) (default [] (successors G v)) () in
         λ st, (Ok (), (st.1, (st.2 ++ [v])%list)))
          ({[v]} ∪ st.1, st.2)
  end.

(** [postorder(g, vs)]: every start node must be a node of the graph. *)
Fixpoint dfsFrom (fuel : nat) (G : Graph) (vs : list string)
    (st : gset string * list string) : GraphlibError + outcome (list string) :=
  match vs with
  | [] => inr (Ok st.2)
  | v :: vs =>
      match node G v with
      | None => inl (GraphDoesNotHaveNode v)
      | Some _ =>
          match doDfs fuel G v st with
          | (Ok _, st) => dfsFrom fuel G vs st
          | (Throw e, _) => inr (Throw e)
          | (OutOfFuel, _) => inr OutOfFuel
          end
      end
  end.

Definition postorder (fuel : nat) (G : Graph) (vs : list string)
    : GraphlibError + outcome (list string) :=
  dfsFrom fuel G vs (∅, []).

(** ** [directDepsLeadingTo] *)

(** The callback of [directDeps.filter]: whether the nodes reachable from
    [directDep] include a node of [pkgNodes] (a non-zero [length] is
    truthy). *)
Definition leadsTo (fuel : nat) (g : DepGraphImpl) (pkgNodes : list string)
    (directDep : string) : GraphlibError + outcome bool :=
  match postorder fuel (_graph g) [directDep] with
  | inl e => inl e
  | inr (Ok reachableNodes) =>
      inr (Ok (negb (Nat.eqb (length (filter (λ n, n ∈ pkgNodes) reachableNodes)) 0)))
  | inr (Throw e) => inr (Throw e)
  | inr OutOfFuel => inr OutOfFuel
  end.

(** [Array.prototype.filter] with a callback that may throw. *)
Fixpoint filterDeps (keep : string → GraphlibError + outcome bool) (l : list string)
    : GraphlibError + outcome (list string) :=
  match l with
  | [] => inr (Ok [])
  | d :: l' =>
      match keep d with
      | inl e => inl e
      | inr (Ok b) =>
          match filterDeps keep l' with
          | inr (Ok ds) => inr (Ok (if b then d :: ds else ds))
          | r => r
          end
      | inr (Throw e) => inr (Throw e)
      | inr OutOfFuel => inr OutOfFuel
      end
  end.

Definition directDepsLeadingTo (fuel : nat) (g : DepGraphImpl) (pkg : Pkg)
    : GraphlibError + outcome (list (option PkgInfo)) :=
  match getPkgNodeIds g pkg with
  | Ok pkgNodes =>
      match getNodeDepsNodeIds g (_rootNodeId g) with
      | Ok directDeps =>
          match filterDeps (leadsTo fuel g pkgNodes) directDeps with
          | inl e => inl e
          | inr (Ok nodes) => inr (forM (getNodePkg g) nodes)
          | inr (Throw e) => inr (Throw e)
          | inr OutOfFuel => inr OutOfFuel
          end
      | Throw e => inr (Throw e)
      | OutOfFuel => inr OutOfFuel
      end
  | Throw e => inr (Throw e)
  | OutOfFuel => inr OutOfFuel
  end.

(** The nodes of the graph that a set of visited nodes does not have. *)
Definition unmet (G : Graph) (visited : gset string) : nat :=
  length (filter (λ v, v ∉ visited) (nodes G)).

(** What a search from a list of start nodes leaves: the nodes met before
    are kept, the start nodes are met, [acc] has got the nodes newly met,
    each of which is reachable from a start node and has all its successors
    met. *)
Definition searched (G : Graph) (starts : list string)
    (V : gset string) (acc : list string) (V' : gset string) (acc' : list string)
    : Prop :=
  V ⊆ V' ∧
  Forall (λ w, w ∈ V') starts ∧
  (∀ u, u ∈ acc' ↔ u ∈ acc ∨ (u ∈ V' ∧ u ∉ V)) ∧
  (∀ u, u ∈ V' → u ∉ V → ∃ w, w ∈ starts ∧ rtc (edge G) w u) ∧
  (∀ u w, u ∈ V' → u ∉ V → edge G u w → w ∈ V').

(** ** The specification's words, continued *)

(** An upward walk from [v] to a node without parents: the node ids of
    one path to the root. *)
Definition walkToTop (G : Graph) (v : string) (walk : list string) : Prop :=
  upwalk G walk ∧ head walk = Some v ∧ ∃ t, last walk = Some t ∧ preds G t = [].

(** The node is an occurrence of the package. *)
Definition occurrence (g : DepGraphImpl) (pkg : Pkg) (v : string) : Prop :=
  pkgId <$> node (_graph g) v = Some (getPkgId pkg).
End Traversal.

Section Serialization.
Context `{Externals}.

(** [_.isEmpty] on a [NodeInfo]: whether the object has no property of
    its own. *)
Variable isEmptyInfo : NodeInfo → bool.

(** ** [toJSON] *)

(** [_.isEmpty(node.info)], true on [undefined]. *)
Definition isEmpty (i : option NodeInfo) : bool :=
  match i with Some x => isEmptyInfo x | None => true end.

Definition toJSON (g : DepGraphImpl) : outcome DepGraphData :=
  let* nodes :=
    forM (λ nodeId,
            let deps := default [] (successors (_graph g) nodeId) in
            match node (_graph g) nodeId with
            | None => Throw TypeError
            | Some n =>
                Ok {| d_nodeId := nodeId; d_pkgId := pkgId n; d_deps := deps;
                      d_info := if negb (isEmpty (info n)) then info n else None |}
            end)
         (nodes (_graph g)) in
  let pkgs := (λ pkgId, (pkgId, assoc pkgId (_pkgs g))) <$> (_pkgs g).*1 in
  Ok {| d_schemaVersion := SCHEMA_VERSION;
        d_pkgManager := _pkgManager g;
        d_pkgs := pkgs;
        d_rootNodeId := _rootNodeId g;
        d_nodes := nodes |}.

(** The entry of [nodes] that [toJSON] builds for a node of the graph. *)
Definition nodeData (g : DepGraphImpl) (nodeId : string) : GraphNodeData :=
  {| d_nodeId := nodeId;
     d_pkgId := from_option pkgId "" (node (_graph g) nodeId);
     d_deps := sucs (_graph g) nodeId;
     d_info :=
       let i := node (_graph g) nodeId ≫= info in
       if negb (isEmpty i) then i else None |}.
End Serialization.

(** ** Concrete instances *)

Module Examples.

(** [NodeInfo] as a flat list of labels, [localeCompare] as the order of
    the code units. *)
Definition ext : Externals :=
  {| NodeInfo := list (string * string);
     emptyInfo := [];
     isEqualInfo := λ a b, bool_decide (a = b);
     PkgManager := string;
     localeCompare := λ a b,
       match String.compare a b with Lt => (-1)%Z | Eq => 0%Z | Gt => 1%Z end |}.
#[local] Existing Instance ext.

Definition pkgInfo (ref : nat) (n v : string) : PkgInfo :=
  {| pkgRef := ref; pkgOf := {| name := n; version := Some v |} |}.

Definition plain (p : string) : GraphNode := {| pkgId := p; info := None |}.

Definition instance (graph : Graph) (rootNodeId : string)
    (pkgs : list (string * PkgInfo)) (pkgNodes : list (string * list string))
    : DepGraphImpl :=
  match construct graph rootNodeId pkgs (list_to_map pkgNodes) "npm" with
  | Ok g => g
  | _ =>
      {| _pkgs := []; _pkgNodes := ∅; _pkgList := []; _depPkgsList := [];
         _graph := graph; _pkgManager := "npm";
         _rootNodeId := rootNodeId; _rootPkgId := "" |}
  end.

(** The diamond: root [A] depends on [B] and [C], which both depend on
    [D]. *)
Definition diamondGraph : Graph :=
  {| _nodes := [("root", plain "A@1.0.0"); ("B", plain "B@1.0.0");
                ("C", plain "C@1.0.0"); ("D", plain "D@1.0.0")];
     _edges := [("root", "B"); ("root", "C"); ("B", "D"); ("C", "D")] |}.

Definition diamondPkgs (rootVersion : string) : list (string * PkgInfo) :=
  [("A@" ++ rootVersion, pkgInfo 0 "A" rootVersion); ("B@1.0.0", pkgInfo 1 "B" "1.0.0");
   ("C@1.0.0", pkgInfo 2 "C" "1.0.0"); ("D@1.0.0", pkgInfo 3 "D" "1.0.0")].

Definition diamondIndex (rootVersion : string) : list (string * list string) :=
  [("A@" ++ rootVersion, ["root"]); ("B@1.0.0", ["B"]); ("C@1.0.0", ["C"]);
   ("D@1.0.0", ["D"])].

Definition diamond : DepGraphImpl :=
  instance diamondGraph "root" (diamondPkgs "1.0.0") (diamondIndex "1.0.0").

(** The same graph with another version of the root package. *)
Definition diamond2 : DepGraphImpl :=
  instance
    {| _nodes := [("root", plain "A@2.0.0"); ("B", plain "B@1.0.0");
                  ("C", plain "C@1.0.0"); ("D", plain "D@1.0.0")];
       _edges := _edges diamondGraph |}
    "root" (diamondPkgs "2.0.0") (diamondIndex "2.0.0").

Definition pkgD : Pkg := {| name := "D"; version := Some "1.0.0" |}.
Definition pkgUnknown : Pkg := {| name := "left-pad"; version := Some "1.3.0" |}.

(** Two cyclic graphs, [root → a → root] and [root → a → x → a], whose
    packages differ at [root] (left) and [x] (right). *)
Definition loopA : DepGraphImpl :=
  instance
    {| _nodes := [("root", plain "app@1.0.0"); ("a", plain "a@1.0.0")];
       _edges := [("root", "a"); ("a", "root")] |}
    "root"
    [("app@1.0.0", pkgInfo 0 "app" "1.0.0"); ("a@1.0.0", pkgInfo 1 "a" "1.0.0")]
    [("app@1.0.0", ["root"]); ("a@1.0.0", ["a"])].

Definition loopB : DepGraphImpl :=
  instance
    {| _nodes := [("root", plain "app@1.0.0"); ("a", plain "a@1.0.0");
                  ("x", plain "other@9.9.9")];
       _edges := [("root", "a"); ("a", "x"); ("x", "a")] |}
    "root"
    [("app@1.0.0", pkgInfo 0 "app" "1.0.0"); ("a@1.0.0", pkgInfo 1 "a" "1.0.0");
     ("other@9.9.9", pkgInfo 2 "other" "9.9.9")]
    [("app@1.0.0", ["root"]); ("a@1.0.0", ["a"]); ("other@9.9.9", ["x"])].

(** A cycle through the root, [root → n → root] and [n → z], in two
    graphs that differ by the version of the root package only; the
    package of [z] sorts between the two. *)
Definition ringGraph (rootVersion : string) : Graph :=
  {| _nodes := [("root", plain ("lib@" ++ rootVersion)); ("n", plain "n@1.0.0");
                ("z", plain "lib@2.0.0")];
     _edges := [("root", "n"); ("n", "root"); ("n", "z")] |}.

Definition ring (rootVersion : string) : DepGraphImpl :=
  instance (ringGraph rootVersion) "root"
    [("lib@" ++ rootVersion, pkgInfo 0 "lib" rootVersion);
     ("n@1.0.0", pkgInfo 1 "n" "1.0.0"); ("lib@2.0.0", pkgInfo 2 "lib" "2.0.0")]
    [("lib@" ++ rootVersion, ["root"]); ("n@1.0.0", ["n"]); ("lib@2.0.0", ["z"])].

(** A registry that is not keyed by PackageId: a second object with the
    name and version of the root package, under another key. *)
Definition twins : DepGraphImpl :=
  instance {| _nodes := [("root", plain "A@1.0.0")]; _edges := [] |} "root"
    [("A@1.0.0", pkgInfo 0 "A" "1.0.0"); ("alias", pkgInfo 1 "A" "1.0.0")]
    [("A@1.0.0", ["root"])].

(** The diamond with another version of the leaf [D]. *)
Definition diamondLeaf : DepGraphImpl :=
  instance
    {| _nodes := [("root", plain "A@1.0.0"); ("B", plain "B@1.0.0");
                  ("C", plain "C@1.0.0"); ("D", plain "D@2.0.0")];
       _edges := _edges diamondGraph |}
    "root"
    [("A@1.0.0", pkgInfo 0 "A" "1.0.0"); ("B@1.0.0", pkgInfo 1 "B" "1.0.0");
     ("C@1.0.0", pkgInfo 2 "C" "1.0.0"); ("D@2.0.0", pkgInfo 3 "D" "2.0.0")]
    [("A@1.0.0", ["root"]); ("B@1.0.0", ["B"]); ("C@1.0.0", ["C"]);
     ("D@2.0.0", ["D"])].

Definition pkgB : Pkg := {| name := "B"; version := Some "1.0.0" |}.

(** [_.isEmpty] on the labels of the examples. *)
Definition noLabels (i : @NodeInfo ext) : bool := bool_decide (i = []).





(** The document of the diamond, as a producer of the given schema
    version writes it. *)
Definition diamondDocument (schemaVersion : string) : DepGraphData :=
  {| d_schemaVersion := schemaVersion;
     d_pkgManager := "npm";
     d_pkgs := (λ kp : string * PkgInfo, (kp.1, Some kp.2)) <$> diamondPkgs "1.0.0";
     d_rootNodeId := "root";
     d_nodes :=
       [{| d_nodeId := "root"; d_pkgId := "A@1.0.0"; d_deps := ["B"; "C"]; d_info := None |};
        {| d_nodeId := "B"; d_pkgId := "B@1.0.0"; d_deps := ["D"]; d_info := None |};
        {| d_nodeId := "C"; d_pkgId := "C@1.0.0"; d_deps := ["D"]; d_info := None |};
        {| d_nodeId := "D"; d_pkgId := "D@1.0.0"; d_deps := []; d_info := None |}] |}.

End Examples.

(** ** Instances under the collation of the runtime *)

Module Collation.

(** [String.prototype.localeCompare] as the engines order strings of ASCII
    letters by default: two strings are first compared without regard to
    case ([a] before [B] before [c]); strings that are equal up to case are
    then told apart with the lower-case letter first.  Other characters are
    compared by their code units here. *)
Definition lowerCase (c : Ascii.ascii) : Ascii.ascii :=
  let n := Ascii.N_of_ascii c in
  if (65 <=? n)%N && (n <=? 90)%N then Ascii.ascii_of_N (n + 32) else c.

Fixpoint foldCase (s : string) : string :=
  match s with
  | EmptyString => EmptyString
  | String c s' => String (lowerCase c) (foldCase s')
  end.

Definition collate (a b : string) : Z :=
  match String.compare (foldCase a) (foldCase b) with
  | Lt => (-1)%Z
  | Gt => 1%Z
  | Eq => match String.compare b a with Lt => (-1)%Z | Eq => 0%Z | Gt => 1%Z end
  end.

Definition collationExt : Externals :=
  {| NodeInfo := list (string * string);
     emptyInfo := [];
     isEqualInfo := λ a b, bool_decide (a = b);
     PkgManager := string;
     localeCompare := collate |}.
#[local] Existing Instance collationExt.

Definition unlabelled (p : string) : GraphNode := {| pkgId := p; info := None |}.

Definition assemble (graph : Graph) (rootNodeId : string)
    (pkgs : list (string * PkgInfo)) (pkgNodes : list (string * list string))
    : DepGraphImpl :=
  match construct graph rootNodeId pkgs (list_to_map pkgNodes) "npm" with
  | Ok g => g
  | _ =>
      {| _pkgs := []; _pkgNodes := ∅; _pkgList := []; _depPkgsList := [];
         _graph := graph; _pkgManager := "npm";
         _rootNodeId := rootNodeId; _rootPkgId := "" |}
  end.

(** An application with the two dependencies [Bar@1.0.0] and
    [apple@1.0.0], recorded in this order on one side and in the other
    order on the other side. *)
Definition mixedPkgs : list (string * PkgInfo) :=
  [("app@1.0.0", Examples.pkgInfo 0 "app" "1.0.0");
   ("Bar@1.0.0", Examples.pkgInfo 1 "Bar" "1.0.0");
   ("apple@1.0.0", Examples.pkgInfo 2 "apple" "1.0.0")].

Definition mixedA : DepGraphImpl :=
  assemble
    {| _nodes := [("root", unlabelled "app@1.0.0"); ("x", unlabelled "Bar@1.0.0");
                  ("y", unlabelled "apple@1.0.0")];
       _edges := [("root", "x"); ("root", "y")] |}
    "root" mixedPkgs
    [("app@1.0.0", ["root"]); ("Bar@1.0.0", ["x"]); ("apple@1.0.0", ["y"])].

Definition mixedB : DepGraphImpl :=
  assemble
    {| _nodes := [("root", unlabelled "app@1.0.0"); ("p", unlabelled "apple@1.0.0");
                  ("q", unlabelled "Bar@1.0.0")];
       _edges := [("root", "p"); ("root", "q")] |}
    "root" mixedPkgs
    [("app@1.0.0", ["root"]); ("Bar@1.0.0", ["q"]); ("apple@1.0.0", ["p"])].

End Collation.

Close Scope string_scope.

(** * Properties *)

(** ** Outcomes and loops *)

Lemma obind_Ok {A B} (m : outcome A) (k : A → outcome B) b :
  obind m k = Ok b ↔ ∃ a, m = Ok a ∧ k a = Ok b.
Proof.
  destruct m as [a| |]; simpl; split; try by intros (? & ? & ?).
  - intros Hk. by exists a.
  - by intros (? & [= <-] & Hk).
  - done.
  - done.
Qed.

Lemma forM_Ok {A B} (f : A → outcome B) l bs :
  forM f l = Ok bs ↔ Forall2 (λ a b, f a = Ok b) l bs.
Proof.
  revert bs. induction l as [|a l IH]; intros bs; simpl.
  - split; [intros [= <-]; constructor | by inversion 1].
  - rewrite obind_Ok. split.
    + intros (b & Hb & Hrest). apply obind_Ok in Hrest as (bs' & Hbs & [= <-]).
      constructor; [done | by apply IH].
    + inversion 1 as [|? b ? bs' Hb Hbs]; subst. exists b. split; [done |].
      apply IH in Hbs. by rewrite Hbs.
Qed.

Lemma forM_total {A B} (f : A → outcome B) (g : A → B) l :
  Forall (λ a, f a = Ok (g a)) l → forM f l = Ok (g <$> l).
Proof. induction 1 as [|a l Ha _ IH]; simpl; [done |]. by rewrite Ha, IH. Qed.

Lemma forM_ext {A B} (f f' : A → outcome B) l :
  Forall (λ a, f a = f' a) l → forM f l = forM f' l.
Proof. induction 1 as [|a l Ha _ IH]; simpl; [done |]. by rewrite Ha, IH. Qed.

(** ** Dictionaries in insertion order *)

Lemma assoc_Some_elem {V} k (v : V) l : assoc k l = Some v → (k, v) ∈ l.
Proof.
  induction l as [|[k' v'] l IH]; simpl; [done |].
  case_decide; [intros [= <-]; subst; left | intros; right; auto].
Qed.

Lemma assoc_is_Some {V} k (l : list (string * V)) : is_Some (assoc k l) ↔ k ∈ l.*1.
Proof.
  induction l as [|[k' v'] l IH]; simpl.
  - split; [by intros [? ?] | by intros ?%elem_of_nil].
  - case_decide; subst.
    + split; [left | eauto].
    + rewrite IH. set_solver.
Qed.

Lemma assoc_None {V} k (l : list (string * V)) : assoc k l = None ↔ k ∉ l.*1.
Proof. rewrite <-assoc_is_Some, eq_None_not_Some. done. Qed.

Lemma assoc_elem_NoDup {V} k (v : V) l : NoDup l.*1 → (k, v) ∈ l → assoc k l = Some v.
Proof.
  induction l as [|[k' v'] l IH]; simpl; [by intros _ ?%elem_of_nil |].
  intros [Hk Hl]%NoDup_cons [[= -> ->] | Hin]%elem_of_cons.
  - by rewrite decide_True.
  - rewrite decide_False; [auto |]. intros ->. apply Hk.
    apply list_elem_of_fmap. by exists (k, v).
Qed.

Section Properties.
Context `{Externals}.
Implicit Types (g : DepGraphImpl) (G : Graph) (v w : string).

(** ** The graph *)

Lemma node_is_Some G v : is_Some (node G v) ↔ v ∈ nodes G.
Proof. apply assoc_is_Some. Qed.

Lemma node_None G v : node G v = None ↔ v ∉ nodes G.
Proof. apply assoc_None. Qed.

Lemma elem_of_sucs G v w : w ∈ sucs G v ↔ edge G v w.
Proof.
  unfold sucs, edge. rewrite list_elem_of_fmap. split.
  - intros ([u w'] & -> & [Hu Hin]%list_elem_of_filter). simpl in *. by subst.
  - intros Hin. exists (v, w). split; [done |]. by apply list_elem_of_filter.
Qed.

Lemma elem_of_preds G v u : u ∈ preds G v ↔ edge G u v.
Proof.
  unfold preds, edge. rewrite list_elem_of_fmap. split.
  - intros ([u' w] & -> & [Hu Hin]%list_elem_of_filter). simpl in *. by subst.
  - intros Hin. exists (u, v). split; [done |]. by apply list_elem_of_filter.
Qed.

Lemma valid_edge_nodes g u v :
  valid g → edge (_graph g) u v → u ∈ nodes (_graph g) ∧ v ∈ nodes (_graph g).
Proof.
  intros Hg Huv. pose proof (valid_edges g Hg) as He.
  rewrite Forall_forall in He. apply (He (u, v) Huv).
Qed.

Lemma valid_node_registered g v n :
  valid g → node (_graph g) v = Some n → is_Some (assoc (pkgId n) (_pkgs g)).
Proof.
  intros Hg Hn. pose proof (valid_node_pkgs g Hg) as Hp.
  rewrite Forall_forall in Hp. apply (Hp (v, n)). by apply assoc_Some_elem.
Qed.

(** ** Lookups by node id *)

Lemma getGraphNode_Ok g v n : node (_graph g) v = Some n → getGraphNode g v = Ok n.
Proof. unfold getGraphNode. by intros ->. Qed.

Lemma getGraphNode_unknown g v : v ∉ nodes (_graph g) → getGraphNode g v = Throw (NoSuchNode v).
Proof. unfold getGraphNode. by intros ->%node_None. Qed.

Lemma getNodePkg_Ok g v n :
  node (_graph g) v = Some n → getNodePkg g v = Ok (pkgOfNode g v).
Proof. intros Hn. unfold getNodePkg, pkgOfNode. by rewrite (getGraphNode_Ok _ _ _ Hn), Hn. Qed.

Lemma getNode_Ok g v : v ∈ nodes (_graph g) → getNode g v = Ok (viewOf g v).
Proof.
  intros [n Hn]%node_is_Some. unfold getNode, viewOf.
  rewrite (getGraphNode_Ok _ _ _ Hn); simpl. rewrite (getNodePkg_Ok _ _ _ Hn); simpl.
  by rewrite Hn.
Qed.

Lemma getNodeDeps_Ok g v :
  valid g → v ∈ nodes (_graph g) → getNodeDeps g v = Ok (viewOf g <$> sucs (_graph g) v).
Proof.
  intros Hg [n Hn]%node_is_Some. unfold getNodeDeps, getNodeDepsNodeIds, successors.
  rewrite Hn; simpl. apply forM_total, Forall_forall. intros w Hw%elem_of_sucs.
  apply (valid_edge_nodes _ _ _ Hg) in Hw as [_ [m Hm]%node_is_Some].
  rewrite (getGraphNode_Ok _ _ _ Hm); simpl. rewrite (getNodePkg_Ok _ _ _ Hm); simpl.
  unfold viewOf. by rewrite Hm.
Qed.

(** C7. A node id that the graph does not have makes [getNode],
    [getNodeDeps], [getNodeDepsNodeIds] and [getNodeParentsNodeIds] throw
    `no such node`; for a node id of a valid graph they return the view of
    the node, the views and the ids of its direct successors, and the ids
    of its direct predecessors. *)
Theorem node_lookups g id :
  valid g →
  (id ∉ nodes (_graph g) →
     getNode g id = Throw (NoSuchNode id) ∧
     getNodeDeps g id = Throw (NoSuchNode id) ∧
     getNodeDepsNodeIds g id = Throw (NoSuchNode id) ∧
     getNodeParentsNodeIds g id = Throw (NoSuchNode id)) ∧
  (id ∈ nodes (_graph g) →
     getNode g id = Ok (viewOf g id) ∧
     (∃ deps, getNodeDepsNodeIds g id = Ok deps ∧
              getNodeDeps g id = Ok (viewOf g <$> deps) ∧
              ∀ w, w ∈ deps ↔ edge (_graph g) id w) ∧
     (∃ parents, getNodeParentsNodeIds g id = Ok parents ∧
                 ∀ u, u ∈ parents ↔ edge (_graph g) u id)).
Proof.
  intros Hg. split.
  - intros Hid. pose proof Hid as Hnone%node_None.
    unfold getNode, getNodeDeps, getNodeDepsNodeIds, getNodeParentsNodeIds,
      successors, predecessors.
    by rewrite (getGraphNode_unknown _ _ Hid), Hnone.
  - intros Hid. split; [by apply getNode_Ok |]. pose proof Hid as [n Hn]%node_is_Some.
    split.
    + exists (sucs (_graph g) id). unfold getNodeDepsNodeIds, successors. rewrite Hn.
      split; [done |]. split; [by apply getNodeDeps_Ok | apply elem_of_sucs].
    + exists (preds (_graph g) id). unfold getNodeParentsNodeIds, predecessors. rewrite Hn.
      split; [done | apply elem_of_preds].
Qed.

(** ** The [info] of a view *)

Lemma infoOrEmpty_filled g v n pkg :
  node (_graph g) v = Some n →
  info_filled g {| n_id := v; n_info := infoOrEmpty (info n); n_pkg := pkg |}.
Proof.
  intros Hn. exists n. simpl. split; [done |].
  destruct (info n); simpl; repeat split; congruence.
Qed.

Lemma getGraphNode_inv g v n : getGraphNode g v = Ok n → node (_graph g) v = Some n.
Proof. unfold getGraphNode. destruct (node _ v); naive_solver. Qed.

(** C10. The view returned by [getNode], and every view returned by
    [getNodeDeps] and [getPkgNodes], has an [info] that is not undefined,
    and that is the empty object when the stored node has none. *)
Theorem views_have_info g :
  (∀ id view, getNode g id = Ok view → n_id view = id ∧ info_filled g view) ∧
  (∀ id views, getNodeDeps g id = Ok views → Forall (info_filled g) views) ∧
  (∀ pkg views, getPkgNodes g pkg = Ok views → Forall (info_filled g) views).
Proof.
  split; [|split].
  - intros id view. unfold getNode. intros (n & Hn%getGraphNode_inv & Hv)%obind_Ok.
    apply obind_Ok in Hv as (pkg & _ & [= <-]). split; [done |].
    by apply infoOrEmpty_filled.
  - intros id views. unfold getNodeDeps. intros (deps & _ & Hv%forM_Ok)%obind_Ok.
    eapply Forall2_Forall_r; [exact Hv |]. apply Forall_forall.
    intros w _ view (n & Hn%getGraphNode_inv & Hw)%obind_Ok.
    apply obind_Ok in Hw as (pkg & _ & [= <-]). by apply infoOrEmpty_filled.
  - intros pkg views. unfold getPkgNodes. destruct (_pkgNodes g !! getPkgId pkg); [|done].
    intros Hv%forM_Ok. eapply Forall2_Forall_r; [exact Hv |]. apply Forall_forall.
    intros w _ view (n & Hn%getGraphNode_inv & [= <-])%obind_Ok.
    by apply infoOrEmpty_filled.
Qed.

End Properties.

Lemma forM_Throw {A B} (f : A → outcome B) l e :
  forM f l = Throw e → ∃ a, a ∈ l ∧ f a = Throw e.
Proof.
  induction l as [|a l IH]; simpl; [done |].
  destruct (f a) as [b| e' |] eqn:Hfa; simpl; [| |done].
  - destruct (forM f l) as [bs| e' |] eqn:Hl; simpl; [done | |done].
    intros [= ->]. destruct IH as (a' & Ha' & Hf); [done |].
    exists a'. split; [by right | done].
  - intros [= ->]. exists a. split; [left | done].
Qed.

Section Packages.
Context `{Externals}.
Implicit Types (g : DepGraphImpl) (G : Graph) (v w : string).

(** ** Lookups by package *)

Lemma valid_index_lookup g k ids :
  valid g → _pkgNodes g !! k = Some ids →
  NoDup ids ∧ ∀ v, v ∈ ids ↔ ∃ n, node (_graph g) v = Some n ∧ pkgId n = k.
Proof.
  intros Hg Hk. destruct (valid_index_sound g Hg k ids Hk) as [Hnd Hall].
  split; [done |]. intros v. split.
  - intros Hv. rewrite Forall_forall in Hall. specialize (Hall v Hv).
    destruct (node (_graph g) v) as [n|]; simpl in Hall; [|done].
    exists n. split; [done | congruence].
  - intros (n & Hn & <-). pose proof (valid_index_complete g Hg) as Hc.
    rewrite Forall_forall in Hc. specialize (Hc (v, n) (assoc_Some_elem _ _ _ Hn)).
    simpl in Hc. by rewrite Hk in Hc.
Qed.

Lemma valid_registered_index g k :
  valid g → is_Some (assoc k (_pkgs g)) → is_Some (_pkgNodes g !! k).
Proof.
  intros Hg [p Hp%assoc_Some_elem]. pose proof (valid_index_keys g Hg) as Hk.
  rewrite Forall_forall in Hk. apply (Hk (k, p) Hp).
Qed.

(** [getPkgNodes] has no way to say `no such pkg`. *)
Lemma getPkgNodes_not_NoSuchPkg g pkg k : getPkgNodes g pkg ≠ Throw (NoSuchPkg k).
Proof.
  unfold getPkgNodes. destruct (_pkgNodes g !! getPkgId pkg) as [ids|]; [|done].
  intros (v & _ & Hv)%forM_Throw. unfold getGraphNode in Hv.
  by destruct (node (_graph g) v).
Qed.

(** On a package that the registry of a valid instance does not have,
    [getPkgNodeIds] throws `no such pkg`, and [getPkgNodes] does not: it
    throws the [TypeError] of the runtime or returns no node. *)
Lemma getPkgNodes_unregistered g pkg :
  valid g → assoc (getPkgId pkg) (_pkgs g) = None →
  getPkgNodeIds g pkg = Throw (NoSuchPkg (getPkgId pkg)) ∧
  (getPkgNodes g pkg = Throw TypeError ∨ getPkgNodes g pkg = Ok []).
Proof.
  intros Hg Hreg. unfold getPkgNodeIds, getPkgNodes. rewrite Hreg. split; [done |].
  destruct (_pkgNodes g !! getPkgId pkg) as [ids|] eqn:Hids; [right | by left].
  destruct ids as [|v ids]; [done |].
  destruct (valid_index_lookup g _ _ Hg Hids) as [_ Hv].
  destruct (proj1 (Hv v)) as (n & Hn & Hk); [left |].
  destruct (valid_node_registered g v n Hg Hn) as [p Hp]. congruence.
Qed.

(** For a registered package of a valid instance, [getPkgNodes] returns
    one view per node of the package, with the registry's entry. *)
Lemma getPkgNodes_registered g pkg p :
  valid g → assoc (getPkgId pkg) (_pkgs g) = Some p →
  ∃ ids, getPkgNodeIds g pkg = Ok ids ∧
         getPkgNodes g pkg = Ok (viewOf g <$> ids) ∧
         Forall (λ view, n_pkg view = Some p) (viewOf g <$> ids) ∧
         NoDup ids ∧
         ∀ v, v ∈ ids ↔ ∃ n, node (_graph g) v = Some n ∧ pkgId n = getPkgId pkg.
Proof.
  intros Hg Hp. destruct (valid_registered_index g _ Hg (mk_is_Some _ _ Hp)) as [ids Hids].
  destruct (valid_index_lookup g _ _ Hg Hids) as [Hnd Hv].
  exists ids. unfold getPkgNodeIds, getPkgNodes. rewrite Hp, Hids.
  split; [done |]. split; [|split; [|done]].
  - apply forM_total, Forall_forall. intros v (n & Hn & Hk)%Hv.
    rewrite (getGraphNode_Ok _ _ _ Hn); simpl. unfold viewOf, pkgOfNode.
    rewrite Hn; simpl. by rewrite Hk, Hp.
  - apply Forall_fmap, Forall_forall. intros v (n & Hn & Hk)%Hv. simpl.
    unfold pkgOfNode. rewrite Hn; simpl. by rewrite Hk.
Qed.

(** ** The packages of the graph *)

Lemma samePkg_spec (p q : Pkg) : samePkg p q = true ↔ p = q.
Proof.
  unfold samePkg. rewrite bool_decide_eq_true. destruct p, q; simpl.
  split; [by intros [-> ->] | by intros [= -> ->]].
Qed.

Lemma valid_rootPkg g : valid g → is_Some (rootPkg g).
Proof.
  intros Hg. pose proof (valid_root_pkg g Hg) as Hr. unfold rootPkg.
  destruct (node (_graph g) (_rootNodeId g)) as [n|] eqn:Hn; simpl in Hr; [|done].
  injection Hr as <-. by eapply valid_node_registered.
Qed.

(** In a valid registry, two entries are the same object exactly when they
    have the same name and version. *)
Lemma valid_ref_identity g k p k' q :
  valid g → (k, p) ∈ _pkgs g → (k', q) ∈ _pkgs g →
  (pkgRef p = pkgRef q ↔ pkgOf p = pkgOf q).
Proof.
  intros Hg Hp Hq. split.
  - intros Href. pose proof (valid_pkg_refs g Hg) as Hrefs.
    rewrite Forall_forall in Hrefs. specialize (Hrefs _ Hp).
    rewrite Forall_forall in Hrefs. specialize (Hrefs (k', q) Hq Href).
    simpl in Hrefs. by subst.
  - intros Hpq. pose proof (valid_pkg_ids g Hg) as Hids.
    rewrite Forall_forall in Hids.
    pose proof (Hids _ Hp) as Hkp. pose proof (Hids _ Hq) as Hkq. simpl in *.
    assert (k = k') as <- by congruence.
    pose proof (assoc_elem_NoDup _ _ _ (valid_pkg_keys g Hg) Hp).
    pose proof (assoc_elem_NoDup _ _ _ (valid_pkg_keys g Hg) Hq). congruence.
Qed.

(** C8. In a valid instance, as its constructor leaves it, [getDepPkgs]
    is [getPkgs] without the packages that have the name and the version
    of the root package. *)
Theorem getDepPkgs_by_identity graph rootNodeId pkgs pkgNodes pkgManager g :
  construct graph rootNodeId pkgs pkgNodes pkgManager = Ok g →
  valid g →
  ∃ root, rootPkg g = Some root ∧
          getPkgs g = (_pkgs g).*2 ∧
          getDepPkgs g = List.filter (λ pkg : PkgInfo, negb (samePkg pkg root)) (getPkgs g).
Proof.
  intros Hc Hg. destruct (valid_rootPkg g Hg) as [root Hroot].
  exists root. split; [done |]. unfold construct in Hc.
  destruct (node graph rootNodeId) as [n|]; [|done]. injection Hc as <-.
  unfold getPkgs, getDepPkgs, rootPkg in *; simpl in *. split; [done |].
  rewrite Hroot. apply List.filter_ext_in. intros p Hin%list_elem_of_In.
  apply list_elem_of_fmap in Hin as ([k p'] & -> & Hin). simpl. f_equal.
  apply assoc_Some_elem in Hroot.
  pose proof (valid_ref_identity _ _ _ _ _ Hg Hin Hroot) as Hiff. simpl in Hiff.
  destruct (Nat.eqb_spec (pkgRef p') (pkgRef root)) as [Href|Href];
    destruct (samePkg p' root) eqn:Hsame; try done.
  - apply Hiff, samePkg_spec in Href. congruence.
  - apply samePkg_spec, Hiff in Hsame. done.
Qed.

End Packages.

(** ** Cycle detection *)

Section Acyclic.
Context `{Externals}.
Implicit Types (g : DepGraphImpl) (G : Graph) (v w : string).

Lemma remaining_S G k : remaining G (S k) = peel G (remaining G k).
Proof. done. Qed.

Lemma elem_of_peel G R v :
  v ∈ peel G R ↔ v ∈ R ∧ ∃ p, p ∈ preds G v ∧ p ∈ R.
Proof.
  unfold peel. rewrite list_elem_of_filter, Exists_exists. naive_solver.
Qed.

Lemma remaining_nodes G k v : v ∈ remaining G k → v ∈ nodes G.
Proof.
  induction k as [|k IH]; [done |]. rewrite remaining_S, elem_of_peel. naive_solver.
Qed.

Lemma remaining_anti G k k' v : k ≤ k' → v ∈ remaining G k' → v ∈ remaining G k.
Proof.
  induction 1 as [|k' _ IH]; [done |]. rewrite remaining_S, elem_of_peel. naive_solver.
Qed.

(** A node that has left after [k + 1] rounds has parents that had all
    left after [k] rounds. *)
Lemma preds_left G k v p :
  v ∈ nodes G → v ∉ remaining G (S k) → p ∈ preds G v → p ∉ remaining G k.
Proof.
  intros Hv. induction k as [|k IH]; intros Hout Hp Hin.
  - apply Hout. rewrite remaining_S, elem_of_peel. split; [done | eauto].
  - destruct (decide (v ∈ remaining G (S k))) as [Hvin|Hvout].
    + apply Hout. rewrite remaining_S, elem_of_peel. split; [done | eauto].
    + apply (IH Hvout Hp). by apply (remaining_anti G k (S k)); [lia |].
Qed.

Lemma isAcyclic_left G v k :
  isAcyclic G = true → length (nodes G) ≤ k → v ∉ remaining G k.
Proof.
  intros Hac%bool_decide_eq_true Hk Hin.
  apply (remaining_anti G _ _ v Hk) in Hin. rewrite Hac in Hin. by apply elem_of_nil in Hin.
Qed.

(** *** The model of [isAcyclic] against directed cycles *)

Lemma tc_last {A} (R : relation A) x y : tc R x y → ∃ z, rtc R x z ∧ R z y.
Proof.
  induction 1 as [x y Hxy | x z y Hxz _ (u & Hzu & Huy)].
  - exists x. split; [done | done].
  - exists u. split; [by eapply rtc_l | done].
Qed.

(** A node on a cycle has a parent on a cycle. *)
Lemma cycle_pred G v : tc (edge G) v v → ∃ p, p ∈ preds G v ∧ tc (edge G) p p.
Proof.
  intros (p & Hvp & Hpv)%tc_last. exists p. split; [by apply elem_of_preds |].
  eapply tc_rtc_r; [by apply tc_once | done].
Qed.

Lemma cycle_remaining g v k :
  valid g → tc (edge (_graph g)) v v → v ∈ remaining (_graph g) k.
Proof.
  intros Hg. revert v. induction k as [|k IH]; intros v Hv.
  - destruct (cycle_pred _ _ Hv) as (p & Hp%elem_of_preds & _).
    by apply (valid_edge_nodes _ _ _ Hg) in Hp as [_ ?].
  - rewrite remaining_S, elem_of_peel. split; [by apply IH |].
    destruct (cycle_pred _ _ Hv) as (p & Hp & Hpp). exists p. split; [done | by apply IH].
Qed.

Lemma remaining_upwalk G k v :
  v ∈ remaining G k →
  ∃ l, upwalk G (v :: l) ∧ length l = k ∧ Forall (λ w, w ∈ nodes G) (v :: l).
Proof.
  revert v. induction k as [|k IH]; intros v.
  - intros Hv. exists []. repeat split; [constructor | by constructor].
  - rewrite remaining_S, elem_of_peel. intros (Hv & p & Hp%elem_of_preds & Hpin).
    destruct (IH p Hpin) as (l & Hw & Hlen & Hall). exists (p :: l).
    split; [by constructor |]. split; [simpl; lia |].
    constructor; [by eapply remaining_nodes | done].
Qed.

Lemma upwalk_app_r G l1 l2 : upwalk G (l1 ++ l2) → l2 ≠ [] → upwalk G l2.
Proof.
  induction l1 as [|v l1 IH]; [done |]. intros Hw Hne. apply IH; [|done].
  destruct l1 as [|p l1]; simpl in *.
  - destruct l2 as [|p l2]; [done |]. by inversion Hw.
  - by inversion Hw.
Qed.

Lemma upwalk_app_l G l1 l2 : upwalk G (l1 ++ l2) → l1 ≠ [] → upwalk G l1.
Proof.
  induction l1 as [|v l1 IH]; [done |]. intros Hw _.
  destruct l1 as [|p l1]; [constructor |]. simpl in *.
  inversion Hw; subst. constructor; [done | by apply IH].
Qed.

Lemma upwalk_reach G v l w :
  upwalk G (v :: l ++ [w]) → tc (edge G) w v.
Proof.
  revert v. induction l as [|p l IH]; intros v Hw; simpl in *.
  - inversion Hw; subst. by apply tc_once.
  - inversion Hw; subst. eapply tc_r; [by apply IH | done].
Qed.

Lemma not_NoDup_split (l : list string) :
  ¬ NoDup l → ∃ l1 x l2 l3, l = l1 ++ x :: l2 ++ x :: l3.
Proof.
  induction l as [|x l IH]; intros Hnd; [by destruct Hnd; constructor |].
  destruct (decide (x ∈ l)) as [Hin|Hout].
  - apply list_elem_of_split in Hin as (l2 & l3 & ->). by exists [], x, l2, l3.
  - destruct IH as (l1 & y & l2 & l3 & ->).
    + intros Hl. apply Hnd. by constructor.
    + by exists (x :: l1), y, l2, l3.
Qed.

(** [isAcyclic] answers whether the graph is free of directed cycles. *)
Lemma isAcyclic_false g : valid g → isAcyclic (_graph g) = false ↔ cyclic (_graph g).
Proof.
  intros Hg. set (G := _graph g). split.
  - intros Hac%bool_decide_eq_false.
    destruct (remaining G (length (nodes G))) as [|v R] eqn:HR; [done |].
    destruct (remaining_upwalk G (length (nodes G)) v) as (l & Hw & Hlen & Hall).
    { rewrite HR. left. }
    destruct (not_NoDup_split (v :: l)) as (l1 & x & l2 & l3 & Heq).
    { intros Hnd. assert (length (v :: l) ≤ length (nodes G)) as Hle.
      { apply submseteq_length, NoDup_submseteq; [done |].
        intros w Hin. rewrite Forall_forall in Hall. by apply Hall. }
      simpl in Hle. lia. }
    exists x. rewrite Heq in Hw. apply upwalk_app_r in Hw; [|done].
    apply (upwalk_reach G x l2 x), (upwalk_app_l G _ l3); [|done].
    replace ((x :: l2 ++ [x]) ++ l3) with (x :: l2 ++ x :: l3); [done |].
    simpl. by rewrite <-app_assoc.
  - intros (v & Hv). apply not_true_is_false. intros Hac.
    eapply isAcyclic_left; [done | done |]. by apply cycle_remaining.
Qed.

Lemma isAcyclic_spec g : valid g → isAcyclic (_graph g) = true ↔ ¬ cyclic (_graph g).
Proof.
  intros Hg. rewrite <-(isAcyclic_false g Hg). by destruct (isAcyclic (_graph g)).
Qed.

End Acyclic.

(** ** Upward paths *)

Lemma Forall_exists_Forall2 {A B} (P : A → B → Prop) l :
  Forall (λ a, ∃ b, P a b) l → ∃ bs, Forall2 P l bs.
Proof.
  induction 1 as [|a l [b Hb] _ [bs Hbs]]; [by exists [] |].
  exists (b :: bs). by constructor.
Qed.

Lemma length_concat_fmap_fmap {A B} (f : A → B) (pss : list (list A)) :
  length (concat ((λ ps : list A, f <$> ps) <$> pss)) = length (concat pss).
Proof.
  induction pss as [|ps pss IH]; simpl; [done |].
  rewrite !length_app, length_fmap. by f_equal.
Qed.

Section Paths.
Context `{Externals}.
Implicit Types (g : DepGraphImpl) (G : Graph) (v w : string).

(** Induction on the derivation of [UpPaths], with the hypothesis for
    every parent. *)
Lemma UpPaths_induction g (P : string → list Path → Prop) :
  (∀ v, is_Some (node (_graph g) v) → preds (_graph g) v = [] → P v [[pkgOfNode g v]]) →
  (∀ v pss, is_Some (node (_graph g) v) → preds (_graph g) v ≠ [] →
            Forall2 (UpPaths g) (preds (_graph g) v) pss →
            Forall2 P (preds (_graph g) v) pss →
            P v (concat ((λ ps : list Path, cons (pkgOfNode g v) <$> ps) <$> pss))) →
  ∀ v ps, UpPaths g v ps → P v ps.
Proof.
  intros Htop Hvia. fix IH 3. intros v ps [v' Hn Hp | v' pss Hn Hp Hall].
  - by apply Htop.
  - apply Hvia; [done | done | done |].
    clear Hp. revert Hall. generalize (preds (_graph g) v'). revert pss.
    fix IHl 3. intros pss l [|p ps' l' pss' Hp Hrest].
    + constructor.
    + constructor; [by apply IH | by apply IHl].
Qed.

(** A node has one list of upward paths. *)
Lemma UpPaths_functional g v ps ps' : UpPaths g v ps → UpPaths g v ps' → ps = ps'.
Proof.
  intros Hps. revert ps'. revert v ps Hps.
  apply (UpPaths_induction g (λ v ps, ∀ ps', UpPaths g v ps' → ps = ps')).
  - intros v Hn Hp ps' Hps'.
    inversion Hps' as [|? pss' _ Hne]; subst; [done | by destruct Hne].
  - intros v pss Hn Hp Hall IH ps' Hps'.
    inversion Hps' as [? _ Hnil | ? pss' _ _ Hall']; subst; [by destruct Hp |].
    do 2 f_equal. clear Hp Hps' Hall. revert pss' Hall'.
    induction IH as [|p ps l pss1 Hp _ IHl]; intros pss' Hall'.
    + by inversion Hall'.
    + inversion Hall' as [|? ps2 ? pss2 Hp2 Hrest]; subst.
      f_equal; [by apply Hp | by apply IHl].
Qed.

Lemma getNodeParentsNodeIds_Ok g v :
  v ∈ nodes (_graph g) → getNodeParentsNodeIds g v = Ok (preds (_graph g) v).
Proof.
  intros [n Hn]%node_is_Some. unfold getNodeParentsNodeIds, predecessors. by rewrite Hn.
Qed.

Lemma getNodeParentsNodeIds_inv g v l :
  getNodeParentsNodeIds g v = Ok l → v ∈ nodes (_graph g) ∧ l = preds (_graph g) v.
Proof.
  unfold getNodeParentsNodeIds, predecessors.
  destruct (node (_graph g) v) eqn:Hn; [|done]. intros [= <-].
  split; [apply node_is_Some; eauto | done].
Qed.

Lemma prepend_pkg_Ok g v (paths : list Path) :
  v ∈ nodes (_graph g) →
  forM (λ path, let* pkg := getNodePkg g v in Ok (pkg :: path)) paths
  = Ok (cons (pkgOfNode g v) <$> paths).
Proof.
  intros [n Hn]%node_is_Some. apply forM_total, Forall_forall. intros path _.
  by rewrite (getNodePkg_Ok _ _ _ Hn).
Qed.

(** What [pathsFromNodeToRoot] returns is the list of upward paths. *)
Lemma pathsFromNodeToRoot_sound g fuel v ps :
  pathsFromNodeToRoot fuel g v = Ok ps → UpPaths g v ps.
Proof.
  revert v ps. induction fuel as [|fuel IH]; intros v ps; simpl; [done |].
  intros (parents & [Hv ->]%getNodeParentsNodeIds_inv & Hps)%obind_Ok.
  pose proof Hv as Hn%node_is_Some.
  destruct (preds (_graph g) v) as [|p l] eqn:Hp.
  - destruct Hn as [n Hn]. rewrite (getNodePkg_Ok _ _ _ Hn) in Hps.
    injection Hps as <-. by constructor.
  - rewrite <-Hp in *. apply obind_Ok in Hps as (outs & Houts%forM_Ok & [= <-]).
    assert (∃ pss, Forall2 (UpPaths g) (preds (_graph g) v) pss ∧
                   outs = (λ ps : list Path, cons (pkgOfNode g v) <$> ps) <$> pss)
      as (pss & Hpss & ->).
    { clear Hp. induction Houts as [|q out l' outs' Hq _ IHl].
      - exists []. by split; [constructor |].
      - destruct IHl as (pss & Hpss & ->).
        apply obind_Ok in Hq as (paths & Hpaths%IH & Hout).
        rewrite (prepend_pkg_Ok _ _ _ Hv) in Hout. injection Hout as <-.
        exists (paths :: pss). by split; [constructor |]. }
    apply UpPaths_via; [done | by rewrite Hp | done].
Qed.

(** On a node that has left after [fuel] rounds of [isAcyclic],
    [pathsFromNodeToRoot] returns. *)
Lemma pathsFromNodeToRoot_total g fuel v :
  valid g → v ∈ nodes (_graph g) → v ∉ remaining (_graph g) fuel →
  ∃ ps, pathsFromNodeToRoot fuel g v = Ok ps.
Proof.
  intros Hg. revert v. induction fuel as [|fuel IH]; intros v Hv Hout; [done |].
  simpl. rewrite (getNodeParentsNodeIds_Ok _ _ Hv); simpl.
  destruct (preds (_graph g) v) as [|p l] eqn:Hp.
  - destruct (proj2 (node_is_Some _ _) Hv) as [n Hn].
    rewrite (getNodePkg_Ok _ _ _ Hn). eauto.
  - rewrite <-Hp.
    assert (Forall (λ p, ∃ ps, pathsFromNodeToRoot fuel g p = Ok ps) (preds (_graph g) v))
      as [pss Hpss]%Forall_exists_Forall2.
    { apply Forall_forall. intros q Hq. apply IH.
      - apply elem_of_preds in Hq. by apply (valid_edge_nodes _ _ _ Hg) in Hq as [? _].
      - by eapply preds_left. }
    exists (concat ((λ ps : list Path, cons (pkgOfNode g v) <$> ps) <$> pss)).
    apply obind_Ok. eexists. split; [|done]. apply forM_Ok.
    apply Forall2_fmap_r. eapply Forall2_impl; [exact Hpss |].
    intros q ps Hq. simpl. rewrite Hq; simpl. by apply prepend_pkg_Ok.
Qed.

(** ** [hasCycles] *)

Lemma hasCycles_memo g st :
  memo_ok g st →
  (hasCycles g st).1 = negb (isAcyclic (_graph g)) ∧
  memo_ok g (hasCycles g st).2 ∧
  _countNodePathsToRootCache (hasCycles g st).2 = _countNodePathsToRootCache st.
Proof.
  intros Hst. unfold hasCycles. destruct (_hasCycles st) as [b|] eqn:Hb; simpl.
  - split; [by apply Hst | done].
  - split; [done |]. split; [|done]. intros b; simpl. by intros [= <-].
Qed.

Lemma memo_ok_noCaches g : memo_ok g noCaches.
Proof. by intros b. Qed.

End Paths.

(** ** [Array.prototype.sort] *)

Lemma Sorted_weaken {A} (R R' : relation A) l :
  (∀ a b, R a b → R' a b) → Sorted R l → Sorted R' l.
Proof.
  intros HR. induction 1 as [|x l _ IH Hhd]; constructor; [done |].
  destruct Hhd; constructor; auto.
Qed.

Section SortProperties.
Context {A : Type} (cmp : A → A → Z).

Lemma sort_insert_perm x l : sort_insert cmp x l ≡ₚ x :: l.
Proof.
  induction l as [|y l IH]; simpl; [done |].
  destruct (cmp x y <=? 0)%Z; [done |]. by rewrite IH, Permutation_swap.
Qed.

Lemma js_sort_perm l : js_sort cmp l ≡ₚ l.
Proof.
  induction l as [|x l IH]; simpl; [done |]. by rewrite sort_insert_perm, IH.
Qed.


(** With a comparator that orders any two elements one way or the other,
    the result is in order. *)
Lemma sort_insert_sorted x l :
  (∀ a b, (cmp a b <= 0)%Z ∨ (cmp b a <= 0)%Z) →
  Sorted (λ a b, (cmp a b <= 0)%Z) l →
  Sorted (λ a b, (cmp a b <= 0)%Z) (sort_insert cmp x l).
Proof.
  intros Htotal. induction 1 as [|y l Hl IH Hhd]; simpl; [by repeat constructor |].
  destruct (Z.leb_spec (cmp x y) 0) as [Hxy|Hxy].
  - constructor; [by constructor | by constructor].
  - constructor; [done |]. destruct Hhd as [|z l Hyz]; simpl.
    + constructor. destruct (Htotal x y); [lia | done].
    + destruct (cmp x z <=? 0)%Z; constructor; [|done].
      destruct (Htotal x y); [lia | done].
Qed.

Lemma js_sort_sorted l :
  (∀ a b, (cmp a b <= 0)%Z ∨ (cmp b a <= 0)%Z) →
  Sorted (λ a b, (cmp a b <= 0)%Z) (js_sort cmp l).
Proof.
  intros Htotal. induction l as [|x l IH]; simpl; [constructor |].
  by apply sort_insert_sorted.
Qed.

(** The sort is stable: elements that the comparator never puts apart
    keep their order. *)
Lemma js_sort_stable {K} `{EqDecision K} (key : A → K) (k : K) l :
  (∀ a b, (0 < cmp a b)%Z → key a ≠ key b) →
  filter (λ a, key a = k) (js_sort cmp l) = filter (λ a, key a = k) l.
Proof.
  intros Hkey. induction l as [|x l IH]; simpl; [done |].
  rewrite filter_cons, <-IH. generalize (js_sort cmp l) as s. clear IH.
  induction s as [|y s IHs]; simpl; [by rewrite filter_cons |].
  destruct (Z.leb_spec (cmp x y) 0) as [Hxy|Hxy]; [by rewrite !filter_cons |].
  rewrite filter_cons, IHs, filter_cons. apply Hkey in Hxy.
  repeat case_decide; congruence.
Qed.
End SortProperties.

Section PathsToRoot.
Context `{Externals}.
Implicit Types (g : DepGraphImpl) (G : Graph) (v w : string).

Lemma byLength_le (a b : Path) : (byLength a b <= 0)%Z ↔ shorter a b.
Proof. unfold byLength, shorter. lia. Qed.

Lemma js_sort_byLength_sorted (l : list Path) : Sorted shorter (js_sort byLength l).
Proof.
  eapply Sorted_weaken; [|apply js_sort_sorted].
  - intros a b. apply byLength_le.
  - intros a b. unfold byLength. lia.
Qed.

Lemma js_sort_byLength_stable (l : list Path) n :
  filter (λ path, length path = n) (js_sort byLength l)
  = filter (λ path, length path = n) l.
Proof. apply (js_sort_stable byLength length). unfold byLength. lia. Qed.

Lemma pathsFromNodeToRoot_errors g fuel v e :
  pathsFromNodeToRoot fuel g v = Throw e → ∃ w, e = NoSuchNode w.
Proof.
  revert v. induction fuel as [|fuel IH]; intros v; simpl; [done |].
  unfold getNodeParentsNodeIds, predecessors.
  destruct (node (_graph g) v) as [n|] eqn:Hn; simpl; [|intros [= <-]; eauto].
  destruct (preds (_graph g) v) as [|p l].
  - by rewrite (getNodePkg_Ok _ _ _ Hn).
  - generalize (p :: l) as parents. intros parents.
    destruct (forM _ parents) as [outs|e'|] eqn:Hout; simpl; [done | |done].
    intros [= ->]. apply forM_Throw in Hout as (q & _ & Hq).
    destruct (pathsFromNodeToRoot fuel g q) as [paths|e'|] eqn:Hpaths; simpl in Hq;
      [|injection Hq as ->; by eapply IH | done].
    rewrite prepend_pkg_Ok in Hq; [done |]. apply node_is_Some; eauto.
Qed.

Lemma getPkgNodeIds_registered g pkg p :
  valid g → assoc (getPkgId pkg) (_pkgs g) = Some p →
  ∃ ids, getPkgNodeIds g pkg = Ok ids ∧ NoDup ids ∧
         ∀ v, v ∈ ids ↔ ∃ n, node (_graph g) v = Some n ∧ pkgId n = getPkgId pkg.
Proof.
  intros Hg Hp. destruct (getPkgNodes_registered g pkg p Hg Hp) as (ids & ? & _ & _ & ? & ?).
  by exists ids.
Qed.

(** On an acyclic valid graph and a registered package, [pkgPathsToRoot]
    returns the sorted concatenation of the upward paths of the nodes that
    the occurrence index has for the package. *)
Lemma pkgPathsToRoot_Ok g st pkg p fuel :
  valid g → memo_ok g st → (hasCycles g st).1 = false →
  assoc (getPkgId pkg) (_pkgs g) = Some p →
  length (nodes (_graph g)) ≤ fuel →
  ∃ ids pss,
    getPkgNodeIds g pkg = Ok ids ∧ NoDup ids ∧
    (∀ v, v ∈ ids ↔ ∃ n, node (_graph g) v = Some n ∧ pkgId n = getPkgId pkg) ∧
    Forall2 (UpPaths g) ids pss ∧
    (pkgPathsToRoot fuel g pkg st).1 = Ok (js_sort byLength (concat pss)).
Proof.
  intros Hg Hst Hcyc Hp Hfuel.
  destruct (hasCycles_memo g st Hst) as (Hflag & _ & _).
  rewrite Hcyc in Hflag. symmetry in Hflag. apply negb_false_iff in Hflag.
  destruct (getPkgNodeIds_registered g pkg p Hg Hp) as (ids & Hids & Hnd & Hocc).
  assert (Forall (λ v, ∃ ps, pathsFromNodeToRoot fuel g v = Ok ps) ids)
    as [pss Hpss]%Forall_exists_Forall2.
  { apply Forall_forall. intros v (n & Hn & _)%Hocc.
    apply pathsFromNodeToRoot_total; [done | apply node_is_Some; eauto |].
    by apply isAcyclic_left. }
  exists ids, pss.
  split; [done |]. split; [done |]. split; [done |]. split.
  { eapply Forall2_impl; [exact Hpss |]. intros v ps. apply pathsFromNodeToRoot_sound. }
  unfold pkgPathsToRoot. destruct (hasCycles g st) as [cyclic st']. simpl in Hcyc.
  subst cyclic. simpl. rewrite Hids; simpl.
  apply forM_Ok in Hpss. by rewrite Hpss.
Qed.

(** C2. On an acyclic valid graph and a registered package,
    [pkgPathsToRoot] returns the upward paths of every node of the package,
    concatenated in the order of the occurrence index and then sorted by
    length, shorter paths first; no path is dropped or merged, and paths of
    one length keep their order. *)
Theorem pkgPathsToRoot_spec g st pkg p fuel :
  valid g → memo_ok g st → (hasCycles g st).1 = false →
  assoc (getPkgId pkg) (_pkgs g) = Some p →
  length (nodes (_graph g)) ≤ fuel →
  ∃ ids pss paths,
    getPkgNodeIds g pkg = Ok ids ∧ NoDup ids ∧
    (∀ v, v ∈ ids ↔ ∃ n, node (_graph g) v = Some n ∧ pkgId n = getPkgId pkg) ∧
    Forall2 (UpPaths g) ids pss ∧
    (pkgPathsToRoot fuel g pkg st).1 = Ok paths ∧
    paths = js_sort byLength (concat pss) ∧
    paths ≡ₚ concat pss ∧
    Sorted shorter paths ∧
    ∀ n, filter (λ path, length path = n) paths
         = filter (λ path, length path = n) (concat pss).
Proof.
  intros Hg Hst Hcyc Hp Hfuel.
  destruct (pkgPathsToRoot_Ok g st pkg p fuel Hg Hst Hcyc Hp Hfuel)
    as (ids & pss & Hids & Hnd & Hocc & Hpss & Hpaths).
  exists ids, pss, (js_sort byLength (concat pss)).
  repeat (split; [done |]). split; [apply js_sort_perm |].
  split; [apply js_sort_byLength_sorted | intros n; apply js_sort_byLength_stable].
Qed.

End PathsToRoot.

(** ** Counting the paths *)

Section Counting.
Context `{Externals}.
Implicit Types (g : DepGraphImpl) (G : Graph) (v w : string).
Implicit Types (cache : gmap string number).

Lemma orZero_id c : orZero c = c.
Proof. by destruct c as [[|n]|]. Qed.

(** Up to [2 ^ 53] every integer is a double: nothing is rounded. *)
Lemma roundDouble_exact n : (n ≤ exactUpTo)%N → roundDouble n = n.
Proof.
  unfold exactUpTo, roundDouble. intros Hn.
  destruct (N.leb_spec (N.size n) 53) as [|Hsize]; [done |].
  assert (n = 2 ^ 53)%N as ->; [|by vm_compute].
  assert (2 ^ 54 ≤ 2 ^ N.size n)%N as Hpow by (apply N.pow_le_mono_r; lia).
  pose proof (N.size_le n) as Hle. rewrite N.succ_double_spec in Hle.
  change (2 ^ 54)%N with 18014398509481984%N in Hpow.
  change (2 ^ 53)%N with 9007199254740992%N in *. lia.
Qed.

Lemma addNumbers_exact x y :
  (x + y ≤ exactUpTo)%N → addNumbers (Finite x) (Finite y) = Finite (x + y).
Proof.
  intros Hsum. unfold addNumbers. rewrite (roundDouble_exact _ Hsum).
  destruct (N.leb_spec (2 ^ 1024) (x + y)) as [Hbig|]; [|done].
  assert (2 ^ 53 < 2 ^ 1024)%N by (apply N.pow_lt_mono_r; lia).
  unfold exactUpTo in Hsum. lia.
Qed.

Lemma cache_ok_empty g : cache_ok g ∅.
Proof. intros v c. by rewrite lookup_empty. Qed.

Lemma cache_ok_insert g cache v c :
  cache_ok g cache → Counted g v c → cache_ok g (<[v := c]> cache).
Proof.
  intros Hok Hc w c'. destruct (decide (v = w)) as [<-|Hne].
  - rewrite lookup_insert_eq. by intros [= <-].
  - rewrite lookup_insert_ne by done. apply Hok.
Qed.

Lemma Forall2_UpPaths_functional g l pss pss' :
  Forall2 (UpPaths g) l pss → Forall2 (UpPaths g) l pss' → pss = pss'.
Proof.
  intros Hpss. revert pss'. induction Hpss as [|v ps l pss Hv _ IH]; intros pss' Hpss'.
  - by inversion Hpss'.
  - inversion Hpss'; subst. f_equal; [by eapply UpPaths_functional | by apply IH].
Qed.


(** Counts that are the numbers of paths add up to the number of all the
    paths, as long as that number is at most [2 ^ 53]. *)
Lemma foldl_addNumbers_exact g (l : list string) (pss : list (list Path)) cs acc :
  Forall2 (λ v ps, ∀ c, Counted g v c →
                        (N.of_nat (length ps) ≤ exactUpTo)%N → c = lengthOf ps) l pss →
  Forall2 (Counted g) l cs →
  (acc + N.of_nat (length (concat pss)) ≤ exactUpTo)%N →
  foldl addNumbers (Finite acc) cs = Finite (acc + N.of_nat (length (concat pss))).
Proof.
  intros Hpss. revert cs acc.
  induction Hpss as [|v ps l pss Hv _ IH]; intros cs acc Hcs Hsum.
  - inversion Hcs; subst. simpl. by rewrite N.add_0_r.
  - inversion Hcs as [|? c ? cs' Hc Hcs']; subst. simpl in *.
    rewrite length_app, Nat2N.inj_add in Hsum.
    rewrite (Hv c Hc) by lia. unfold lengthOf.
    rewrite addNumbers_exact by lia. rewrite (IH cs' _ Hcs') by lia.
    f_equal. rewrite length_app, Nat2N.inj_add. lia.
Qed.

(** The count of a node is the number of its upward paths, as long as
    that number is at most [2 ^ 53]. *)
Lemma Counted_exact g v ps c :
  UpPaths g v ps → Counted g v c →
  (N.of_nat (length ps) ≤ exactUpTo)%N → c = lengthOf ps.
Proof.
  intros Hps. revert c. revert v ps Hps.
  apply (UpPaths_induction g (λ v ps, ∀ c, Counted g v c →
           (N.of_nat (length ps) ≤ exactUpTo)%N → c = lengthOf ps)).
  - intros v _ Htop c Hc _. by inversion Hc; subst.
  - intros v pss _ Hne _ IH c Hc Hsum. inversion Hc as [|? cs _ _ Hcs]; subst; [done |].
    rewrite length_concat_fmap_fmap in Hsum.
    rewrite (foldl_addNumbers_exact g _ pss cs 0%N IH Hcs) by (by rewrite N.add_0_l).
    unfold lengthOf. by rewrite length_concat_fmap_fmap, N.add_0_l.
Qed.

Lemma reduce_counts g rec l acc cache r cache' :
  counts g rec →
  reduceM (λ acc id, let+ c := rec id in sret (addNumbers acc c)) l acc cache = (r, cache') →
  cache_ok g cache →
  cache_ok g cache' ∧
  ∀ total, r = Ok total →
           ∃ cs, Forall2 (Counted g) l cs ∧ total = foldl addNumbers acc cs.
Proof.
  intros Hrec. revert acc cache. induction l as [|v l IH]; intros acc cache; simpl.
  - unfold sret. intros [= <- <-] Hok. split; [done |]. intros total [= <-].
    exists []. split; [constructor | done].
  - unfold sbind at 1. unfold sbind at 1.
    destruct (rec v cache) as [[c|e|] cache1] eqn:Hv; simpl.
    + intros Hrest Hok. destruct (Hrec _ _ _ _ Hv Hok) as [Hok1 Hc].
      specialize (Hc c eq_refl).
      destruct (IH _ _ Hrest Hok1) as [Hok' Htotal]. split; [done |].
      intros total Hr. destruct (Htotal total Hr) as (cs & Hcs & ->).
      exists (c :: cs). split; [by constructor | done].
    + intros [= <- <-] Hok. by destruct (Hrec _ _ _ _ Hv Hok).
    + intros [= <- <-] Hok. by destruct (Hrec _ _ _ _ Hv Hok).
Qed.

Lemma countNodePathsToRoot_counts g fuel : counts g (countNodePathsToRoot fuel g).
Proof.
  induction fuel as [|fuel IH]; intros v cache r cache'; simpl.
  { intros [= <- <-] Hok. by split. }
  destruct (cache !! v) as [c|] eqn:Hhit.
  { intros [= <- <-] Hok. split; [done |]. intros c' [= <-].
    rewrite orZero_id. by apply Hok. }
  unfold sbind at 1, lift. unfold getNodeParentsNodeIds, predecessors.
  destruct (node (_graph g) v) as [n|] eqn:Hn; [|intros [= <- <-] Hok; by split].
  destruct (preds (_graph g) v) as [|p l] eqn:Hp.
  - intros [= <- <-] Hok.
    assert (Counted g v (Finite 1)) as Hv by (constructor; [by rewrite Hn | done]).
    split; [by apply cache_ok_insert |]. by intros c [= <-].
  - assert (preds (_graph g) v ≠ []) as Hne by (by rewrite Hp).
    rewrite <-Hp. clear p l Hp.
    unfold sbind at 1.
    destruct (reduceM _ (preds (_graph g) v) (Finite 0) cache) as [[count|e|] cache1] eqn:Hred;
      intros [= <- <-] Hok;
      destruct (reduce_counts g _ _ _ _ _ _ IH Hred Hok) as [Hok1 Htotal]; [|done|done].
    destruct (Htotal count eq_refl) as (cs & Hcs & ->).
    assert (Counted g v (foldl addNumbers (Finite 0) cs)) as Hv
      by (constructor; [by rewrite Hn | done | done]).
    split; [by apply cache_ok_insert |]. by intros c [= <-].
Qed.

Lemma reduce_count_total rec l acc cache :
  Forall (λ v, ∀ cache, ∃ c cache', rec v cache = (Ok c, cache')) l →
  ∃ total cache',
    reduceM (λ acc id, let+ c := rec id in sret (addNumbers acc c)) l acc cache
    = (Ok total, cache').
Proof.
  intros Hl. revert acc cache. induction Hl as [|v l Hv _ IH]; intros acc cache; simpl.
  - by exists acc, cache.
  - unfold sbind at 1. unfold sbind at 1. destruct (Hv cache) as (c & cache1 & ->).
    simpl. apply IH.
Qed.

(** On a node that has left after [fuel] rounds of [isAcyclic],
    [countNodePathsToRoot] returns, whatever the table holds. *)
Lemma countNodePathsToRoot_total g fuel v cache :
  valid g → v ∈ nodes (_graph g) → v ∉ remaining (_graph g) fuel →
  ∃ c cache', countNodePathsToRoot fuel g v cache = (Ok c, cache').
Proof.
  intros Hg. revert v cache. induction fuel as [|fuel IH]; intros v cache Hv Hout; [done |].
  simpl. destruct (cache !! v) as [c|]; [eauto |].
  unfold sbind at 1, lift. rewrite (getNodeParentsNodeIds_Ok _ _ Hv).
  destruct (preds (_graph g) v) as [|p l] eqn:Hp; [eauto |].
  rewrite <-Hp. unfold sbind at 1.
  destruct (reduce_count_total (countNodePathsToRoot fuel g) (preds (_graph g) v)
              (Finite 0) cache)
    as (total & cache1 & ->); [|eauto].
  apply Forall_forall. intros q Hq cache2. apply IH.
  - apply elem_of_preds in Hq. by apply (valid_edge_nodes _ _ _ Hg) in Hq as [? _].
  - by eapply preds_left.
Qed.

Lemma reduce_count_errors rec l acc cache e cache' :
  (∀ v cache e cache', rec v cache = (Throw e, cache') → ∃ w, e = NoSuchNode w) →
  reduceM (λ acc id, let+ c := rec id in sret (addNumbers acc c)) l acc cache
  = (Throw e, cache') →
  ∃ w, e = NoSuchNode w.
Proof.
  intros Hrec. revert acc cache. induction l as [|v l IH]; intros acc cache; simpl; [done |].
  unfold sbind at 1. unfold sbind at 1.
  destruct (rec v cache) as [[c|e1|] cache1] eqn:Hv; simpl.
  - apply IH.
  - intros [= <- <-]. by eapply Hrec.
  - done.
Qed.

Lemma countNodePathsToRoot_errors g fuel v cache e cache' :
  countNodePathsToRoot fuel g v cache = (Throw e, cache') → ∃ w, e = NoSuchNode w.
Proof.
  revert v cache e cache'. induction fuel as [|fuel IH]; intros v cache e cache'; simpl;
    [done |].
  destruct (cache !! v) as [c|]; [done |].
  unfold sbind at 1, lift. unfold getNodeParentsNodeIds, predecessors.
  destruct (node (_graph g) v) as [n|]; [|intros [= <- <-]; eauto].
  destruct (preds (_graph g) v) as [|p l]; [done |].
  unfold sbind at 1.
  destruct (reduceM _ (p :: l) (Finite 0) cache) as [[count|e1|] cache1] eqn:Hred;
    [done | |done].
  intros [= <- <-]. eapply reduce_count_errors; [exact IH | exact Hred].
Qed.


(** On an acyclic valid graph and a registered package,
    [countPathsToRoot] returns the counts of the nodes of the package,
    added up, and leaves the caches fit for later queries. *)
Lemma countPathsToRoot_Ok g st pkg p fuel :
  valid g → caches_ok g st → (hasCycles g st).1 = false →
  assoc (getPkgId pkg) (_pkgs g) = Some p →
  length (nodes (_graph g)) ≤ fuel →
  ∃ ids cs st2,
    getPkgNodeIds g pkg = Ok ids ∧
    Forall2 (Counted g) ids cs ∧
    countPathsToRoot fuel g pkg st = (Ok (foldl addNumbers (Finite 0) cs), st2) ∧
    caches_ok g st2.
Proof.
  intros Hg [Hmemo Hcache] Hcyc Hp Hfuel.
  destruct (getPkgNodeIds_registered g pkg p Hg Hp) as (ids & Hids & _ & Hocc).
  destruct (hasCycles_memo g st Hmemo) as (Hflag & Hmemo2 & Hsame).
  rewrite Hcyc in Hflag. symmetry in Hflag. apply negb_false_iff in Hflag.
  exists ids. unfold countPathsToRoot.
  destruct (hasCycles g st) as [cyclic st1]. simpl in *. subst cyclic.
  rewrite Hids, Hsame.
  destruct (reduce_count_total (countNodePathsToRoot fuel g) ids (Finite 0)
              (_countNodePathsToRootCache st)) as (total & cache2 & Hred).
  { apply Forall_forall. intros v (n & Hn & _)%Hocc cache.
    apply countNodePathsToRoot_total; [done | apply node_is_Some; eauto |].
    by apply isAcyclic_left. }
  rewrite Hred.
  destruct (reduce_counts g _ _ _ _ _ _ (countNodePathsToRoot_counts g fuel) Hred Hcache)
    as [Hok2 Htotal].
  destruct (Htotal total eq_refl) as (cs & Hcs & ->).
  exists cs. eexists. split; [done |]. split; [done |]. split; [done |]. by split.
Qed.


(** C5. On a valid graph, [hasCycles] is true exactly when the graph has
    a directed cycle; then [pkgPathsToRoot] and [countPathsToRoot] throw
    their `does not support cyclic graphs yet` for every package, and
    otherwise neither throws it. *)
Theorem cyclic_graphs_unsupported g st pkg fuel :
  valid g → memo_ok g st →
  ((hasCycles g st).1 = true ↔ cyclic (_graph g)) ∧
  (cyclic (_graph g) →
     (pkgPathsToRoot fuel g pkg st).1 = Throw (CyclicUnsupported "pkgPathsToRoot") ∧
     (countPathsToRoot fuel g pkg st).1 = Throw (CyclicUnsupported "countPathsToRoot")) ∧
  (¬ cyclic (_graph g) →
     ∀ method,
       (pkgPathsToRoot fuel g pkg st).1 ≠ Throw (CyclicUnsupported method) ∧
       (countPathsToRoot fuel g pkg st).1 ≠ Throw (CyclicUnsupported method)).
Proof.
  intros Hg Hst. destruct (hasCycles_memo g st Hst) as (Hflag & _ & _).
  assert ((hasCycles g st).1 = true ↔ cyclic (_graph g)) as Hiff.
  { by rewrite Hflag, negb_true_iff, (isAcyclic_false g Hg). }
  split; [done |]. unfold pkgPathsToRoot, countPathsToRoot.
  destruct (hasCycles g st) as [b st1]; simpl in *. split.
  - intros ->%Hiff. done.
  - intros Hno method. destruct b; [by destruct Hno; apply Hiff |]. split.
    + simpl. unfold getPkgNodeIds. destruct (assoc _ (_pkgs g)); [|done].
      destruct (_pkgNodes g !! _) as [ids|]; [|done]. simpl.
      destruct (forM _ ids) as [pss|e|] eqn:Hids; [done | |done]. simpl.
      apply forM_Throw in Hids as (v & _ & [w ->]%pathsFromNodeToRoot_errors). done.
    + unfold getPkgNodeIds. destruct (assoc _ (_pkgs g)); [|done].
      destruct (_pkgNodes g !! _) as [ids|]; [|done].
      destruct (reduceM _ ids (Finite 0) _) as [[c|e|] cache] eqn:Hred; [done | |done]. simpl.
      apply reduce_count_errors in Hred as [w ->]; [done |].
      intros ? ? ? ?. apply countNodePathsToRoot_errors.
Qed.

End Counting.

(** ** Structural equality *)

Lemma length_filter_notin_mono (T T' : gset string) (l : list string) :
  T ⊆ T' → length (filter (λ k, k ∉ T') l) ≤ length (filter (λ k, k ∉ T) l).
Proof.
  intros Hsub. induction l as [|k l IH]; [done |].
  rewrite !filter_cons. repeat case_decide; simpl; try lia. set_solver.
Qed.

Lemma length_filter_notin_insert (T : gset string) (l : list string) k :
  k ∈ l → k ∉ T →
  length (filter (λ k', k' ∉ {[k]} ∪ T) l) < length (filter (λ k', k' ∉ T) l).
Proof.
  intros Hin Hk. induction l as [|k' l IH]; [by apply elem_of_nil in Hin |].
  rewrite !filter_cons. apply elem_of_cons in Hin as [<-|Hin].
  - rewrite decide_False by set_solver. rewrite decide_True by done. simpl.
    pose proof (length_filter_notin_mono T ({[k]} ∪ T) l). apply Nat.lt_succ_r.
    apply H. set_solver.
  - specialize (IH Hin). repeat case_decide; simpl; try lia. set_solver.
Qed.

Section Equality.
Context `{Externals}.
Implicit Types (g gA gB : DepGraphImpl) (G : Graph) (v w a b : string).
Implicit Types (T : gset string).

Lemma pairKey_allKeys gA gB a b :
  a ∈ nodes (_graph gA) → b ∈ nodes (_graph gB) → pairKey a b ∈ allKeys gA gB.
Proof.
  intros Ha Hb. unfold allKeys. apply list_elem_of_fmap. exists (a, b).
  split; [done |]. apply list_elem_of_In, in_prod_iff. by rewrite <-!list_elem_of_In.
Qed.

Lemma unvisited_mono gA gB T T' : T ⊆ T' → unvisited gA gB T' ≤ unvisited gA gB T.
Proof. apply length_filter_notin_mono. Qed.

Lemma unvisited_insert gA gB T a b :
  a ∈ nodes (_graph gA) → b ∈ nodes (_graph gB) → pairKey a b ∉ T →
  unvisited gA gB ({[pairKey a b]} ∪ T) < unvisited gA gB T.
Proof. intros Ha Hb. apply length_filter_notin_insert. by apply pairKey_allKeys. Qed.

Lemma unvisited_empty gA gB :
  unvisited gA gB ∅ ≤ length (nodes (_graph gA)) * length (nodes (_graph gB)).
Proof.
  unfold unvisited, allKeys. etrans; [apply length_filter |].
  by rewrite length_fmap, length_prod.
Qed.

(** *** The statements before the loop *)

Lemma n_id_viewOf g (l : list string) : n_id <$> (viewOf g <$> l) = l.
Proof. rewrite <-list_fmap_compose. by rewrite <-(list_fmap_id l) at 2. Qed.

Lemma valid_pkgOfNode g v : valid g → v ∈ nodes (_graph g) → is_Some (pkgOfNode g v).
Proof.
  intros Hg [n Hn]%node_is_Some. unfold pkgOfNode. rewrite Hn. simpl.
  by eapply valid_node_registered.
Qed.

Lemma compareNodes_Ok gA a gB b :
  a ∈ nodes (_graph gA) → b ∈ nodes (_graph gB) →
  compareNodes gA a gB b = Ok (sameNode gA a gB b).
Proof.
  intros Ha Hb. unfold compareNodes, sameNode.
  rewrite (getNode_Ok _ _ Ha), (getNode_Ok _ _ Hb); simpl.
  destruct (isEqualPkg _ _); simpl; [|done].
  by destruct (isEqualNodeInfo _ _).
Qed.

Lemma depPkgId_Ok g v p :
  v ∈ nodes (_graph g) → pkgOfNode g v = Some p → depPkgId g v = Ok (getPkgId p).
Proof.
  intros Hv Hp. unfold depPkgId. rewrite (getNode_Ok _ _ Hv); simpl. by rewrite Hp.
Qed.

(** The key of the comparator is the PackageId of the node's package,
    which is the node's [pkgId]. *)
Lemma depKey_valid g v :
  valid g → v ∈ nodes (_graph g) →
  ∃ n p, node (_graph g) v = Some n ∧ assoc (pkgId n) (_pkgs g) = Some p ∧
         depKey g v = getPkgId p ∧ getPkgId p = pkgId n.
Proof.
  intros Hg Hv. pose proof Hv as [n Hn]%node_is_Some.
  destruct (valid_node_registered g v n Hg Hn) as [p Hp]. exists n, p.
  split; [done |]. split; [done |].
  assert (pkgOfNode g v = Some p) as Hpkg by (unfold pkgOfNode; by rewrite Hn).
  unfold depKey. rewrite (depPkgId_Ok _ _ _ Hv Hpkg). split; [done |].
  pose proof (valid_pkg_ids g Hg) as Hids. rewrite Forall_forall in Hids.
  apply (Hids (pkgId n, p)). by apply assoc_Some_elem.
Qed.

Lemma sortDeps_Ok g deps :
  valid g → Forall (λ v, v ∈ nodes (_graph g)) deps →
  sortDeps g deps = Ok (js_sort (sortFn g) deps).
Proof.
  intros Hg Hdeps. unfold sortDeps. destruct deps as [|v [|w deps]]; [done | done |].
  generalize dependent (v :: w :: deps). intros l Hl.
  rewrite (forM_total _ (depKey g)); [done |].
  eapply Forall_impl; [exact Hl |]. intros u Hu. simpl in Hu.
  destruct (valid_pkgOfNode g u Hg Hu) as [p Hp].
  unfold depKey. by rewrite (depPkgId_Ok _ _ _ Hu Hp).
Qed.

Lemma valid_sucs_nodes g v : valid g → Forall (λ w, w ∈ nodes (_graph g)) (sucs (_graph g) v).
Proof.
  intros Hg. apply Forall_forall. intros w Hw%elem_of_sucs.
  by apply (valid_edge_nodes _ _ _ Hg) in Hw as [_ ?].
Qed.

Lemma pairDeps_Ok gA a gB b :
  valid gA → valid gB → a ∈ nodes (_graph gA) → b ∈ nodes (_graph gB) →
  pairDeps gA a gB b =
    Ok (if negb (Nat.eqb (length (sucs (_graph gA) a)) (length (sucs (_graph gB) b)))
        then None
        else Some (zip (js_sort (sortFn gA) (sucs (_graph gA) a))
                       (js_sort (sortFn gB) (sucs (_graph gB) b)))).
Proof.
  intros HA HB Ha Hb. unfold pairDeps.
  rewrite (getNodeDeps_Ok _ _ HA Ha), (getNodeDeps_Ok _ _ HB Hb); simpl.
  rewrite !n_id_viewOf. destruct (negb _); [done |].
  rewrite (sortDeps_Ok _ _ HA (valid_sucs_nodes gA a HA)).
  by rewrite (sortDeps_Ok _ _ HB (valid_sucs_nodes gB b HB)).
Qed.

(** *** Termination *)

Lemma equals_Native g (other : DepGraphImpl) compareRoot fuel :
  equals fuel g other compareRoot
  = (nodeEquals fuel g (_rootNodeId g) other (_rootNodeId other) compareRoot ∅).1.
Proof. done. Qed.

Lemma eachPair_total gA gB rec pairs T fuel :
  (∀ a b T, a ∈ nodes (_graph gA) → b ∈ nodes (_graph gB) →
            unvisited gA gB T < fuel →
            ∃ r T', rec a b T = (Ok r, T') ∧ T ⊆ T') →
  Forall (λ ab, ab.1 ∈ nodes (_graph gA) ∧ ab.2 ∈ nodes (_graph gB)) pairs →
  unvisited gA gB T ≤ fuel →
  ∃ r T', eachPair rec pairs T = (Ok r, T') ∧ T ⊆ T'.
Proof.
  intros Hrec Hpairs. revert T. induction Hpairs as [|[a b] pairs [Ha Hb] _ IH];
    intros T HT; simpl in *.
  - by exists true, T.
  - case_decide as Hkey; [by apply IH |].
    pose proof (unvisited_insert gA gB T a b Ha Hb Hkey) as Hless.
    destruct (Hrec a b ({[pairKey a b]} ∪ T) Ha Hb) as (r & T1 & -> & Hsub); [lia |].
    destruct r.
    + destruct (IH T1) as (r & T2 & -> & Hsub2).
      { pose proof (unvisited_mono gA gB _ _ Hsub). lia. }
      exists r, T2. split; [done | set_solver].
    + exists false, T1. split; [done | set_solver].
Qed.

(** With more fuel than keys left to visit, [nodeEquals] returns a
    boolean. *)
Lemma nodeEquals_total gA gB compareRoot fuel a b T :
  valid gA → valid gB →
  a ∈ nodes (_graph gA) → b ∈ nodes (_graph gB) →
  unvisited gA gB T < fuel →
  ∃ r T', nodeEquals fuel gA a gB b compareRoot T = (Ok r, T') ∧ T ⊆ T'.
Proof.
  intros HA HB. revert a b T. induction fuel as [|fuel IH]; intros a b T Ha Hb HT; [lia |].
  simpl. unfold sbind at 1, lift.
  assert (∃ same, (if comparesNodes gA a gB b compareRoot
                   then compareNodes gA a gB b else Ok true) = Ok same) as [same ->].
  { destruct (comparesNodes _ _ _ _ _); [|eauto]. rewrite compareNodes_Ok; eauto. }
  destruct same; simpl; [|by exists false, T].
  unfold sbind at 1. rewrite (pairDeps_Ok _ _ _ _ HA HB Ha Hb).
  destruct (negb _); [by exists false, T |].
  apply (eachPair_total gA gB _ _ _ fuel); [|  | lia].
  - intros a' b' T' Ha' Hb' HT'. by apply IH.
  - apply Forall_forall. intros [x y] Hxy. simpl. split.
    + apply elem_of_zip_l in Hxy. rewrite js_sort_perm in Hxy.
      pose proof (valid_sucs_nodes gA a HA) as Hs. rewrite Forall_forall in Hs. auto.
    + apply elem_of_zip_r in Hxy. rewrite js_sort_perm in Hxy.
      pose proof (valid_sucs_nodes gB b HB) as Hs. rewrite Forall_forall in Hs. auto.
Qed.

End Equality.

Lemma js_sort_ext {A} (cmp cmp' : A → A → Z) l :
  (∀ x y, x ∈ l → y ∈ l → cmp x y = cmp' x y) → js_sort cmp l = js_sort cmp' l.
Proof.
  induction l as [|x l IH]; intros Hcmp; simpl; [done |].
  rewrite <-IH by (intros; apply Hcmp; by right).
  assert (∀ y, y ∈ js_sort cmp l → cmp x y = cmp' x y) as Hx.
  { intros y Hy. rewrite js_sort_perm in Hy. apply Hcmp; [left | by right]. }
  revert Hx. generalize (js_sort cmp l). intros s Hs.
  induction s as [|y s IHs]; simpl; [done |].
  rewrite <-(Hs y) by left. rewrite IHs; [done |]. intros; apply Hs; by right.
Qed.

Section Pairing.
Context `{Externals}.
Implicit Types (g gA gB : DepGraphImpl) (G : Graph) (v w a b : string).
Implicit Types (T : gset string).

(** *** The pairing of the dependencies *)

Lemma nodeEquals_S gA gB fuel a b compareRoot T :
  nodeEquals (S fuel) gA a gB b compareRoot T =
  match (if comparesNodes gA a gB b compareRoot
         then compareNodes gA a gB b else Ok true) with
  | Ok true =>
      match pairDeps gA a gB b with
      | Ok (Some pairs) =>
          eachPair (λ x y, nodeEquals fuel gA x gB y compareRoot) pairs T
      | Ok None => (Ok false, T)
      | Throw e => (Throw e, T)
      | OutOfFuel => (OutOfFuel, T)
      end
  | Ok false => (Ok false, T)
  | Throw e => (Throw e, T)
  | OutOfFuel => (OutOfFuel, T)
  end.
Proof.
  cbn [nodeEquals]. unfold sbind, lift, sret.
  destruct (if comparesNodes gA a gB b compareRoot then _ else _) as [[]| |]; try done.
  simpl. by destruct (pairDeps gA a gB b) as [[]| |].
Qed.


Lemma js_sort_sortedByPkgId g deps :
  valid g →
  (∀ x y, (localeCompare x y <= 0)%Z ∨ (localeCompare y x <= 0)%Z) →
  Forall (λ v, v ∈ nodes (_graph g)) deps →
  sortedByPkgId g deps (js_sort (sortFn g) deps).
Proof.
  intros Hg Htotal Hdeps. split; [apply js_sort_perm |]. split; [|split].
  - apply (js_sort_sorted (sortFn g)). intros x y. apply Htotal.
  - intros k. apply (js_sort_stable (sortFn g) (depKey g)).
    intros x y Hxy Heq. unfold sortFn in Hxy. rewrite Heq in Hxy.
    destruct (Htotal (depKey g y) (depKey g y)); lia.
  - eapply Forall_impl; [exact Hdeps |]. intros v Hv. simpl in Hv.
    destruct (depKey_valid g v Hg Hv) as (n & p & -> & _ & -> & ->). done.
Qed.

(** The loop of [nodeEquals] is the loop of the specification. *)
Lemma eachPair_Pairwise rec (pairs : list (string * string)) T :
  Pairwise rec pairs T (eachPair rec pairs T).
Proof.
  revert T. induction pairs as [|[x y] pairs IH]; intros T; simpl.
  - constructor.
  - case_decide as Hkey; [by apply Pairwise_traversed |].
    destruct (rec x y ({[pairKey x y]} ∪ T)) as [r T1] eqn:Hxy.
    destruct r as [[]| |];
      [by eapply Pairwise_equal | by apply Pairwise_differ; rewrite ?Hxy ..].
Qed.

(** The loop of the specification has one result. *)
Lemma Pairwise_functional rec (pairs : list (string * string)) T r r' :
  Pairwise rec pairs T r → Pairwise rec pairs T r' → r = r'.
Proof.
  intros Hr. revert r'.
  induction Hr as [T | x y rest T r Hkey _ IH | x y rest T T1 r Hkey Hxy _ IH
                   | x y rest T r Hkey Hxy Hne]; intros r' Hr'.
  - by inversion Hr'.
  - inversion Hr'; subst; [by apply IH | done..].
  - inversion Hr' as [| | ? ? ? ? T1' ? _ Hxy' Hrest | ? ? ? ? ? _ Hxy' Hne']; subst;
      [done | |].
    + rewrite Hxy in Hxy'. injection Hxy' as <-. by apply IH.
    + rewrite Hxy in Hne'. done.
  - inversion Hr' as [| | ? ? ? ? T1' ? _ Hxy' Hrest |]; subst; [done | | done].
    rewrite Hxy' in Hne. done.
Qed.

(** C4. In a call of [nodeEquals] on two nodes of valid instances that
    passes the comparison of the two nodes, or skips it: when the numbers
    of dependencies differ, the call returns false; otherwise each side's
    dependencies are sorted by [localeCompare] on their PackageIds,
    dependencies of one PackageId keeping their order, and the call walks
    the two sorted lists pairwise, calling [nodeEquals] on each pair whose
    key is new, until a call does not return true. *)
Theorem nodeEquals_pairs_sorted_deps gA gB a b compareRoot fuel T :
  valid gA → valid gB →
  (∀ x y, (localeCompare x y <= 0)%Z ∨ (localeCompare y x <= 0)%Z) →
  a ∈ nodes (_graph gA) → b ∈ nodes (_graph gB) →
  (comparesNodes gA a gB b compareRoot = true → sameNode gA a gB b = true) →
  (length (sucs (_graph gA) a) ≠ length (sucs (_graph gB) b) →
     nodeEquals (S fuel) gA a gB b compareRoot T = (Ok false, T)) ∧
  ∃ depsA depsB,
    sortDeps gA (sucs (_graph gA) a) = Ok depsA ∧
    sortDeps gB (sucs (_graph gB) b) = Ok depsB ∧
    sortedByPkgId gA (sucs (_graph gA) a) depsA ∧
    sortedByPkgId gB (sucs (_graph gB) b) depsB ∧
    (length (sucs (_graph gA) a) = length (sucs (_graph gB) b) →
       Pairwise (λ x y, nodeEquals fuel gA x gB y compareRoot) (zip depsA depsB) T
                (nodeEquals (S fuel) gA a gB b compareRoot T)).
Proof.
  intros HA HB Htotal Ha Hb Hsame.
  assert ((if comparesNodes gA a gB b compareRoot
           then compareNodes gA a gB b else Ok true) = Ok true) as Hfirst.
  { destruct (comparesNodes _ _ _ _ _); [|done].
    by rewrite compareNodes_Ok, Hsame. }
  split.
  - intros Hlen. rewrite nodeEquals_S, Hfirst, (pairDeps_Ok _ _ _ _ HA HB Ha Hb).
    by rewrite (proj2 (Nat.eqb_neq _ _) Hlen).
  - exists (js_sort (sortFn gA) (sucs (_graph gA) a)),
      (js_sort (sortFn gB) (sucs (_graph gB) b)).
    split; [by apply sortDeps_Ok, valid_sucs_nodes |].
    split; [by apply sortDeps_Ok, valid_sucs_nodes |].
    split; [apply js_sort_sortedByPkgId; auto using valid_sucs_nodes |].
    split; [apply js_sort_sortedByPkgId; auto using valid_sucs_nodes |].
    intros Hlen. rewrite nodeEquals_S, Hfirst, (pairDeps_Ok _ _ _ _ HA HB Ha Hb).
    rewrite (proj2 (Nat.eqb_eq _ _) Hlen). simpl. apply eachPair_Pairwise.
Qed.

(** *** Without the root *)

Lemma comparesNodes_false gA a gB b :
  comparesNodes gA a gB b false = false ↔ a = _rootNodeId gA ∨ b = _rootNodeId gB.
Proof.
  unfold comparesNodes. simpl.
  destruct (String.eqb_spec a (_rootNodeId gA)), (String.eqb_spec b (_rootNodeId gB));
    simpl; naive_solver.
Qed.

Lemma getNode_inv g v view : getNode g v = Ok view → v ∈ nodes (_graph g).
Proof.
  unfold getNode. intros (n & Hn%getGraphNode_inv & _)%obind_Ok.
  apply node_is_Some. eauto.
Qed.

Lemma compareNodes_inv gA a gB b r :
  compareNodes gA a gB b = Ok r → r = sameNode gA a gB b.
Proof.
  intros Hr. pose proof Hr as Hr'. unfold compareNodes in Hr'.
  apply obind_Ok in Hr' as (va & Ha%getNode_inv & Hr').
  apply obind_Ok in Hr' as (vb & Hb%getNode_inv & _).
  rewrite (compareNodes_Ok _ _ _ _ Ha Hb) in Hr. congruence.
Qed.

Lemma first_test_passes gA a gB b :
  (if comparesNodes gA a gB b false then compareNodes gA a gB b else Ok true) = Ok true →
  passes gA gB a b.
Proof.
  destruct (comparesNodes gA a gB b false) eqn:Hc.
  - intros Hr%compareNodes_inv. by right; right.
  - intros _. apply comparesNodes_false in Hc. unfold passes. tauto.
Qed.

Lemma eachPair_app rec (pre l : list (string * string)) T T1 :
  eachPair rec pre T = (Ok true, T1) → eachPair rec (pre ++ l) T = eachPair rec l T1.
Proof.
  revert T. induction pre as [|[a b] pre IH]; intros T; simpl.
  - by intros [= <-].
  - case_decide; [apply IH |].
    destruct (rec a b _) as [[[]| |] T2]; [apply IH | done..].
Qed.

(** When a call of [nodeEquals] without [compareRoot] returns true, every
    call it made was on a pair that has a root on one side or two nodes
    with equal package and [info]. *)
Lemma nodeEquals_true_passes gA gB fuel a b T T' x y :
  Called gA gB false fuel a b T x y →
  nodeEquals fuel gA a gB b false T = (Ok true, T') →
  passes gA gB x y.
Proof.
  intros Hcalled. revert T'.
  induction Hcalled as [fuel a b T | fuel a b T pre x y post T1 x' y' Hfirst Hdeps Hpre Hkey _ IH];
    intros T'; rewrite nodeEquals_S.
  - destruct (if comparesNodes gA a gB b false then _ else _) as [[]| |] eqn:Hfirst;
      try done. intros _. by apply first_test_passes.
  - rewrite Hfirst, Hdeps.
    rewrite (eachPair_app _ _ _ _ _ Hpre). simpl. rewrite decide_False by done.
    destruct (nodeEquals fuel gA x gB y false _) as [[[]| |] T2] eqn:Hxy; try done.
    intros _. by eapply IH.
Qed.

(** *** Two graphs that differ at the root only *)

Lemma sameNode_depKey gA gB v :
  valid gA → valid gB → v ∈ nodes (_graph gA) → v ∈ nodes (_graph gB) →
  sameNode gA v gB v = true → depKey gA v = depKey gB v.
Proof.
  intros HA HB Ha Hb [Hpkg _]%andb_true_iff.
  destruct (valid_pkgOfNode gA v HA Ha) as [p Hp].
  destruct (valid_pkgOfNode gB v HB Hb) as [q Hq].
  unfold depKey. rewrite (depPkgId_Ok _ _ _ Ha Hp), (depPkgId_Ok _ _ _ Hb Hq).
  rewrite Hp, Hq in Hpkg. simpl in Hpkg. apply samePkg_spec in Hpkg. by rewrite Hpkg.
Qed.

Lemma eachPair_diag rec (l : list string) T r T' :
  (∀ x T r T', x ∈ l → rec x x T = (Ok r, T') → r = true) →
  eachPair rec (zip l l) T = (Ok r, T') → r = true.
Proof.
  revert T. induction l as [|x l IH]; intros T Hrec; simpl.
  - by intros [= <- _].
  - assert (∀ x T r T', x ∈ l → rec x x T = (Ok r, T') → r = true) as Hrec'
      by (intros; eapply Hrec; [by right | done]).
    case_decide; [by apply IH |].
    destruct (rec x x _) as [[[]| |] T2] eqn:Hx; [by apply IH | | done..].
    intros [= <- _]. eapply Hrec; [left | done].
Qed.

Lemma nodeEquals_same_below_root gA gB fuel v T r T' :
  valid gA → valid gB → same_below_root gA gB →
  v ∈ nodes (_graph gA) →
  nodeEquals fuel gA v gB v false T = (Ok r, T') → r = true.
Proof.
  intros HA HB Hsame. revert v T r T'.
  induction fuel as [|fuel IH]; intros v T r T' Hv; [done |].
  rewrite nodeEquals_S.
  assert (v ∈ nodes (_graph gB)) as Hv' by (by rewrite <-(sbr_nodes _ _ Hsame)).
  assert (sucs (_graph gB) v = sucs (_graph gA) v) as Hsucs
    by (unfold sucs; by rewrite (sbr_edges _ _ Hsame)).
  assert (∀ w, w ∈ sucs (_graph gA) v →
               w ∈ nodes (_graph gA) ∧ depKey gA w = depKey gB w) as Hdeps.
  { intros w Hw. pose proof (valid_sucs_nodes gA v HA) as Hn.
    rewrite Forall_forall in Hn. specialize (Hn w Hw). split; [done |].
    apply sameNode_depKey; [done | done | done | by rewrite <-(sbr_nodes _ _ Hsame) |].
    pose proof (sbr_same _ _ Hsame) as Hall. rewrite Forall_forall in Hall.
    apply Hall; [done |]. intros ->. apply elem_of_sucs, elem_of_preds in Hw.
    rewrite (sbr_top _ _ Hsame) in Hw. by apply elem_of_nil in Hw. }
  assert ((if comparesNodes gA v gB v false then compareNodes gA v gB v else Ok true)
          = Ok true) as ->.
  { destruct (comparesNodes gA v gB v false) eqn:Hc; [|done].
    rewrite (compareNodes_Ok _ _ _ _ Hv Hv'). f_equal.
    pose proof (sbr_same _ _ Hsame) as Hall. rewrite Forall_forall in Hall.
    apply Hall; [done |]. intros ->.
    assert (comparesNodes gA (_rootNodeId gA) gB (_rootNodeId gA) false = false)
      by (apply comparesNodes_false; by left). congruence. }
  rewrite (pairDeps_Ok _ _ _ _ HA HB Hv Hv'), Hsucs.
  rewrite Nat.eqb_refl. simpl.
  rewrite <-(js_sort_ext (sortFn gA) (sortFn gB)).
  - apply eachPair_diag. intros x T0 r0 T0' Hx. apply IH.
    rewrite js_sort_perm in Hx. by apply Hdeps.
  - intros x y Hx Hy. unfold sortFn.
    by rewrite (proj2 (Hdeps x Hx)), (proj2 (Hdeps y Hy)).
Qed.

(** C3, as the code has it. In [equals] without [compareRoot], on two
    valid instances: the comparison of the two nodes of a pair is skipped
    exactly when one of the two is the root of its graph; on a pair of two
    other nodes a difference of package or of [info] makes the call return
    false; when the whole comparison returns true, every pair it called
    [nodeEquals] on had a root on one side or equal packages and [info];
    and two graphs that differ at the root only, a root that is no node's
    dependency, are equal. *)
Theorem equals_without_root gA gB :
  valid gA → valid gB →
  (∀ a b, comparesNodes gA a gB b false = false ↔
          a = _rootNodeId gA ∨ b = _rootNodeId gB) ∧
  (∀ a b fuel T,
     a ∈ nodes (_graph gA) → b ∈ nodes (_graph gB) →
     a ≠ _rootNodeId gA → b ≠ _rootNodeId gB →
     sameNode gA a gB b = false →
     nodeEquals (S fuel) gA a gB b false T = (Ok false, T)) ∧
  (∀ fuel x y,
     Called gA gB false fuel (_rootNodeId gA) (_rootNodeId gB) ∅ x y →
     equals fuel gA gB false = Ok true →
     passes gA gB x y) ∧
  (same_below_root gA gB →
   ∀ fuel, length (nodes (_graph gA)) * length (nodes (_graph gB)) < fuel →
           equals fuel gA gB false = Ok true).
Proof.
  intros HA HB. split; [intros a b; apply comparesNodes_false |]. split; [|split].
  - intros a b fuel T Ha Hb Hna Hnb Hdiff. rewrite nodeEquals_S.
    destruct (comparesNodes gA a gB b false) eqn:Hc.
    + by rewrite (compareNodes_Ok _ _ _ _ Ha Hb), Hdiff.
    + apply comparesNodes_false in Hc. tauto.
  - intros fuel x y Hcalled. rewrite !equals_Native.
    destruct (nodeEquals fuel gA _ gB _ false ∅) as [r T'] eqn:Hr. simpl.
    intros ->. by eapply nodeEquals_true_passes.
  - intros Hsame fuel Hfuel.
    pose proof (valid_root gA HA) as Hra. pose proof (valid_root gB HB) as Hrb.
    assert (unvisited gA gB ∅ < fuel) as Hun
      by (pose proof (unvisited_empty gA gB); lia).
    destruct (nodeEquals_total gA gB false fuel _ _ ∅ HA HB Hra Hrb Hun)
      as (r & T' & Hr & _).
    rewrite !equals_Native. rewrite Hr. simpl. f_equal.
    rewrite <-(sbr_root _ _ Hsame) in Hr.
    exact (nodeEquals_same_below_root gA gB fuel _ ∅ r T' HA HB Hsame Hra Hr).
Qed.

(** *** Mismatches *)

Lemma pairDeps_nodes gA gB a b (pre post : list (string * string)) x y :
  valid gA → valid gB →
  a ∈ nodes (_graph gA) → b ∈ nodes (_graph gB) →
  pairDeps gA a gB b = Ok (Some ((pre ++ (x, y) :: post)%list)) →
  x ∈ nodes (_graph gA) ∧ y ∈ nodes (_graph gB).
Proof.
  intros HA HB Ha Hb Hdeps.
  rewrite (pairDeps_Ok _ _ _ _ HA HB Ha Hb) in Hdeps.
  destruct (negb _); [done |]. injection Hdeps as Hdeps.
  assert ((x, y) ∈ zip (js_sort (sortFn gA) (sucs (_graph gA) a))
                       (js_sort (sortFn gB) (sucs (_graph gB) b))) as Hxy
    by (rewrite Hdeps; apply elem_of_app; right; left).
  split.
  - apply elem_of_zip_l in Hxy. rewrite js_sort_perm in Hxy.
    pose proof (valid_sucs_nodes gA a HA) as Hs. rewrite Forall_forall in Hs. auto.
  - apply elem_of_zip_r in Hxy. rewrite js_sort_perm in Hxy.
    pose proof (valid_sucs_nodes gB b HB) as Hs. rewrite Forall_forall in Hs. auto.
Qed.

(** When a call of [nodeEquals] returns true, no call it made was on a
    pair with a mismatch. *)
Lemma nodeEquals_true_matches gA gB compareRoot fuel a b T T' x y :
  valid gA → valid gB →
  a ∈ nodes (_graph gA) → b ∈ nodes (_graph gB) →
  Called gA gB compareRoot fuel a b T x y →
  nodeEquals fuel gA a gB b compareRoot T = (Ok true, T') →
  ¬ mismatch gA gB compareRoot x y.
Proof.
  intros HA HB Ha Hb Hcalled. revert Ha Hb T'.
  induction Hcalled
    as [fuel a b T | fuel a b T pre x y post T1 x' y' Hfirst Hdeps Hpre Hkey Hbelow IH];
    intros Ha Hb T'; rewrite nodeEquals_S.
  - intros Hr [[Hc Hdiff] | Hlen].
    + by rewrite Hc, (compareNodes_Ok _ _ _ _ Ha Hb), Hdiff in Hr.
    + destruct (if comparesNodes gA a gB b compareRoot then _ else _) as [[]| |];
        try done.
      rewrite (pairDeps_Ok _ _ _ _ HA HB Ha Hb) in Hr.
      by rewrite (proj2 (Nat.eqb_neq _ _) Hlen) in Hr.
  - destruct (pairDeps_nodes _ _ _ _ _ _ _ _ HA HB Ha Hb Hdeps) as [Hx Hy].
    rewrite Hfirst, Hdeps.
    rewrite (eachPair_app _ _ _ _ _ Hpre). simpl. rewrite decide_False by done.
    destruct (nodeEquals fuel gA x gB y compareRoot _) as [[[]| |] T2] eqn:Hxy; try done.
    intros _. by eapply IH.
Qed.

(** C9. [equals] on a valid instance.  Against a valid instance of this
    class, cyclic or not, and for either value of [compareRoot], it returns
    a boolean, which is false as soon as one pair of nodes that the
    co-traversal calls [nodeEquals] on has a mismatch.  Against an object
    of another class it raises what [createFromJSON] raises on the document
    of that object, and otherwise it is [equals] against the instance that
    [createFromJSON] built. *)
Theorem equals_returns gA compareRoot fuel :
  valid gA →
  (∀ gB : DepGraphImpl,
     valid gB →
     length (nodes (_graph gA)) * length (nodes (_graph gB)) < fuel →
     ∃ r : bool,
       equals fuel gA gB compareRoot = Ok r ∧
       (∀ x y,
          Called gA gB compareRoot fuel (_rootNodeId gA) (_rootNodeId gB) ∅ x y →
          mismatch gA gB compareRoot x y → r = false)) ∧
  (∀ document e,
     createFromJSON document = Throw e →
     equals fuel gA (Foreign document) compareRoot = Throw e) ∧
  (∀ document gB,
     createFromJSON document = Ok gB →
     equals fuel gA (Foreign document) compareRoot = equals fuel gA gB compareRoot).
Proof.
  intros HA. split; [|split].
  - intros gB HB Hfuel.
    pose proof (valid_root gA HA) as Hra. pose proof (valid_root gB HB) as Hrb.
    assert (unvisited gA gB ∅ < fuel) as Hun
      by (pose proof (unvisited_empty gA gB); lia).
    destruct (nodeEquals_total gA gB compareRoot fuel _ _ ∅ HA HB Hra Hrb Hun)
      as (r & T' & Hr & _).
    exists r. rewrite equals_Native, Hr. split; [done |].
    intros x y Hcalled Hdiff. destruct r; [|done].
    by destruct (nodeEquals_true_matches _ _ _ _ _ _ _ _ _ _ HA HB Hra Hrb Hcalled Hr).
  - intros document e Hd. unfold equals. by rewrite Hd.
  - intros document gB Hd. unfold equals. by rewrite Hd.
Qed.

End Pairing.


(** * The rest of the engine *)

Section Accessors.
Context `{Externals}.
Implicit Types (g : DepGraphImpl) (G : Graph) (v w : string).

(** ** Packages and their nodes *)

Lemma occurrence_node g pkg v :
  occurrence g pkg v ↔ ∃ n, node (_graph g) v = Some n ∧ pkgId n = getPkgId pkg.
Proof.
  unfold occurrence. destruct (node (_graph g) v) as [n|]; simpl.
  - split; [intros [= Hn]; eauto | by intros (? & [= <-] & ->)].
  - split; [done | by intros (? & ? & _)].
Qed.

(** X1. On a valid instance [getPkgNodeIds] throws `no such pkg` with the
    PackageId exactly for the packages that the registry does not have, and
    returns for a registered package the nodes of the graph whose [pkgId]
    is its PackageId, each once. *)
Theorem getPkgNodeIds_occurrences g pkg :
  valid g →
  (assoc (getPkgId pkg) (_pkgs g) = None ↔
     getPkgNodeIds g pkg = Throw (NoSuchPkg (getPkgId pkg))) ∧
  (is_Some (assoc (getPkgId pkg) (_pkgs g)) ↔
     ∃ ids, getPkgNodeIds g pkg = Ok ids) ∧
  (∀ ids, getPkgNodeIds g pkg = Ok ids →
          NoDup ids ∧ ∀ v, v ∈ ids ↔ occurrence g pkg v).
Proof.
  intros Hg. destruct (assoc (getPkgId pkg) (_pkgs g)) as [p|] eqn:Hp.
  - destruct (getPkgNodeIds_registered g pkg p Hg Hp) as (ids & Hids & Hnd & Hocc).
    rewrite Hids. split; [done |]. split; [split; eauto |].
    intros ids' [= <-]. split; [done |]. intros v. by rewrite occurrence_node.
  - unfold getPkgNodeIds. rewrite Hp. split; [done |]. split; [|done].
    split; [by intros [? ?] | by intros [? ?]].
Qed.

(** X2. On a valid instance and a registered package, [getPkgNodes]
    returns, in the order of [getPkgNodeIds], the very view that [getNode]
    returns for each of these ids, and the package of each view is the
    registry's entry for the package. *)
Theorem getPkgNodes_agrees_with_getNode g pkg p :
  valid g → assoc (getPkgId pkg) (_pkgs g) = Some p →
  ∃ ids views,
    getPkgNodeIds g pkg = Ok ids ∧
    getPkgNodes g pkg = Ok views ∧
    n_id <$> views = ids ∧
    Forall (λ view, getNode g (n_id view) = Ok view ∧ n_pkg view = Some p) views.
Proof.
  intros Hg Hp.
  destruct (getPkgNodes_registered g pkg p Hg Hp) as (ids & Hids & Hviews & Hpkg & _ & Hocc).
  exists ids, (viewOf g <$> ids). split; [done |]. split; [done |].
  split; [apply n_id_viewOf |].
  rewrite Forall_fmap in Hpkg |- *. rewrite Forall_forall in Hpkg |- *.
  intros v Hv. simpl. split; [|by apply Hpkg].
  apply getNode_Ok. apply Hocc in Hv as (n & Hn & _). apply node_is_Some. eauto.
Qed.

(** X3. On a valid instance [getNodePkg] never returns [undefined]: for a
    node of the graph it returns the registry's entry under the node's
    [pkgId], whose PackageId is that [pkgId]; for any other id it throws
    `no such node`. *)
Theorem getNodePkg_registered g v :
  valid g →
  (v ∉ nodes (_graph g) → getNodePkg g v = Throw (NoSuchNode v)) ∧
  (v ∈ nodes (_graph g) →
     ∃ n p, node (_graph g) v = Some n ∧
            getNodePkg g v = Ok (Some p) ∧
            (pkgId n, p) ∈ _pkgs g ∧
            getPkgId p = pkgId n).
Proof.
  intros Hg. split.
  - intros Hv. unfold getNodePkg. by rewrite (getGraphNode_unknown _ _ Hv).
  - intros Hv. destruct (depKey_valid g v Hg Hv) as (n & p & Hn & Hp & _ & Hid).
    exists n, p. split; [done |]. split; [|split; [by apply assoc_Some_elem | done]].
    rewrite (getNodePkg_Ok _ _ _ Hn). unfold pkgOfNode. rewrite Hn. simpl. by rewrite Hp.
Qed.

(** X4. On a valid instance the two directions of an edge agree: [w] is
    among the dependencies that [getNodeDepsNodeIds] returns for [v]
    exactly when [v] is among the parents that [getNodeParentsNodeIds]
    returns for [w]. *)
Theorem deps_and_parents_agree g v w :
  valid g →
  (∃ deps, getNodeDepsNodeIds g v = Ok deps ∧ w ∈ deps) ↔
  (∃ parents, getNodeParentsNodeIds g w = Ok parents ∧ v ∈ parents).
Proof.
  intros Hg. transitivity (edge (_graph g) v w).
  - unfold getNodeDepsNodeIds, successors. split.
    + intros (deps & Hdeps & Hw). destruct (node (_graph g) v); [|done].
      injection Hdeps as <-. by apply elem_of_sucs.
    + intros He. pose proof (valid_edge_nodes _ _ _ Hg He) as [[n Hn]%node_is_Some _].
      rewrite Hn. exists (sucs (_graph g) v). split; [done | by apply elem_of_sucs].
  - unfold getNodeParentsNodeIds, predecessors. split.
    + intros He. pose proof (valid_edge_nodes _ _ _ Hg He) as [_ [n Hn]%node_is_Some].
      rewrite Hn. exists (preds (_graph g) w). split; [done | by apply elem_of_preds].
    + intros (parents & Hparents & Hv). destruct (node (_graph g) w); [|done].
      injection Hparents as <-. by apply elem_of_preds.
Qed.

(** X5. In a valid instance, as its constructor leaves it, the root
    package is one entry of the registry, and [getDepPkgs] is [getPkgs]
    with that one entry taken out: the other packages stay, in their
    order. *)
Theorem getDepPkgs_drops_root graph rootNodeId pkgs pkgNodes pkgManager g :
  construct graph rootNodeId pkgs pkgNodes pkgManager = Ok g →
  valid g →
  ∃ root before after,
    rootPkg g = Some root ∧
    getPkgs g = before ++ root :: after ∧
    getDepPkgs g = before ++ after ∧
    root ∉ getDepPkgs g.
Proof.
  intros Hc Hg. destruct (valid_rootPkg g Hg) as [root Hroot].
  pose proof Hroot as Hin. unfold rootPkg in Hin. apply assoc_Some_elem in Hin.
  assert (∀ k, (k, root) ∈ _pkgs g → k = _rootPkgId g) as Hkey.
  { intros k Hk. pose proof (valid_pkg_ids g Hg) as Hids. rewrite Forall_forall in Hids.
    pose proof (Hids _ Hk) as Hk1. pose proof (Hids _ Hin) as Hk2. simpl in *. congruence. }
  assert (∀ k p, (k, p) ∈ _pkgs g → strictNe p (Some root) = false → p = root) as Hsame.
  { intros k p Hp Hne. simpl in Hne. apply negb_false_iff, Nat.eqb_eq in Hne.
    pose proof (valid_pkg_refs g Hg) as Hrefs. rewrite Forall_forall in Hrefs.
    specialize (Hrefs _ Hp). rewrite Forall_forall in Hrefs.
    exact (Hrefs _ Hin Hne). }
  apply list_elem_of_split in Hin as (l1 & l2 & Hsplit).
  pose proof (valid_pkg_keys g Hg) as Hkeys. rewrite Hsplit in Hkeys.
  rewrite fmap_app, fmap_cons in Hkeys. simpl in Hkeys.
  apply NoDup_app in Hkeys as (_ & Hl1 & [Hl2 _]%NoDup_cons).
  assert (_rootPkgId g ∉ l1.*1) as Hk1 by (intros Hk; apply (Hl1 _ Hk); left).
  assert (∀ l, (∀ kp, kp ∈ l → kp ∈ _pkgs g) → _rootPkgId g ∉ l.*1 →
               (root ∉ l.*2) ∧
               List.filter (λ pkg, strictNe pkg (Some root)) l.*2 = l.*2) as Hkeep.
  { intros l Hl Hk. induction l as [|[k p] l IH].
    { split; [apply not_elem_of_nil | done]. }
    rewrite !fmap_cons. cbn [List.filter snd].
    assert (p ≠ root) as Hp.
    { intros ->. apply Hk. assert (k = _rootPkgId g) as <- by (apply Hkey, Hl; left).
      rewrite fmap_cons. left. }
    destruct IH as [IH1 IH2]; [intros; apply Hl; by right | | ].
    { intros Hk'. apply Hk. rewrite fmap_cons. by right. }
    split; [apply not_elem_of_cons; split; [simpl; intros Heq; by apply Hp | done] |].
    destruct (strictNe p (Some root)) eqn:Hne; [by f_equal |].
    destruct Hp. apply (Hsame k); [apply Hl; left | done]. }
  destruct (Hkeep l1) as [Hn1 Hf1]; [rewrite Hsplit; set_solver | done |].
  destruct (Hkeep l2) as [Hn2 Hf2]; [rewrite Hsplit; set_solver | done |].
  exists root, l1.*2, l2.*2. split; [done |]. unfold construct in Hc.
  destruct (node graph rootNodeId) as [n|]; [|done]. injection Hc as <-.
  unfold getPkgs, getDepPkgs, rootPkg in *; simpl in *. subst pkgs.
  rewrite Hroot, !fmap_app, fmap_cons, List.filter_app. simpl.
  rewrite Nat.eqb_refl. simpl. rewrite Hf1, Hf2.
  split; [done |]. split; [done |]. by apply not_elem_of_app.
Qed.

(** X6. Before anything else the two path queries look at the cycle
    flag, and then at the registry: on an acyclic graph and a package that
    the registry does not have, both throw `no such pkg` with the
    PackageId, whatever the fuel and the table. *)
Theorem path_queries_unknown_package g st pkg fuel :
  (hasCycles g st).1 = false →
  assoc (getPkgId pkg) (_pkgs g) = None →
  (pkgPathsToRoot fuel g pkg st).1 = Throw (NoSuchPkg (getPkgId pkg)) ∧
  (countPathsToRoot fuel g pkg st).1 = Throw (NoSuchPkg (getPkgId pkg)).
Proof.
  intros Hflag Hp. unfold pkgPathsToRoot, countPathsToRoot, getPkgNodeIds.
  destruct (hasCycles g st) as [b st1]. simpl in Hflag. subst b. by rewrite Hp.
Qed.

End Accessors.

(** ** Paths as walks *)

Lemma fmap_concat {A B} (f : A → B) (ls : list (list A)) :
  f <$> concat ls = concat ((λ l : list A, f <$> l) <$> ls).
Proof. induction ls as [|l ls IH]; simpl; [done |]. by rewrite fmap_app, IH. Qed.

Lemma length_concat_nonempty {A} (ls : list (list A)) :
  Forall (λ l, l ≠ []) ls → length ls ≤ length (concat ls).
Proof.
  induction 1 as [|l ls Hl _ IH]; simpl; [done |]. rewrite length_app.
  destruct l; [done |]. simpl. lia.
Qed.

Section Walks.
Context `{Externals}.
Implicit Types (g : DepGraphImpl) (G : Graph) (v : string).

Lemma NoDup_preds g v : valid g → NoDup (preds (_graph g) v).
Proof.
  intros Hg. unfold preds. apply NoDup_fmap_2_strong.
  - intros [u1 v1] [u2 v2] [? _]%list_elem_of_filter [? _]%list_elem_of_filter ?.
    simpl in *. congruence.
  - apply NoDup_filter, (valid_edge_ids g Hg).
Qed.

Lemma walkToTop_top G v walk : preds G v = [] → walkToTop G v walk ↔ walk = [v].
Proof.
  intros Hv. split.
  - intros (Hw & [rest ->]%head_Some & _). destruct rest as [|p rest]; [done |].
    inversion Hw as [|? ? ? He]; subst. apply elem_of_preds in He.
    rewrite Hv in He. by apply elem_of_nil in He.
  - intros ->. split; [constructor |]. split; [done |]. by exists v.
Qed.

Lemma walkToTop_via G v walk :
  preds G v ≠ [] →
  walkToTop G v walk ↔ ∃ p rest, p ∈ preds G v ∧ walk = v :: rest ∧ walkToTop G p rest.
Proof.
  intros Hv. split.
  - intros (Hw & [rest ->]%head_Some & t & Ht & Htop).
    destruct rest as [|p rest]; [simpl in Ht; congruence |].
    inversion Hw as [|? ? ? He Hrest]; subst. exists p, (p :: rest).
    split; [by apply elem_of_preds |]. split; [done |].
    split; [done |]. split; [done |]. exists t. by rewrite last_cons_cons in Ht.
  - intros (p & rest & Hp%elem_of_preds & -> & Hw & [rest' ->]%head_Some & t & Ht & Htop).
    split; [by constructor |]. split; [done |]. exists t. by rewrite last_cons_cons.
Qed.

(** The walks from the nodes of a list without repetition, one list of
    walks per node, put together. *)
Lemma walks_concat G (l : list string) (wss : list (list (list string))) :
  NoDup l →
  Forall2 (λ p ws, NoDup ws ∧ ∀ w, w ∈ ws ↔ walkToTop G p w) l wss →
  NoDup (concat wss) ∧ ∀ w, w ∈ concat wss ↔ ∃ p, p ∈ l ∧ walkToTop G p w.
Proof.
  intros Hl Hall. induction Hall as [|p ws l wss [Hnd Hws] _ IH]; simpl.
  - split; [constructor |]. intros w. split; [by intros ?%elem_of_nil |].
    by intros (p & ?%elem_of_nil & _).
  - apply NoDup_cons in Hl as [Hp Hl]. destruct (IH Hl) as [IHnd IHin]. split.
    + apply NoDup_app. split; [done |]. split; [|done].
      intros w Hw%Hws (q & Hq & Hw')%IHin.
      destruct Hw as (_ & Hh & _), Hw' as (_ & Hh' & _). congruence.
    + intros w. rewrite elem_of_app, Hws, IHin. split.
      * intros [Hw | (q & Hq & Hw)]; [exists p | exists q]; split; try done; by constructor.
      * intros (q & [-> | Hq]%elem_of_cons & Hw); [by left | right; eauto].
Qed.

(** The upward paths of a node are the packages along its upward walks
    to the nodes without parents, each walk once. *)
Lemma UpPaths_walks g v ps :
  valid g → UpPaths g v ps →
  ∃ walks, ps = (λ walk : list string, pkgOfNode g <$> walk) <$> walks ∧
           NoDup walks ∧ ∀ w, w ∈ walks ↔ walkToTop (_graph g) v w.
Proof.
  intros Hg. revert v ps. apply UpPaths_induction.
  - intros v _ Hv. exists [[v]]. split; [done |]. split; [apply NoDup_singleton |].
    intros w. rewrite (walkToTop_top _ _ _ Hv). apply list_elem_of_singleton.
  - intros v pss _ Hv _ Hall.
    assert (∃ wss, pss = (λ ws : list (list string),
                            (λ walk : list string, pkgOfNode g <$> walk) <$> ws) <$> wss ∧
                   Forall2 (λ p ws, NoDup ws ∧ ∀ w, w ∈ ws ↔ walkToTop (_graph g) p w)
                           (preds (_graph g) v) wss) as (wss & -> & Hwss).
    { clear Hv. induction Hall as [|p ps l pss (ws & -> & Hnd & Hws) _ (wss & -> & Hwss)].
      - by exists [].
      - exists (ws :: wss). split; [done |]. by constructor. }
    destruct (walks_concat _ _ _ (NoDup_preds g v Hg) Hwss) as [Hnd Hin].
    exists (cons v <$> concat wss). split; [|split].
    + rewrite !fmap_concat, <-!list_fmap_compose. f_equal. apply list_fmap_ext.
      intros _ ws _. simpl. rewrite <-!list_fmap_compose. by apply list_fmap_ext.
    + apply NoDup_fmap_2; [|done]. by intros ? ? [= ->].
    + intros w. rewrite (walkToTop_via _ _ _ Hv), list_elem_of_fmap. split.
      * intros (rest & -> & (p & Hp & Hrest)%Hin). eauto.
      * intros (p & rest & Hp & -> & Hrest). exists rest. split; [done |].
        apply Hin. eauto.
Qed.

Lemma UpPaths_nonempty g v ps : UpPaths g v ps → ps ≠ [].
Proof.
  revert v ps. apply UpPaths_induction; [done |].
  intros v pss _ Hv _ Hall. destruct Hall as [|p ps l pss Hps _]; [done |].
  simpl. destruct ps; [done | done].
Qed.

Lemma Forall2_UpPaths_walks g (ids : list string) (pss : list (list Path)) :
  valid g → Forall2 (UpPaths g) ids pss →
  ∃ wss, pss = (λ ws : list (list string),
                  (λ walk : list string, pkgOfNode g <$> walk) <$> ws) <$> wss ∧
         Forall (λ ws, ws ≠ []) wss ∧
         Forall2 (λ p ws, NoDup ws ∧ ∀ walk, walk ∈ ws ↔ walkToTop (_graph g) p walk)
                 ids wss.
Proof.
  intros Hg. induction 1 as [|v ps ids pss Hps _ (wss & -> & Hne & Hwss)].
  - exists []. by repeat constructor.
  - pose proof (UpPaths_nonempty g v ps Hps) as Hps'.
    destruct (UpPaths_walks g v ps Hg Hps) as (ws & -> & Hnd & Hws).
    exists (ws :: wss). split; [done |]. split; [|by constructor].
    constructor; [|done]. by destruct ws.
Qed.

(** X7. On an acyclic valid graph and a registered package, the paths
    that [pkgPathsToRoot] returns are, up to their order, the packages
    along the upward walks from the nodes of the package to the nodes
    without parents, one path for each such walk. *)
Theorem pkgPathsToRoot_walks g st pkg p fuel :
  valid g → memo_ok g st → (hasCycles g st).1 = false →
  assoc (getPkgId pkg) (_pkgs g) = Some p →
  length (nodes (_graph g)) ≤ fuel →
  ∃ paths walks,
    (pkgPathsToRoot fuel g pkg st).1 = Ok paths ∧
    paths ≡ₚ (λ walk : list string, pkgOfNode g <$> walk) <$> walks ∧
    NoDup walks ∧
    ∀ walk, walk ∈ walks ↔ ∃ v, occurrence g pkg v ∧ walkToTop (_graph g) v walk.
Proof.
  intros Hg Hst Hcyc Hp Hfuel.
  destruct (pkgPathsToRoot_Ok g st pkg p fuel Hg Hst Hcyc Hp Hfuel)
    as (ids & pss & _ & Hnd & Hocc & Hpss & Hpaths).
  destruct (Forall2_UpPaths_walks g ids pss Hg Hpss) as (wss & -> & _ & Hwss).
  destruct (walks_concat _ _ _ Hnd Hwss) as [Hnd' Hin].
  exists (js_sort byLength
            (concat ((λ ws : list (list string),
                        (λ walk : list string, pkgOfNode g <$> walk) <$> ws) <$> wss))),
    (concat wss).
  split; [done |]. split; [by rewrite js_sort_perm, fmap_concat |]. split; [done |].
  intros walk. rewrite Hin. split.
  - intros (v & Hv%Hocc%occurrence_node & Hw). eauto.
  - intros (v & Hv%occurrence_node%Hocc & Hw). eauto.
Qed.

(** X8. On an acyclic valid graph and a registered package,
    [countPathsToRoot] returns a count; there is one upward walk at least
    from each node of the package to a node without parents, and whenever
    the number of these walks is at most [2 ^ 53], the count is that
    number.  (Beyond, the sums of doubles are rounded.) *)
Theorem countPathsToRoot_walks g st pkg p fuel :
  valid g → caches_ok g st → (hasCycles g st).1 = false →
  assoc (getPkgId pkg) (_pkgs g) = Some p →
  length (nodes (_graph g)) ≤ fuel →
  ∃ ids walks count st2,
    getPkgNodeIds g pkg = Ok ids ∧
    countPathsToRoot fuel g pkg st = (Ok count, st2) ∧
    NoDup walks ∧
    (∀ walk, walk ∈ walks ↔ ∃ v, occurrence g pkg v ∧ walkToTop (_graph g) v walk) ∧
    length ids ≤ length walks ∧
    ((N.of_nat (length walks) ≤ exactUpTo)%N → count = lengthOf walks).
Proof.
  intros Hg Hst Hcyc Hp Hfuel.
  destruct (pkgPathsToRoot_Ok g st pkg p fuel Hg (proj1 Hst) Hcyc Hp Hfuel)
    as (ids & pss & Hids & Hnd & Hocc & Hpss & _).
  destruct (countPathsToRoot_Ok g st pkg p fuel Hg Hst Hcyc Hp Hfuel)
    as (ids' & cs & st2 & Hids' & Hcs & Hcount & _).
  assert (ids' = ids) as -> by congruence.
  assert (∀ v, v ∈ ids ↔ occurrence g pkg v) as Hocc'
    by (intros v; by rewrite occurrence_node).
  assert (Forall2 (λ v ps, ∀ c, Counted g v c →
                     (N.of_nat (length ps) ≤ exactUpTo)%N → c = lengthOf ps) ids pss)
    as Hexact.
  { eapply Forall2_impl; [exact Hpss |]. intros v ps Hv c. by apply Counted_exact. }
  destruct (Forall2_UpPaths_walks g ids pss Hg Hpss) as (wss & -> & Hne & Hwss).
  destruct (walks_concat _ _ _ Hnd Hwss) as [Hnd' Hin].
  exists ids, (concat wss), (foldl addNumbers (Finite 0) cs), st2.
  split; [done |]. split; [done |]. split; [done |]. split; [|split].
  - intros walk. rewrite Hin. split; intros (v & Hv & Hw); exists v; split; try done;
      by apply Hocc'.
  - rewrite (Forall2_length _ _ _ Hwss). by apply length_concat_nonempty.
  - intros Hle.
    assert (length (concat ((λ ws : list (list string),
                      (λ walk : list string, pkgOfNode g <$> walk) <$> ws) <$> wss))
            = length (concat wss)) as Hlen by (by rewrite <-fmap_concat, length_fmap).
    rewrite (foldl_addNumbers_exact g ids _ cs 0%N Hexact Hcs);
      rewrite Hlen, N.add_0_l; done.
Qed.

(** *** The table of counts *)

Lemma reduce_memo (rec : string → ST (gmap string number) number) l acc
    (cache : gmap string number) total cache' :
  (∀ v cache c cache', rec v cache = (Ok c, cache') →
                       cache ⊆ cache' ∧ cache' !! v = Some c) →
  reduceM (λ acc id, let+ c := rec id in sret (addNumbers acc c)) l acc cache
  = (Ok total, cache') →
  cache ⊆ cache' ∧
  ∃ cs, Forall2 (λ v c, cache' !! v = Some c) l cs ∧ total = foldl addNumbers acc cs.
Proof.
  intros Hrec. revert acc cache. induction l as [|v l IH]; intros acc cache; simpl.
  - unfold sret. intros [= <- <-]. split; [done |]. exists []. split; [constructor |].
    done.
  - unfold sbind at 1. unfold sbind at 1.
    destruct (rec v cache) as [[c|e|] cache1] eqn:Hv; simpl; [|done..].
    intros Hrest. destruct (Hrec _ _ _ _ Hv) as [Hsub Hc].
    destruct (IH _ _ Hrest) as (Hsub' & cs & Hcs & ->).
    split; [by etrans |]. exists (c :: cs). split; [|done].
    constructor; [|done]. by eapply lookup_weaken.
Qed.

(** A call of [countNodePathsToRoot] that returns keeps what the table
    had and leaves the count of its node in it. *)
Lemma countNodePathsToRoot_memo g fuel v (cache : gmap string number) c cache' :
  countNodePathsToRoot fuel g v cache = (Ok c, cache') →
  cache ⊆ cache' ∧ cache' !! v = Some c.
Proof.
  revert v cache c cache'. induction fuel as [|fuel IH]; intros v cache c cache'; simpl;
    [done |].
  destruct (cache !! v) as [c0|] eqn:Hhit.
  { intros [= <- <-]. by rewrite orZero_id. }
  unfold sbind at 1, lift. destruct (getNodeParentsNodeIds g v) as [parents| |]; [|done..].
  destruct parents as [|p l].
  - intros [= <- <-]. split; [by apply insert_subseteq | apply lookup_insert_eq].
  - unfold sbind at 1.
    destruct (reduceM _ (p :: l) (Finite 0) cache) as [[count|e|] cache1] eqn:Hred;
      [|done..].
    intros [= <- <-]. destruct (reduce_memo _ _ _ _ _ _ IH Hred) as [Hsub _].
    split; [|apply lookup_insert_eq].
    apply map_subseteq_spec. intros k x Hk.
    rewrite lookup_insert_ne by congruence. by eapply lookup_weaken.
Qed.

Lemma reduce_hits g fuel l cs acc (cache : gmap string number) :
  Forall2 (λ v c, cache !! v = Some c) l cs →
  reduceM (λ acc id, let+ c := countNodePathsToRoot (S fuel) g id in
                     sret (addNumbers acc c))
          l acc cache
  = (Ok (foldl addNumbers acc cs), cache).
Proof.
  intros Hcs. revert acc. induction Hcs as [|v c l cs Hv _ IH]; intros acc; simpl.
  - done.
  - unfold sbind at 1. unfold sbind at 1. rewrite Hv, orZero_id. simpl.
    by rewrite IH.
Qed.

(** X9. A count that [countPathsToRoot] has returned is memoized: asked
    again for the same package, on the caches that the first call left, it
    returns the same number without a recursive call, and leaves the
    caches as they are. *)
Theorem countPathsToRoot_memoized g st pkg fuel n st2 :
  countPathsToRoot fuel g pkg st = (Ok n, st2) →
  ∀ fuel', 0 < fuel' → countPathsToRoot fuel' g pkg st2 = (Ok n, st2).
Proof.
  unfold countPathsToRoot. intros Hfirst fuel' Hfuel'.
  destruct fuel' as [|fuel']; [lia |].
  assert (∃ st1, hasCycles g st = (false, st1) ∧ _hasCycles st1 = Some false)
    as (st1 & Hst1 & Hflag).
  { unfold hasCycles in *. destruct (_hasCycles st) as [[]|] eqn:Hm; try done.
    - by exists st.
    - destruct (negb (isAcyclic (_graph g))); [done |]. eauto. }
  rewrite Hst1 in Hfirst.
  destruct (getPkgNodeIds g pkg) as [ids| |]; [|done..].
  destruct (reduceM _ ids (Finite 0) _) as [r cache] eqn:Hred. injection Hfirst as -> <-.
  destruct (reduce_memo _ _ _ _ _ _ (countNodePathsToRoot_memo g fuel) Hred)
    as (_ & cs & Hcs & ->).
  unfold hasCycles. cbn [_hasCycles]. rewrite Hflag.
  cbn [_hasCycles _countNodePathsToRootCache].
  by rewrite (reduce_hits g fuel' ids cs (Finite 0) cache Hcs).
Qed.

End Walks.

(** ** Structural equality, with the root *)

Section EqualsMore.
Context `{Externals}.
Implicit Types (g gA gB : DepGraphImpl) (G : Graph) (v a b : string).
Implicit Types (T : gset string).

Lemma sameNode_refl g v :
  (∀ i, isEqualInfo i i = true) → sameNode g v g v = true.
Proof.
  intros Hrefl. unfold sameNode. apply andb_true_iff. split.
  - destruct (pkgOfNode g v) as [p|]; simpl; [by apply samePkg_spec | done].
  - simpl. destruct (node (_graph g) v ≫= info); simpl; apply Hrefl.
Qed.

Lemma nodeEquals_refl g compareRoot fuel v T r T' :
  valid g → (∀ i, isEqualInfo i i = true) →
  v ∈ nodes (_graph g) →
  nodeEquals fuel g v g v compareRoot T = (Ok r, T') → r = true.
Proof.
  intros Hg Hrefl. revert v T r T'.
  induction fuel as [|fuel IH]; intros v T r T' Hv; [done |].
  rewrite nodeEquals_S.
  assert ((if comparesNodes g v g v compareRoot then compareNodes g v g v else Ok true)
          = Ok true) as ->.
  { destruct (comparesNodes g v g v compareRoot); [|done].
    by rewrite (compareNodes_Ok _ _ _ _ Hv Hv), sameNode_refl. }
  rewrite (pairDeps_Ok _ _ _ _ Hg Hg Hv Hv), Nat.eqb_refl. simpl.
  apply eachPair_diag. intros x T0 r0 T0' Hx. apply IH.
  rewrite js_sort_perm in Hx. pose proof (valid_sucs_nodes g v Hg) as Hs.
  rewrite Forall_forall in Hs. by apply Hs.
Qed.

(** X10. A valid instance, cyclic or not, equals itself, with or without
    the comparison of the root, provided [_.isEqual] finds a [NodeInfo]
    equal to itself. *)
Theorem equals_reflexive g compareRoot fuel :
  valid g → (∀ i, isEqualInfo i i = true) →
  length (nodes (_graph g)) * length (nodes (_graph g)) < fuel →
  equals fuel g g compareRoot = Ok true.
Proof.
  intros Hg Hrefl Hfuel. pose proof (valid_root g Hg) as Hroot.
  assert (unvisited g g ∅ < fuel) as Hun by (pose proof (unvisited_empty g g); lia).
  destruct (nodeEquals_total g g compareRoot fuel _ _ ∅ Hg Hg Hroot Hroot Hun)
    as (r & T' & Hr & _).
  rewrite !equals_Native. rewrite Hr. simpl. f_equal.
  exact (nodeEquals_refl g compareRoot fuel _ ∅ r T' Hg Hrefl Hroot Hr).
Qed.

Lemma nodeEquals_true_same gA gB fuel a b T T' x y :
  Called gA gB true fuel a b T x y →
  nodeEquals fuel gA a gB b true T = (Ok true, T') →
  sameNode gA x gB y = true.
Proof.
  intros Hcalled. revert T'.
  induction Hcalled as [fuel a b T | fuel a b T pre x y post T1 x' y' Hfirst Hdeps Hpre Hkey _ IH];
    intros T'; rewrite nodeEquals_S.
  - change (comparesNodes gA a gB b true) with true.
    destruct (compareNodes gA a gB b) as [[]| |] eqn:Hc; try done.
    intros _. symmetry. by apply compareNodes_inv.
  - rewrite Hfirst, Hdeps.
    rewrite (eachPair_app _ _ _ _ _ Hpre). simpl. rewrite decide_False by done.
    destruct (nodeEquals fuel gA x gB y true _) as [[[]| |] T2] eqn:Hxy; try done.
    intros _. by eapply IH.
Qed.

(** X11. With the comparison of the root, on two valid instances, one
    pair of nodes that the co-traversal calls [nodeEquals] on and whose
    packages or [info] differ makes [equals] return false. *)
Theorem equals_detects_difference gA gB fuel x y :
  valid gA → valid gB →
  length (nodes (_graph gA)) * length (nodes (_graph gB)) < fuel →
  Called gA gB true fuel (_rootNodeId gA) (_rootNodeId gB) ∅ x y →
  sameNode gA x gB y = false →
  equals fuel gA gB true = Ok false.
Proof.
  intros HA HB Hfuel Hcalled Hdiff.
  pose proof (valid_root gA HA) as Hra. pose proof (valid_root gB HB) as Hrb.
  assert (unvisited gA gB ∅ < fuel) as Hun
    by (pose proof (unvisited_empty gA gB); lia).
  destruct (nodeEquals_total gA gB true fuel _ _ ∅ HA HB Hra Hrb Hun)
    as (r & T' & Hr & _).
  rewrite !equals_Native. rewrite Hr. simpl. destruct r; [|done].
  pose proof (nodeEquals_true_same _ _ _ _ _ _ _ _ _ Hcalled Hr). congruence.
Qed.

End EqualsMore.

(** ** Depth-first search and [directDepsLeadingTo] *)

Section Search.
Context `{Externals}.
Implicit Types (g : DepGraphImpl) (G : Graph) (v w u : string).
Implicit Types (V : gset string) (acc : list string).

Lemma unmet_insert G V v : v ∈ nodes G → v ∉ V → unmet G ({[v]} ∪ V) < unmet G V.
Proof. apply length_filter_notin_insert. Qed.

Lemma unmet_mono G V V' : V ⊆ V' → unmet G V' ≤ unmet G V.
Proof. apply length_filter_notin_mono. Qed.

Lemma search_each G (rec : string → ST (gset string * list string) unit) fuel l V acc :
  (∀ w V acc, w ∈ nodes G → unmet G V < fuel →
              ∃ V' acc', rec w (V, acc) = (Ok (), (V', acc')) ∧
                         searched G [w] V acc V' acc') →
  Forall (λ w, w ∈ nodes G) l →
  unmet G V < fuel →
  ∃ V' acc', reduceM (λ _ w, rec w) l () (V, acc) = (Ok (), (V', acc')) ∧
             searched G l V acc V' acc'.
Proof.
  intros Hrec Hl. revert V acc. induction Hl as [|w l Hw _ IH]; intros V acc HV; simpl.
  - exists V, acc. split; [done |]. split; [done |]. split; [constructor |].
    split; [naive_solver |]. split; naive_solver.
  - unfold sbind at 1.
    destruct (Hrec w V acc Hw HV) as (V1 & acc1 & -> & Hsub1 & Hin1 & Hacc1 & Hreach1 & Hclosed1).
    destruct (IH V1 acc1) as (V2 & acc2 & -> & Hsub2 & Hin2 & Hacc2 & Hreach2 & Hclosed2).
    { pose proof (unmet_mono G _ _ Hsub1). lia. }
    exists V2, acc2. split; [done |]. split; [set_solver |]. split; [|split; [|split]].
    + constructor; [|done]. apply Forall_inv in Hin1. set_solver.
    + intros u. rewrite Hacc2, Hacc1. destruct (decide (u ∈ V1)); set_solver.
    + intros u Hu HuV. destruct (decide (u ∈ V1)) as [Hu1|Hu1].
      * destruct (Hreach1 u Hu1 HuV) as (w' & Hw'%list_elem_of_singleton & Hr).
        exists w'. split; [subst w'; left | done].
      * destruct (Hreach2 u Hu Hu1) as (w' & Hw' & Hr). exists w'. split; [by right | done].
    + intros u x Hu HuV He. destruct (decide (u ∈ V1)) as [Hu1|Hu1].
      * apply Hsub2. by eapply Hclosed1.
      * by eapply Hclosed2.
Qed.

Lemma doDfs_searched g fuel v V acc :
  valid g → v ∈ nodes (_graph g) → unmet (_graph g) V < fuel →
  ∃ V' acc', doDfs fuel (_graph g) v (V, acc) = (Ok (), (V', acc')) ∧
             searched (_graph g) [v] V acc V' acc'.
Proof.
  intros Hg. revert v V acc. induction fuel as [|fuel IH]; intros v V acc Hv HV; [lia |].
  simpl. case_decide as Hmet.
  { exists V, acc. split; [done |]. split; [done |]. split; [by repeat constructor |].
    split; [naive_solver |]. split; naive_solver. }
  pose proof (unmet_insert _ V v Hv Hmet) as Hless.
  pose proof Hv as [n Hn]%node_is_Some. unfold successors. rewrite Hn. simpl.
  unfold sbind at 1.
  destruct (search_each (_graph g) (doDfs fuel (_graph g)) fuel (sucs (_graph g) v)
              ({[v]} ∪ V) acc) as (V2 & acc2 & -> & Hsub & Hin & Hacc & Hreach & Hclosed).
  { intros w V0 acc0 Hw HV0. by apply IH. }
  { by apply valid_sucs_nodes. }
  { lia. }
  simpl. exists V2, (acc2 ++ [v]). split; [done |]. split; [set_solver |].
  split; [constructor; [set_solver | constructor] |]. split; [|split].
  - intros u. rewrite elem_of_app, Hacc, list_elem_of_singleton.
    destruct (decide (u = v)) as [->|]; set_solver.
  - intros u Hu HuV. exists v. split; [left |].
    destruct (decide (u = v)) as [->|Hne]; [done |].
    destruct (Hreach u Hu) as (w & Hw%elem_of_sucs & Hr); [set_solver |].
    by eapply rtc_l.
  - intros u w Hu HuV He. destruct (decide (u = v)) as [->|Hne].
    + rewrite Forall_forall in Hin. by apply Hin, elem_of_sucs.
    + eapply Hclosed; [done | set_solver | done].
Qed.

(** [postorder] from a node of a valid graph returns the nodes that the
    node reaches, itself included. *)
Lemma postorder_reachable g fuel v :
  valid g → v ∈ nodes (_graph g) → length (nodes (_graph g)) < fuel →
  ∃ l, postorder fuel (_graph g) [v] = inr (Ok l) ∧
       ∀ u, u ∈ l ↔ rtc (edge (_graph g)) v u.
Proof.
  intros Hg Hv Hfuel. unfold postorder. simpl.
  pose proof Hv as [n Hn]%node_is_Some. rewrite Hn.
  destruct (doDfs_searched g fuel v ∅ [] Hg Hv)
    as (V' & l & -> & _ & Hin & Hacc & Hreach & Hclosed).
  { unfold unmet. eapply Nat.le_lt_trans; [apply length_filter | exact Hfuel]. }
  exists l. split; [done |]. intros u. rewrite Hacc. split.
  - intros [?%elem_of_nil | [Hu _]]; [done |].
    destruct (Hreach u Hu) as (w & Hw%list_elem_of_singleton & Hr); [set_solver |].
    by subst w.
  - intros Hr. right. split; [|set_solver].
    revert u Hr. apply rtc_ind_r.
    + by apply Forall_inv in Hin.
    + intros u w _ Huw IH. eapply Hclosed; [exact IH | set_solver | done].
Qed.

Lemma filterDeps_spec (keep : string → GraphlibError + outcome bool) (P : string → Prop) l :
  (∀ d, d ∈ l → ∃ b : bool, keep d = inr (Ok b) ∧ (b = true ↔ P d)) →
  ∃ ds, filterDeps keep l = inr (Ok ds) ∧ sublist ds l ∧ ∀ d, d ∈ ds ↔ d ∈ l ∧ P d.
Proof.
  induction l as [|d l IH]; intros Hkeep; simpl.
  - exists []. split; [done |]. split; [done |]. set_solver.
  - destruct (Hkeep d) as (b & -> & Hb); [left |].
    destruct IH as (ds & -> & Hsub & Hin); [intros; apply Hkeep; by right |].
    destruct b.
    + exists (d :: ds). split; [done |]. split; [by constructor |].
      intros d'. rewrite !elem_of_cons, Hin. split; [|tauto].
      intros [-> | ?]; [|tauto]. split; [by left | by apply Hb].
    + exists ds. split; [done |]. split; [by constructor |].
      intros d'. rewrite elem_of_cons, Hin. split; [tauto |].
      intros [[-> | ?] HP]; [|done]. apply Hb in HP. done.
Qed.

(** X12. On a valid instance [directDepsLeadingTo] throws `no such pkg`
    for a package that the registry does not have, and returns for a
    registered package the packages of those direct dependencies of the
    root, in their order, from which a node of the package can be reached
    along the edges (the direct dependency itself included). *)
Theorem directDepsLeadingTo_reachable g pkg fuel :
  valid g → length (nodes (_graph g)) < fuel →
  (assoc (getPkgId pkg) (_pkgs g) = None →
     directDepsLeadingTo fuel g pkg = inr (Throw (NoSuchPkg (getPkgId pkg)))) ∧
  (is_Some (assoc (getPkgId pkg) (_pkgs g)) →
     ∃ ds, directDepsLeadingTo fuel g pkg = inr (Ok (pkgOfNode g <$> ds)) ∧
           sublist ds (sucs (_graph g) (_rootNodeId g)) ∧
           ∀ d, d ∈ ds ↔
                edge (_graph g) (_rootNodeId g) d ∧
                ∃ n, occurrence g pkg n ∧ rtc (edge (_graph g)) d n).
Proof.
  intros Hg Hfuel. unfold directDepsLeadingTo. split.
  { intros Hp. unfold getPkgNodeIds. by rewrite Hp. }
  intros [p Hp].
  destruct (getPkgNodeIds_registered g pkg p Hg Hp) as (ids & -> & _ & Hocc).
  pose proof (valid_root g Hg) as [n Hn]%node_is_Some.
  unfold getNodeDepsNodeIds, successors. rewrite Hn.
  destruct (filterDeps_spec (leadsTo fuel g ids)
              (λ d, ∃ n, occurrence g pkg n ∧ rtc (edge (_graph g)) d n)
              (sucs (_graph g) (_rootNodeId g))) as (ds & -> & Hsub & Hin).
  { intros d Hd. pose proof (valid_sucs_nodes g (_rootNodeId g) Hg) as Hs.
    rewrite Forall_forall in Hs. specialize (Hs d Hd).
    destruct (postorder_reachable g fuel d Hg Hs Hfuel) as (l & Hpost & Hl).
    unfold leadsTo. rewrite Hpost. eexists. split; [done |].
    rewrite negb_true_iff, Nat.eqb_neq. split.
    - intros Hlen. destruct (filter _ l) as [|u l'] eqn:Hf; [done |].
      assert (u ∈ filter (λ n, n ∈ ids) l) as [Hu Hul]%list_elem_of_filter
        by (rewrite Hf; left).
      exists u. split; [by apply occurrence_node, Hocc | by apply Hl].
    - intros (u & Hu%occurrence_node%Hocc & Hr%Hl) Hlen.
      assert (u ∈ filter (λ n, n ∈ ids) l) as Hin by (by apply list_elem_of_filter).
      destruct (filter _ l); [by apply elem_of_nil in Hin | done]. }
  exists ds. split; [|split; [done |]].
  - f_equal. apply forM_total, Forall_forall. intros d [Hd _]%Hin.
    pose proof (valid_sucs_nodes g (_rootNodeId g) Hg) as Hs.
    rewrite Forall_forall in Hs. apply Hs, node_is_Some in Hd as [m Hm].
    by eapply getNodePkg_Ok.
  - intros d. by rewrite Hin, elem_of_sucs.
Qed.

End Search.

(** ** Serialization *)

Section ToJSON.
Context `{Externals} (isEmptyInfo : NodeInfo → bool).
Implicit Types (g : DepGraphImpl) (G : Graph) (v : string).

Lemma toJSON_nodes g :
  forM (λ nodeId,
          let deps := default [] (successors (_graph g) nodeId) in
          match node (_graph g) nodeId with
          | None => Throw TypeError
          | Some n =>
              Ok {| d_nodeId := nodeId; d_pkgId := pkgId n; d_deps := deps;
                    d_info := if negb (isEmpty isEmptyInfo (info n)) then info n else None |}
          end)
       (nodes (_graph g))
  = Ok (nodeData isEmptyInfo g <$> nodes (_graph g)).
Proof.
  apply forM_total, Forall_forall. intros v [n Hn]%node_is_Some.
  unfold nodeData, successors. by rewrite Hn.
Qed.

(** X13. [toJSON] does not throw.  Its document has the schema version
    and the root of the instance, one entry per node of the graph, in the
    graph's order, with the node's [pkgId], its successors as [deps] and
    its [info] unless that is empty, and one entry per package of the
    registry, in the registry's order; from a valid instance the document
    has no dangling reference. *)
Theorem toJSON_document g :
  ∃ d, toJSON isEmptyInfo g = Ok d ∧
       d_schemaVersion d = SCHEMA_VERSION ∧
       d_rootNodeId d = _rootNodeId g ∧
       d_nodes d = nodeData isEmptyInfo g <$> nodes (_graph g) ∧
       d_nodeId <$> d_nodes d = nodes (_graph g) ∧
       (d_pkgs d).*1 = (_pkgs g).*1 ∧
       Forall (λ n, ∀ i, d_info n = Some i → isEmptyInfo i = false) (d_nodes d) ∧
       (valid g →
          d_pkgs d = (λ kp, (kp.1, Some kp.2)) <$> _pkgs g ∧ consistent d).
Proof.
  unfold toJSON. rewrite toJSON_nodes. simpl. eexists. split; [done |]. simpl.
  assert (d_nodeId <$> (nodeData isEmptyInfo g <$> nodes (_graph g)) = nodes (_graph g))
    as Hids.
  { rewrite <-list_fmap_compose. by rewrite <-(list_fmap_id (nodes (_graph g))) at 2. }
  assert (((λ pkgId : string, (pkgId, assoc pkgId (_pkgs g))) <$> (_pkgs g).*1).*1
          = (_pkgs g).*1) as Hkeys.
  { rewrite <-list_fmap_compose. by rewrite <-(list_fmap_id (_pkgs g).*1) at 2. }
  split; [done |]. split; [done |]. split; [done |]. split; [done |]. split; [done |].
  split.
  { apply Forall_fmap, Forall_forall. intros v _ i. unfold nodeData. simpl.
    destruct (node (_graph g) v ≫= info) as [j|]; simpl; [|done].
    destruct (isEmptyInfo j) eqn:Hj; simpl; [done |]. by intros [= <-]. }
  intros Hg. split.
  { rewrite <-list_fmap_compose. apply list_fmap_ext. intros _ [k p] Hkp%list_elem_of_lookup_2.
    simpl. f_equal. by apply assoc_elem_NoDup; [apply (valid_pkg_keys g Hg) |]. }
  split; simpl.
  - rewrite Hids. apply (valid_root g Hg).
  - rewrite Hids. apply (valid_node_ids g Hg).
  - rewrite Hkeys. apply (valid_pkg_keys g Hg).
  - apply Forall_fmap, Forall_forall. intros k Hk. simpl. by apply assoc_is_Some.
  - rewrite Hids. apply Forall_fmap, Forall_forall. intros v _. simpl.
    apply valid_sucs_nodes, Hg.
  - rewrite Hkeys. apply Forall_fmap, Forall_forall. intros v [n Hn]%node_is_Some.
    simpl. rewrite Hn. simpl. apply assoc_is_Some. by eapply valid_node_registered.
Qed.

End ToJSON.

(** ** The constructor, and the two ways to compare *)

Section ConstructAndCompare.
Context `{Externals}.
Implicit Types (g gA gB : DepGraphImpl) (G : Graph) (v a b : string).
Implicit Types (T : gset string).

(** X14. The constructor throws, a [TypeError], exactly when the root
    is not a node of the graph; the instance it builds otherwise keeps its
    arguments, has the registry's values as [getPkgs], and has as root
    package the package of its root node, the one that [getNodePkg] and
    [getNode] return for it. *)
Theorem construct_root graph rootNodeId pkgs pkgNodes pkgManager :
  (rootNodeId ∉ nodes graph ↔
     construct graph rootNodeId pkgs pkgNodes pkgManager = Throw TypeError) ∧
  (rootNodeId ∈ nodes graph ↔
     ∃ g, construct graph rootNodeId pkgs pkgNodes pkgManager = Ok g) ∧
  (∀ g, construct graph rootNodeId pkgs pkgNodes pkgManager = Ok g →
        _graph g = graph ∧ _rootNodeId g = rootNodeId ∧ _pkgs g = pkgs ∧
        _pkgNodes g = pkgNodes ∧
        getPkgs g = pkgs.*2 ∧
        getNodePkg g rootNodeId = Ok (rootPkg g) ∧
        ∃ view, getNode g rootNodeId = Ok view ∧ n_pkg view = rootPkg g).
Proof.
  unfold construct. destruct (node graph rootNodeId) as [n|] eqn:Hn.
  - assert (rootNodeId ∈ nodes graph) as Hin by (apply node_is_Some; eauto).
    split; [split; [done | done] |]. split; [split; eauto |].
    intros g [= <-]. repeat (split; [done |]).
    unfold getNode, getNodePkg, getGraphNode, rootPkg. simpl. rewrite Hn. simpl.
    split; [done |]. by eexists.
  - assert (rootNodeId ∉ nodes graph) as Hout by (by apply node_None).
    split; [done |]. split; [|done]. split; [done | by intros [? ?]].
Qed.

Lemma eachPair_weaker (rec rec' : string → string → ST (gset string) bool) pairs T T' :
  (∀ a b T T', rec a b T = (Ok true, T') → rec' a b T = (Ok true, T')) →
  eachPair rec pairs T = (Ok true, T') → eachPair rec' pairs T = (Ok true, T').
Proof.
  intros Hrec. revert T. induction pairs as [|[a b] pairs IH]; intros T; simpl; [done |].
  case_decide; [apply IH |].
  destruct (rec a b _) as [[[]| |] T2] eqn:Hab; try done.
  rewrite (Hrec _ _ _ _ Hab). apply IH.
Qed.

Lemma nodeEquals_weaker gA gB fuel a b T T' :
  nodeEquals fuel gA a gB b true T = (Ok true, T') →
  nodeEquals fuel gA a gB b false T = (Ok true, T').
Proof.
  revert a b T T'. induction fuel as [|fuel IH]; intros a b T T'; [done |].
  rewrite !nodeEquals_S. change (comparesNodes gA a gB b true) with true.
  destruct (compareNodes gA a gB b) as [[]| |] eqn:Hc; try done.
  assert ((if comparesNodes gA a gB b false then Ok true else Ok true)
          = (Ok true : outcome bool)) as -> by (by destruct (comparesNodes _ _ _ _ _)).
  destruct (pairDeps gA a gB b) as [[pairs|]| |]; try done.
  apply eachPair_weaker. intros a' b' T0 T0'. apply IH.
Qed.

(** X15. Leaving the root out only weakens the comparison: two
    instances that [equals] finds equal with [compareRoot] are found equal
    without it. *)
Theorem equals_without_root_weaker gA gB fuel :
  equals fuel gA gB true = Ok true → equals fuel gA gB false = Ok true.
Proof.
  rewrite !equals_Native.
  destruct (nodeEquals fuel gA _ gB _ true ∅) as [r T'] eqn:Hr. simpl. intros ->.
  by rewrite (nodeEquals_weaker _ _ _ _ _ _ _ Hr).
Qed.

End ConstructAndCompare.
(** * The properties on concrete instances *)

Import Examples.
Open Scope string_scope.

Lemma diamond_valid : valid diamond.
Proof. split; compute_done. Qed.

Lemma diamond2_valid : valid diamond2.
Proof. split; compute_done. Qed.

Lemma loopA_valid : valid loopA.
Proof. split; compute_done. Qed.

Lemma loopB_valid : valid loopB.
Proof. split; compute_done. Qed.

Lemma diamond_same_below_root : same_below_root diamond diamond2.
Proof. split; compute_done. Qed.

Lemma noCaches_ok `{Externals} (g : DepGraphImpl) : caches_ok g noCaches.
Proof. split; [apply memo_ok_noCaches | apply cache_ok_empty]. Qed.

(** The comparator of the examples orders any two strings. *)
Lemma ext_localeCompare_total x y :
  (@localeCompare ext x y <= 0)%Z ∨ (@localeCompare ext y x <= 0)%Z.
Proof.
  simpl. rewrite (String.compare_antisym x y).
  destruct (String.compare y x); simpl; lia.
Qed.




(** The sums of the counts are the sums of [binary64], here on sums that
    are exact, rounded down, rounded up and infinite. *)
Example addNumbers_binary64 :
  Forall (λ ab : N * N,
            SFcompare (SFadd 53 1024 (toDouble (Finite ab.1)) (toDouble (Finite ab.2)))
                      (toDouble (addNumbers (Finite ab.1) (Finite ab.2))) = Some Eq)
         [(0, 0); (5, 7); (2 ^ 53 - 1, 1); (2 ^ 53, 1); (2 ^ 53, 3); (2 ^ 53 + 2, 1);
          (2 ^ 53 + 2, 3); (2 ^ 54 - 2, 3); (2 ^ 60, 2 ^ 7); (2 ^ 60, 2 ^ 7 + 1);
          (2 ^ 1023, 2 ^ 1023 - 2 ^ 971); (2 ^ 1023, 2 ^ 1023 - 2 ^ 970);
          (2 ^ 1023, 2 ^ 1023)]%N ∧
  addNumbers (Finite (2 ^ 53)) (Finite 1) = Finite (2 ^ 53) ∧
  addNumbers (Finite (2 ^ 53)) (Finite 3) = Finite (2 ^ 53 + 4) ∧
  addNumbers (Finite (2 ^ 1023)) (Finite (2 ^ 1023)) = Infinity.
Proof. split; [|by vm_compute]. repeat constructor; by vm_compute. Qed.

Lemma pkgPathsToRoot_spec_witness :
  valid diamond ∧ (hasCycles diamond noCaches).1 = false ∧
  ∃ ids pss paths,
    getPkgNodeIds diamond pkgD = Ok ids ∧ NoDup ids ∧
    (∀ v, v ∈ ids ↔ ∃ n, node (_graph diamond) v = Some n ∧ pkgId n = getPkgId pkgD) ∧
    Forall2 (UpPaths diamond) ids pss ∧
    (pkgPathsToRoot 4 diamond pkgD noCaches).1 = Ok paths ∧
    paths = js_sort byLength (concat pss) ∧
    paths ≡ₚ concat pss ∧
    Sorted shorter paths ∧
    ∀ n, filter (λ path, length path = n) paths
         = filter (λ path, length path = n) (concat pss).
Proof.
  split; [exact diamond_valid |]. split; [reflexivity |].
  apply (pkgPathsToRoot_spec diamond noCaches pkgD (pkgInfo 3 "D" "1.0.0") 4).
  - exact diamond_valid.
  - apply memo_ok_noCaches.
  - reflexivity.
  - reflexivity.
  - simpl. lia.
Defined.

(** The diamond of the specification: two paths of three packages, and a
    count of two. *)
Example diamond_paths :
  (pkgPathsToRoot 4 diamond pkgD noCaches).1
  = Ok [[Some (pkgInfo 3 "D" "1.0.0"); Some (pkgInfo 1 "B" "1.0.0");
         Some (pkgInfo 0 "A" "1.0.0")];
        [Some (pkgInfo 3 "D" "1.0.0"); Some (pkgInfo 2 "C" "1.0.0");
         Some (pkgInfo 0 "A" "1.0.0")]] ∧
  (countPathsToRoot 4 diamond pkgD noCaches).1 = Ok (Finite 2).
Proof. split; reflexivity. Qed.

Lemma equals_without_root_witness :
  valid diamond ∧ valid diamond2 ∧ same_below_root diamond diamond2 ∧
  equals 17 diamond diamond2 false = Ok true.
Proof.
  split; [exact diamond_valid |]. split; [exact diamond2_valid |].
  split; [exact diamond_same_below_root |].
  destruct (equals_without_root diamond diamond2 diamond_valid diamond2_valid)
    as (_ & _ & _ & Hsame).
  apply (Hsame diamond_same_below_root). simpl. lia.
Defined.

(** C3, as the specification has it, fails on two cyclic graphs: the
    co-traversal of [loopA] and [loopB] calls [nodeEquals] on the root of
    the first and the node [x] of the second, which is not its root; their
    packages differ, the comparison of the two is skipped all the same, and
    [equals] returns true. *)
Lemma equals_skips_root_against_other :
  valid loopA ∧ valid loopB ∧
  Called loopA loopB false 20 (_rootNodeId loopA) (_rootNodeId loopB) ∅ "root" "x" ∧
  "x" ≠ _rootNodeId loopB ∧
  sameNode loopA "root" loopB "x" = false ∧
  equals 20 loopA loopB false = Ok true.
Proof.
  split; [exact loopA_valid |]. split; [exact loopB_valid |].
  split; [|split; [done | split; reflexivity]].
  apply (Called_below loopA loopB false 19 "root" "root" ∅ [] "a" "a" [] ∅);
    [reflexivity | reflexivity | reflexivity | set_solver |].
  apply (Called_below loopA loopB false 18 "a" "a" _ [] "root" "x" [] ({["a_a"]} ∪ ∅));
    [reflexivity | reflexivity | reflexivity | |].
  - change (pairKey "root" "x") with "root_x". set_solver.
  - apply Called_self.
Qed.

Lemma mixedA_valid : valid Collation.mixedA.
Proof. split; compute_done. Qed.

Lemma mixedB_valid : valid Collation.mixedB.
Proof. split; compute_done. Qed.

(** The collation orders any two strings. *)
Lemma collate_total x y :
  (Collation.collate x y <= 0)%Z ∨ (Collation.collate y x <= 0)%Z.
Proof.
  unfold Collation.collate.
  rewrite (String.compare_antisym (Collation.foldCase x) (Collation.foldCase y)).
  rewrite (String.compare_antisym x y).
  destruct (String.compare (Collation.foldCase y) (Collation.foldCase x)); simpl;
    try lia.
  destruct (String.compare y x); simpl; lia.
Qed.

Lemma nodeEquals_pairs_sorted_deps_witness :
  valid Collation.mixedA ∧ valid Collation.mixedB ∧
  sucs (_graph Collation.mixedA) "root" = ["x"; "y"] ∧
  sucs (_graph Collation.mixedB) "root" = ["p"; "q"] ∧
  sortDeps Collation.mixedA ["x"; "y"] = Ok ["y"; "x"] ∧
  sortDeps Collation.mixedB ["p"; "q"] = Ok ["p"; "q"] ∧
  Pairwise (λ x y, nodeEquals 9 Collation.mixedA x Collation.mixedB y true)
           [("y", "p"); ("x", "q")] ∅
           (nodeEquals 10 Collation.mixedA "root" Collation.mixedB "root" true ∅).
Proof.
  split; [exact mixedA_valid |]. split; [exact mixedB_valid |].
  split; [reflexivity |]. split; [reflexivity |].
  split; [reflexivity |]. split; [reflexivity |].
  destruct (nodeEquals_pairs_sorted_deps Collation.mixedA Collation.mixedB
              "root" "root" true 9 ∅ mixedA_valid mixedB_valid collate_total)
    as (_ & depsA & depsB & HdepsA & HdepsB & _ & _ & Hloop).
  - compute_done.
  - compute_done.
  - reflexivity.
  - injection HdepsA as <-. injection HdepsB as <-. apply Hloop. reflexivity.
Defined.

(** C4, as the specification has it, fails where the collation of the
    runtime is not the order of the code units: [Bar@1.0.0] comes before
    [apple@1.0.0] in the plain comparison of the two strings, and after it
    for [localeCompare]; the dependencies [x], of package [Bar@1.0.0], and
    [y], of package [apple@1.0.0], are sorted [y], [x], and paired with the
    dependencies of the other side in this order. *)
Lemma sortDeps_by_collation :
  valid Collation.mixedA ∧ valid Collation.mixedB ∧
  getNodeDepsNodeIds Collation.mixedA "root" = Ok ["x"; "y"] ∧
  depPkgId Collation.mixedA "x" = Ok "Bar@1.0.0" ∧
  depPkgId Collation.mixedA "y" = Ok "apple@1.0.0" ∧
  String.ltb "Bar@1.0.0" "apple@1.0.0" = true ∧
  (Collation.collate "apple@1.0.0" "Bar@1.0.0" < 0)%Z ∧
  sortDeps Collation.mixedA ["x"; "y"] = Ok ["y"; "x"] ∧
  pairDeps Collation.mixedA "root" Collation.mixedB "root"
  = Ok (Some [("y", "p"); ("x", "q")]).
Proof.
  split; [exact mixedA_valid |]. split; [exact mixedB_valid |].
  repeat split; reflexivity.
Qed.

Lemma cyclic_graphs_unsupported_witness :
  valid loopA ∧ cyclic (_graph loopA) ∧
  (pkgPathsToRoot 2 loopA pkgD noCaches).1 = Throw (CyclicUnsupported "pkgPathsToRoot") ∧
  (countPathsToRoot 2 loopA pkgD noCaches).1 = Throw (CyclicUnsupported "countPathsToRoot").
Proof.
  destruct (cyclic_graphs_unsupported loopA noCaches pkgD 2 loopA_valid
              (memo_ok_noCaches loopA)) as (Hflag & Hcyclic & _).
  assert (cyclic (_graph loopA)) as Hc by (apply Hflag; reflexivity).
  split; [exact loopA_valid |]. split; [exact Hc |]. exact (Hcyclic Hc).
Defined.

(** C6. On the diamond, whose registry does not have [left-pad@1.3.0],
    [getPkgNodes] throws the [TypeError] of [Array.from(undefined)], where
    [getPkgNodeIds] throws `no such pkg`. *)
Theorem getPkgNodes_unknown_package :
  valid diamond ∧
  assoc (getPkgId pkgUnknown) (_pkgs diamond) = None ∧
  getPkgNodes diamond pkgUnknown = Throw TypeError ∧
  getPkgNodeIds diamond pkgUnknown = Throw (NoSuchPkg "left-pad@1.3.0").
Proof. split; [exact diamond_valid |]. repeat split; reflexivity. Qed.

Lemma node_lookups_witness :
  valid diamond ∧
  getNode diamond "nowhere" = Throw (NoSuchNode "nowhere") ∧
  getNode diamond "D" = Ok (viewOf diamond "D") ∧
  getNodeDepsNodeIds diamond "root" = Ok ["B"; "C"] ∧
  getNodeParentsNodeIds diamond "D" = Ok ["B"; "C"].
Proof.
  split; [exact diamond_valid |].
  destruct (node_lookups diamond "nowhere" diamond_valid) as [Hunknown _].
  destruct (node_lookups diamond "D" diamond_valid) as [_ Hknown].
  split; [apply Hunknown; compute_done |].
  split; [apply Hknown; compute_done |].
  split; reflexivity.
Defined.

Lemma getDepPkgs_by_identity_witness :
  construct diamondGraph "root" (diamondPkgs "1.0.0")
            (list_to_map (diamondIndex "1.0.0")) "npm" = Ok diamond ∧
  valid diamond ∧
  ∃ root, rootPkg diamond = Some root ∧
          getPkgs diamond = (_pkgs diamond).*2 ∧
          getDepPkgs diamond
          = List.filter (λ pkg : PkgInfo, negb (samePkg pkg root)) (getPkgs diamond).
Proof.
  split; [reflexivity |]. split; [exact diamond_valid |].
  apply (getDepPkgs_by_identity diamondGraph "root" (diamondPkgs "1.0.0")
           (list_to_map (diamondIndex "1.0.0")) "npm" diamond).
  - reflexivity.
  - exact diamond_valid.
Defined.

Lemma equals_returns_witness :
  valid diamond ∧ valid diamond2 ∧ valid loopA ∧ valid loopB ∧
  mismatch diamond diamond2 true "root" "root" ∧
  equals 17 diamond diamond2 true = Ok false ∧
  (∃ r : bool, equals 7 loopA loopB false = Ok r) ∧
  equals 17 diamond (Foreign (diamondDocument "1.2.0")) true
  = equals 17 diamond diamond true.
Proof.
  assert (mismatch diamond diamond2 true "root" "root") as Hdiff
    by (left; split; reflexivity).
  split; [exact diamond_valid |]. split; [exact diamond2_valid |].
  split; [exact loopA_valid |]. split; [exact loopB_valid |]. split; [exact Hdiff |].
  destruct (equals_returns diamond true 17 diamond_valid) as (Hnative & _ & Hbuilt).
  destruct (equals_returns loopA false 7 loopA_valid) as (Hloop & _ & _).
  split; [|split].
  - destruct (Hnative diamond2 diamond2_valid) as (r & -> & Hfalse); [simpl; lia |].
    f_equal. apply (Hfalse "root" "root"); [|exact Hdiff].
    apply (Called_self diamond diamond2 true 16 "root" "root" ∅).
  - destruct (Hloop loopB loopB_valid) as (r & Hr & _); [simpl; lia |]. by exists r.
  - apply Hbuilt. reflexivity.
Defined.

Lemma diamondDocument_consistent schemaVersion :
  consistent (diamondDocument schemaVersion).
Proof. split; compute_done. Qed.

(** C9, as the specification has it, fails against an object of another
    class: [equals] rebuilds it with [createFromJSON], which rejects a
    document of another major schema version.  The object here is the
    diamond of a producer of version [2.0.0], and [equals] raises. *)
Lemma equals_raises_on_other_schema :
  valid diamond ∧
  consistent (diamondDocument "2.0.0") ∧
  toJSON noLabels diamond = Ok (diamondDocument SCHEMA_VERSION) ∧
  equals 17 diamond (Foreign (diamondDocument SCHEMA_VERSION)) true = Ok true ∧
  equals 17 diamond (Foreign (diamondDocument "2.0.0")) true
  = Throw (IncompatibleSchema "2.0.0") ∧
  equals 17 diamond (Foreign (diamondDocument "2.0.0")) false
  = Throw (IncompatibleSchema "2.0.0").
Proof.
  split; [exact diamond_valid |]. split; [apply diamondDocument_consistent |].
  repeat split; reflexivity.
Qed.

(** Where the root is a dependency inside a cycle, the two sides sort it
    differently, and another version of the root package alone makes
    [equals] without [compareRoot] return false. *)
Example equals_root_version_in_cycle :
  valid (ring "1.0.0") ∧ valid (ring "3.0.0") ∧
  nodes (_graph (ring "1.0.0")) = nodes (_graph (ring "3.0.0")) ∧
  _edges (_graph (ring "1.0.0")) = _edges (_graph (ring "3.0.0")) ∧
  Forall (λ v, v ≠ "root" → sameNode (ring "1.0.0") v (ring "3.0.0") v = true)
         (nodes (_graph (ring "1.0.0"))) ∧
  equals 10 (ring "1.0.0") (ring "3.0.0") false = Ok false.
Proof.
  split; [split; compute_done |]. split; [split; compute_done |].
  split; [reflexivity |]. split; [reflexivity |].
  split; [compute_done | reflexivity].
Qed.

(** The filter of the constructor looks at the object, not at its name and
    version: in a registry that holds a second object with the root's name
    and version, that object stays among the dependency packages. *)
Example getDepPkgs_by_reference :
  getDepPkgs twins = [pkgInfo 1 "A" "1.0.0"] ∧
  rootPkg twins = Some (pkgInfo 0 "A" "1.0.0") ∧
  samePkg (pkgInfo 1 "A" "1.0.0") (pkgInfo 0 "A" "1.0.0") = true ∧
  ¬ valid twins.
Proof.
  repeat split; try reflexivity. intros Hv. pose proof (valid_pkg_ids twins Hv) as Hids.
  rewrite Forall_forall in Hids. specialize (Hids ("alias", pkgInfo 1 "A" "1.0.0")).
  discriminate Hids. compute_done.
Qed.

(** ** The rest of the engine on concrete instances *)

Lemma diamondLeaf_valid : valid diamondLeaf.
Proof. split; compute_done. Qed.

Lemma getPkgNodeIds_occurrences_witness :
  valid diamond ∧
  getPkgNodeIds diamond pkgUnknown = Throw (NoSuchPkg (getPkgId pkgUnknown)) ∧
  ∀ ids, getPkgNodeIds diamond pkgD = Ok ids →
         NoDup ids ∧ ∀ v, v ∈ ids ↔ occurrence diamond pkgD v.
Proof.
  split; [exact diamond_valid |].
  destruct (getPkgNodeIds_occurrences diamond pkgUnknown diamond_valid) as (Hunknown & _ & _).
  destruct (getPkgNodeIds_occurrences diamond pkgD diamond_valid) as (_ & _ & Hknown).
  split; [apply Hunknown; reflexivity | exact Hknown].
Defined.

Lemma getPkgNodes_agrees_with_getNode_witness :
  valid diamond ∧
  ∃ ids views,
    getPkgNodeIds diamond pkgD = Ok ids ∧
    getPkgNodes diamond pkgD = Ok views ∧
    n_id <$> views = ids ∧
    Forall (λ view, getNode diamond (n_id view) = Ok view ∧
                    n_pkg view = Some (pkgInfo 3 "D" "1.0.0")) views.
Proof.
  split; [exact diamond_valid |].
  apply (getPkgNodes_agrees_with_getNode diamond pkgD (pkgInfo 3 "D" "1.0.0")).
  - exact diamond_valid.
  - reflexivity.
Defined.

Lemma getNodePkg_registered_witness :
  valid diamond ∧ "D" ∈ nodes (_graph diamond) ∧
  ∃ n p, node (_graph diamond) "D" = Some n ∧
         getNodePkg diamond "D" = Ok (Some p) ∧
         (pkgId n, p) ∈ _pkgs diamond ∧
         getPkgId p = pkgId n.
Proof.
  split; [exact diamond_valid |]. split; [compute_done |].
  destruct (getNodePkg_registered diamond "D" diamond_valid) as [_ Hknown].
  apply Hknown. compute_done.
Defined.

Lemma deps_and_parents_agree_witness :
  valid diamond ∧
  ((∃ deps, getNodeDepsNodeIds diamond "B" = Ok deps ∧ "D" ∈ deps) ↔
   (∃ parents, getNodeParentsNodeIds diamond "D" = Ok parents ∧ "B" ∈ parents)).
Proof.
  split; [exact diamond_valid |].
  apply (deps_and_parents_agree diamond "B" "D"). exact diamond_valid.
Defined.

Lemma getDepPkgs_drops_root_witness :
  construct diamondGraph "root" (diamondPkgs "1.0.0")
            (list_to_map (diamondIndex "1.0.0")) "npm" = Ok diamond ∧
  valid diamond ∧
  ∃ root before after,
    rootPkg diamond = Some root ∧
    getPkgs diamond = (before ++ root :: after)%list ∧
    getDepPkgs diamond = (before ++ after)%list ∧
    root ∉ getDepPkgs diamond.
Proof.
  split; [reflexivity |]. split; [exact diamond_valid |].
  apply (getDepPkgs_drops_root diamondGraph "root" (diamondPkgs "1.0.0")
           (list_to_map (diamondIndex "1.0.0")) "npm" diamond).
  - reflexivity.
  - exact diamond_valid.
Defined.

Lemma path_queries_unknown_package_witness :
  (hasCycles diamond noCaches).1 = false ∧
  assoc (getPkgId pkgUnknown) (_pkgs diamond) = None ∧
  (pkgPathsToRoot 4 diamond pkgUnknown noCaches).1
  = Throw (NoSuchPkg (getPkgId pkgUnknown)) ∧
  (countPathsToRoot 4 diamond pkgUnknown noCaches).1
  = Throw (NoSuchPkg (getPkgId pkgUnknown)).
Proof.
  split; [reflexivity |]. split; [reflexivity |].
  apply (path_queries_unknown_package diamond noCaches pkgUnknown 4); reflexivity.
Defined.

Lemma pkgPathsToRoot_walks_witness :
  valid diamond ∧ (hasCycles diamond noCaches).1 = false ∧
  ∃ paths walks,
    (pkgPathsToRoot 4 diamond pkgD noCaches).1 = Ok paths ∧
    paths ≡ₚ (λ walk : list string, pkgOfNode diamond <$> walk) <$> walks ∧
    NoDup walks ∧
    ∀ walk, walk ∈ walks ↔
            ∃ v, occurrence diamond pkgD v ∧ walkToTop (_graph diamond) v walk.
Proof.
  split; [exact diamond_valid |]. split; [reflexivity |].
  apply (pkgPathsToRoot_walks diamond noCaches pkgD (pkgInfo 3 "D" "1.0.0") 4).
  - exact diamond_valid.
  - apply memo_ok_noCaches.
  - reflexivity.
  - reflexivity.
  - simpl. lia.
Defined.

Lemma countPathsToRoot_walks_witness :
  valid diamond ∧ (hasCycles diamond noCaches).1 = false ∧
  ∃ ids walks count st2,
    getPkgNodeIds diamond pkgD = Ok ids ∧
    countPathsToRoot 4 diamond pkgD noCaches = (Ok count, st2) ∧
    NoDup walks ∧
    (∀ walk, walk ∈ walks ↔
             ∃ v, occurrence diamond pkgD v ∧ walkToTop (_graph diamond) v walk) ∧
    (length ids ≤ length walks)%nat ∧
    ((N.of_nat (length walks) ≤ exactUpTo)%N → count = lengthOf walks).
Proof.
  split; [exact diamond_valid |]. split; [reflexivity |].
  apply (countPathsToRoot_walks diamond noCaches pkgD (pkgInfo 3 "D" "1.0.0") 4).
  - exact diamond_valid.
  - apply noCaches_ok.
  - reflexivity.
  - reflexivity.
  - simpl. lia.
Defined.

Lemma countPathsToRoot_memoized_witness :
  (countPathsToRoot 4 diamond pkgD noCaches).1 = Ok (Finite 2) ∧
  countPathsToRoot 1 diamond pkgD (countPathsToRoot 4 diamond pkgD noCaches).2
  = (Ok (Finite 2), (countPathsToRoot 4 diamond pkgD noCaches).2).
Proof.
  split; [reflexivity |].
  apply (countPathsToRoot_memoized diamond noCaches pkgD 4 (Finite 2)).
  - destruct (countPathsToRoot 4 diamond pkgD noCaches) as [r st2] eqn:Hr.
    assert (r = (countPathsToRoot 4 diamond pkgD noCaches).1) as -> by (by rewrite Hr).
    reflexivity.
  - lia.
Defined.

Lemma equals_reflexive_witness :
  valid loopB ∧ equals 10 loopB loopB true = Ok true.
Proof.
  split; [exact loopB_valid |].
  apply (equals_reflexive loopB true 10).
  - exact loopB_valid.
  - intros i. simpl. apply bool_decide_eq_true. reflexivity.
  - simpl. lia.
Defined.

Lemma equals_detects_difference_witness :
  valid diamond ∧ valid diamondLeaf ∧
  Called diamond diamondLeaf true 17 "root" "root" ∅ "D" "D" ∧
  sameNode diamond "D" diamondLeaf "D" = false ∧
  equals 17 diamond diamondLeaf true = Ok false.
Proof.
  assert (Called diamond diamondLeaf true 17 "root" "root" ∅ "D" "D") as Hcalled.
  { apply (Called_below diamond diamondLeaf true 16 "root" "root" ∅
             [] "B" "B" [("C", "C")] ∅);
      [reflexivity | reflexivity | reflexivity | set_solver |].
    apply (Called_below diamond diamondLeaf true 15 "B" "B" _
             [] "D" "D" [] ({["B_B"]} ∪ ∅));
      [reflexivity | reflexivity | reflexivity | |].
    - change (pairKey "D" "D") with "D_D". set_solver.
    - apply Called_self. }
  split; [exact diamond_valid |]. split; [exact diamondLeaf_valid |].
  split; [exact Hcalled |]. split; [reflexivity |].
  apply (equals_detects_difference diamond diamondLeaf 17 "D" "D").
  - exact diamond_valid.
  - exact diamondLeaf_valid.
  - simpl. lia.
  - exact Hcalled.
  - reflexivity.
Defined.

Lemma directDepsLeadingTo_reachable_witness :
  valid diamond ∧
  directDepsLeadingTo 5 diamond pkgUnknown = inr (Throw (NoSuchPkg (getPkgId pkgUnknown))) ∧
  ∃ ds, directDepsLeadingTo 5 diamond pkgB = inr (Ok (pkgOfNode diamond <$> ds)) ∧
        sublist ds (sucs (_graph diamond) (_rootNodeId diamond)) ∧
        ∀ d, d ∈ ds ↔
             edge (_graph diamond) (_rootNodeId diamond) d ∧
             ∃ n, occurrence diamond pkgB n ∧ rtc (edge (_graph diamond)) d n.
Proof.
  split; [exact diamond_valid |].
  assert (length (nodes (_graph diamond)) < 5)%nat as Hfuel by (simpl; lia).
  destruct (directDepsLeadingTo_reachable diamond pkgUnknown 5 diamond_valid Hfuel)
    as [Hunknown _].
  destruct (directDepsLeadingTo_reachable diamond pkgB 5 diamond_valid Hfuel)
    as [_ Hknown].
  split; [apply Hunknown; reflexivity | apply Hknown; compute_done].
Defined.

(** On the diamond, [B] alone leads to [B], and both [B] and [C] lead to
    [D]. *)
Example diamond_directDepsLeadingTo :
  directDepsLeadingTo 5 diamond pkgB = inr (Ok [Some (pkgInfo 1 "B" "1.0.0")]) ∧
  directDepsLeadingTo 5 diamond pkgD
  = inr (Ok [Some (pkgInfo 1 "B" "1.0.0"); Some (pkgInfo 2 "C" "1.0.0")]).
Proof. split; reflexivity. Qed.

Lemma toJSON_document_witness :
  valid diamond ∧
  ∃ d, toJSON noLabels diamond = Ok d ∧ consistent d ∧
       d_nodeId <$> d_nodes d = ["root"; "B"; "C"; "D"] ∧
       Forall (λ n, d_info n = None) (d_nodes d).
Proof.
  split; [exact diamond_valid |].
  destruct (toJSON_document noLabels diamond)
    as (d & Hd & _ & _ & Hnodes & Hids & _ & _ & Hvalid).
  exists d. split; [exact Hd |]. split; [apply (Hvalid diamond_valid) |].
  split; [exact Hids |]. rewrite Hnodes. compute_done.
Defined.

Lemma construct_root_witness :
  construct diamondGraph "nowhere" (diamondPkgs "1.0.0")
            (list_to_map (diamondIndex "1.0.0")) "npm" = Throw TypeError ∧
  getNodePkg diamond "root" = Ok (rootPkg diamond).
Proof.
  destruct (construct_root diamondGraph "nowhere" (diamondPkgs "1.0.0")
              (list_to_map (diamondIndex "1.0.0")) "npm") as (Hthrows & _ & _).
  destruct (construct_root diamondGraph "root" (diamondPkgs "1.0.0")
              (list_to_map (diamondIndex "1.0.0")) "npm") as (_ & _ & Hbuilt).
  split; [apply Hthrows; compute_done |].
  apply (Hbuilt diamond). reflexivity.
Defined.

Lemma equals_without_root_weaker_witness :
  equals 17 diamond diamond true = Ok true ∧ equals 17 diamond diamond false = Ok true.
Proof.
  split; [reflexivity |].
  apply (equals_without_root_weaker diamond diamond 17). reflexivity.
Defined.
